(** * TypeORM: the PostgreSQL driver and the entity metadata builder

    A shallow embedding of [PostgresDriver.preparePersistentValue],
    [PostgresDriver.prepareHydratedValue], of the functions of the driver
    that name tables and types, compare defaults and bind the parameters
    of a query, and of the passes of [EntityMetadataBuilder.build]
    (src/driver/postgres/PostgresDriver.ts), with the properties the
    specification states about them and further properties of the
    code. *)

From Stdlib Require Import ZArith Ascii String DecimalString Lia Bool.
From stdpp Require Import base list strings gmap.

Local Open Scope nat_scope.
Set Warnings "-register-all".

(** * JavaScript values *)

(** The fragment of JavaScript values the codec handles.  Numbers are the
    integers (the codec produces 0 and 1 and compares with them); an object
    is the list of its own enumerable string-keyed properties in creation
    order. *)
Inductive JsValue : Type :=
| VUndefined
| VNull
| VBool (b : bool)
| VNum (n : Z)
| VStr (s : string)
| VArr (elems : list JsValue)
| VObj (props : list (string * JsValue)).

(** [value === null || value === undefined] *)
Definition isAbsent (v : JsValue) : bool :=
  match v with
  | VUndefined | VNull => true
  | _ => false
  end.

(** ToBoolean, as used by [value ? a : b]. *)
Definition truthy (v : JsValue) : bool :=
  match v with
  | VUndefined | VNull => false
  | VBool b => b
  | VNum n => negb (n =? 0)%Z
  | VStr s => negb (String.eqb s "")
  | VArr _ | VObj _ => true
  end.

Definition string_of_Z (n : Z) : string := NilZero.string_of_int (Z.to_int n).

(** [Array.prototype.join]: absent elements print as the empty string. *)
Fixpoint join (sep : string) (l : list string) : string :=
  match l with
  | [] => ""
  | [x] => x
  | x :: l' => x +:+ sep +:+ join sep l'
  end.

(** ToString, as performed by a template literal. *)
Fixpoint toString (v : JsValue) : string :=
  match v with
  | VUndefined => "undefined"
  | VNull => "null"
  | VBool true => "true"
  | VBool false => "false"
  | VNum n => string_of_Z n
  | VStr s => s
  | VArr l =>
      join "," ((fix elems (l : list JsValue) : list string :=
                   match l with
                   | [] => []
                   | x :: l' => (if isAbsent x then "" else toString x) :: elems l'
                   end) l)
  | VObj _ => "[object Object]"
  end.

(** ** Property order and assignment *)

Definition is_digit (a : ascii) : bool :=
  (48 <=? nat_of_ascii a) && (nat_of_ascii a <=? 57).

Fixpoint all_digits (s : string) : bool :=
  match s with
  | EmptyString => true
  | String a s' => is_digit a && all_digits s'
  end.

Fixpoint digits_value (acc : N) (s : string) : N :=
  match s with
  | EmptyString => acc
  | String a s' => digits_value (10 * acc + N.of_nat (nat_of_ascii a - 48))%N s'
  end.

(** An array index: a canonical numeric string below 2^32 - 1. *)
Definition array_index (k : string) : option N :=
  match k with
  | EmptyString => None
  | String a s' =>
      if all_digits k && (negb (Ascii.eqb a "0") || String.eqb s' "")
      then let n := digits_value 0 k in
           if (n <? 4294967295)%N then Some n else None
      else None
  end.

Fixpoint insert_index (n : N) (kv : string * JsValue)
    (l : list (N * (string * JsValue))) : list (N * (string * JsValue)) :=
  match l with
  | [] => [(n, kv)]
  | (m, kv') :: l' =>
      if (n <? m)%N then (n, kv) :: l else (m, kv') :: insert_index n kv l'
  end.

(** Integer-like keys first, ascending; the others in creation order. *)
Definition ownProperties (props : list (string * JsValue)) : list (string * JsValue) :=
  let indexed :=
    foldr (fun kv acc =>
             match array_index kv.1 with
             | Some n => insert_index n kv acc
             | None => acc
             end) [] props in
  map snd indexed ++
  filter (fun kv => array_index kv.1 = None) props.

Fixpoint indexed_from (i : nat) (l : list JsValue) : list (string * JsValue) :=
  match l with
  | [] => []
  | x :: l' => (string_of_Z (Z.of_nat i), x) :: indexed_from (S i) l'
  end.

(** The pairs [(key, value[key])] for [key] in [Object.keys(value)]. *)
Definition Object_entries (v : JsValue) : list (string * JsValue) :=
  match v with
  | VObj props => ownProperties props
  | VArr l => indexed_from 0 l
  | VStr s => indexed_from 0 (map (fun a => VStr (String a "")) (list_ascii_of_string s))
  | _ => []
  end.

(** [object[k] = v] on a plain object: an existing property keeps its
    place; assigning to [__proto__] creates no own property. *)
Fixpoint assign (k : string) (v : JsValue) (props : list (string * JsValue))
  : list (string * JsValue) :=
  match props with
  | [] => [(k, v)]
  | (k', v') :: props' =>
      if String.eqb k' k then (k, v) :: props' else (k', v') :: assign k v props'
  end.

Definition setProperty (props : list (string * JsValue)) (kv : string * JsValue)
  : list (string * JsValue) :=
  if String.eqb kv.1 "__proto__" then props else assign kv.1 kv.2 props.

Definition getProperty (props : list (string * JsValue)) (k : string) : JsValue :=
  match find (fun kv => String.eqb kv.1 k) props with
  | Some kv => kv.2
  | None => VUndefined
  end.

(** * Regular expressions

    A backtracking matcher for the constructs the codec's patterns use:
    character classes, sequence, alternation, greedy star, capture groups,
    positive lookahead and the end anchor.  The matcher works on the suffix
    of the subject that starts at the current position and is written in
    continuation-passing style, so that a failing continuation makes the
    matcher try its next alternative, as the ECMAScript semantics does. *)

Inductive regex : Type :=
| RChar (p : ascii -> bool)
| REps
| RSeq (r1 r2 : regex)
| RAlt (r1 r2 : regex)
| RStar (r : regex)
| RGroup (i : nat) (r : regex)
| RLook (r : regex)
| REnd.

(** Captures: entry [i] is group [i], [None] when it did not take part. *)
Definition caps : Type := list (option string).

Fixpoint take_string (n : nat) (s : string) : string :=
  match n, s with
  | S n', String a s' => String a (take_string n' s')
  | _, _ => ""
  end.

(** The text consumed between the position [s] and the later position [s']. *)
Definition matched (s s' : string) : string :=
  take_string (String.length s - String.length s') s.

Definition Matcher (R : Type) : Type :=
  string -> caps -> (string -> caps -> option R) -> option R.

(** The greedy star: one more iteration first, the continuation second; an
    iteration that consumes nothing is rejected. *)
Fixpoint star_loop {R : Type} (m : Matcher R) (k : string -> caps -> option R)
    (fuel : nat) (s : string) (c : caps) : option R :=
  match fuel with
  | O => k s c
  | S fuel' =>
      match m s c (fun s1 c1 =>
                     if String.length s1 <? String.length s
                     then star_loop m k fuel' s1 c1 else None) with
      | Some x => Some x
      | None => k s c
      end
  end.

Fixpoint rmatch (R : Type) (r : regex) : Matcher R :=
  fun s c k =>
  match r with
  | RChar p =>
      match s with
      | String a s' => if p a then k s' c else None
      | EmptyString => None
      end
  | REps => k s c
  | RSeq r1 r2 => rmatch R r1 s c (fun s1 c1 => rmatch R r2 s1 c1 k)
  | RAlt r1 r2 =>
      match rmatch R r1 s c k with
      | Some x => Some x
      | None => rmatch R r2 s c k
      end
  | RStar r1 => star_loop (rmatch R r1) k (S (String.length s)) s c
  | RGroup i r1 =>
      rmatch R r1 s c (fun s1 c1 => k s1 (<[i := Some (matched s s1)]> c1))
  | RLook r1 =>
      match rmatch caps r1 s c (fun _ c1 => Some c1) with
      | Some c1 => k s c1
      | None => None
      end
  | REnd => match s with EmptyString => k s c | _ => None end
  end.

Fixpoint RLit (s : string) : regex :=
  match s with
  | EmptyString => REps
  | String a s' => RSeq (RChar (Ascii.eqb a)) (RLit s')
  end.

(** One piece of the subject as a global search sees it: a character no
    match covers, or a match with its captures (entry 0 is the match). *)
Inductive piece : Type :=
| Skip (a : ascii)
| Match (c : caps).

(** Global search ([g] flag): at each position try the pattern; on a match
    continue after it (one character further when the match is empty), on a
    failure move one character on. *)
Fixpoint scan (fuel : nat) (r : regex) (groups : nat) (s : string) : list piece :=
  match fuel with
  | O => []
  | S fuel' =>
      match rmatch (caps * string) r s (replicate (S groups) None)
                   (fun s' c => Some (c, s')) with
      | Some (c, s') =>
          Match (<[0 := Some (matched s s')]> c) ::
          (if String.length s' <? String.length s
           then scan fuel' r groups s'
           else match s with
                | EmptyString => []
                | String a s1 => Skip a :: scan fuel' r groups s1
                end)
      | None =>
          match s with
          | EmptyString => []
          | String a s1 => Skip a :: scan fuel' r groups s1
          end
      end
  end.

Definition matchAll (r : regex) (groups : nat) (s : string) : list piece :=
  scan (S (String.length s)) r groups s.

Fixpoint concat_pieces (f : caps -> string) (l : list piece) : string :=
  match l with
  | [] => ""
  | Skip a :: l' => String a (concat_pieces f l')
  | Match c :: l' => f c +:+ concat_pieces f l'
  end.

(** [s.replace(/r/g, f)] *)
Definition replace_g (r : regex) (groups : nat) (f : caps -> string) (s : string) : string :=
  concat_pieces f (matchAll r groups s).

Definition group (i : nat) (c : caps) : option string :=
  match c !! i with
  | Some g => g
  | None => None
  end.

Definition dquote : ascii := ascii_of_nat 34.
Definition backslash : ascii := ascii_of_nat 92.

Definition is_special (a : ascii) : bool := Ascii.eqb a dquote || Ascii.eqb a backslash.

(** [.] without the [s] flag: any character but a line terminator. *)
Definition dot (a : ascii) : bool :=
  negb (Ascii.eqb a (ascii_of_nat 10) || Ascii.eqb a (ascii_of_nat 13)).

(** * Exceptions *)

Inductive exn : Type :=
| TypeORMError (message : string)
| TypeError (what : string).

Inductive result (A : Type) : Type :=
| Ok (a : A)
| Throw (e : exn).
Arguments Ok {A} a.
Arguments Throw {A} e.

Definition bind {A B : Type} (m : result A) (k : A -> result B) : result B :=
  match m with
  | Ok a => k a
  | Throw e => Throw e
  end.

Notation "'let*' x ':=' m 'in' k" := (bind m (fun x => k))
  (at level 10, x pattern, m at level 100, k at level 200).

(** [l.forEach(f)] / [l.map(f)] with a callback that may throw. *)
Fixpoint mapM {A B : Type} (f : A -> result B) (l : list A) : result (list B) :=
  match l with
  | [] => Ok []
  | x :: l' => let* y := f x in let* ys := mapM f l' in Ok (y :: ys)
  end.

Fixpoint foldM {A S : Type} (f : S -> A -> result S) (l : list A) (s : S) : result S :=
  match l with
  | [] => Ok s
  | x :: l' => let* s' := f s x in foldM f l' s'
  end.

(** * The value codec of the PostgreSQL driver *)

Module PostgresDriver.

(** [ColumnMetadata.type]: a constructor ([Boolean], [Date], [Number],
    [String]) or the name of a database type. *)
Inductive ColumnType : Type :=
| TBoolean
| TDate
| TNumber
| TString
| TName (name : string).

Record ValueTransformer : Type := {
  to : JsValue -> result JsValue;
  from : JsValue -> result JsValue
}.

(** [ColumnMetadata.transformer]: one transformer or an array of them. *)
Inductive Transformers : Type :=
| Single (t : ValueTransformer)
| Chain (ts : list ValueTransformer).

(** The fields of [ColumnMetadata] the codec reads. *)
Record ColumnMetadata : Type := {
  type : ColumnType;
  transformer : option Transformers;
  isArray : bool;
  hstoreType : option string;
  enum : option (list JsValue)
}.

(** Modelled from the spec: [ApplyValueTransformers], which is not part of
    the translated file.  The transformer chain is applied in declaration
    order on write and in reverse order on read (section 3 of the
    specification; docs/entity/1-entities.md, option [transformer]). *)
Definition transformTo (t : Transformers) (entityValue : JsValue) : result JsValue :=
  match t with
  | Single t1 => to t1 entityValue
  | Chain ts => foldM (fun v t1 => to t1 v) ts entityValue
  end.

Definition transformFrom (t : Transformers) (databaseValue : JsValue) : result JsValue :=
  match t with
  | Single t1 => from t1 databaseValue
  | Chain ts => foldM (fun v t1 => from t1 v) (rev ts) databaseValue
  end.

Definition is_type (col : ColumnMetadata) (name : string) : bool :=
  match type col with
  | TName n => String.eqb n name
  | _ => false
  end.

Definition is_ctor (col : ColumnMetadata) (c : ColumnType) : bool :=
  match type col, c with
  | TBoolean, TBoolean | TDate, TDate | TNumber, TNumber | TString, TString => true
  | _, _ => false
  end.

(** ** hstore *)

(** The text of the value with a backslash inserted in front of every
    double quote and backslash (a global replace of the empty lookahead
    match), between double quotes; an absent value is the unquoted
    literal NULL. *)
Definition quoteString (value : JsValue) : string :=
  if isAbsent value then "NULL"
  else String dquote
         (replace_g (RLook (RChar is_special)) 0 (fun _ => String backslash "")
                    (toString value))
       +:+ String dquote "".

Definition hstoreToString (value : JsValue) : string :=
  join "," (map (fun kv => quoteString (VStr kv.1) +:+ "=>" +:+ quoteString kv.2)
                (Object_entries value)).

(** [str.replace(/\\./g, (m) => m[1])] *)
Definition unescapeString (str : string) : string :=
  replace_g (RSeq (RChar (Ascii.eqb backslash)) (RChar dot)) 0
            (fun c => match group 0 c with
                      | Some (String _ (String a _)) => String a ""
                      | _ => "undefined"
                      end) str.

Definition not_special (a : ascii) : bool := negb (is_special a).

(** Any run of characters other than the double quote and the backslash,
    then any number of: a backslash, one character, such a run again. *)
Definition hstore_body : regex :=
  RSeq (RStar (RChar not_special))
       (RStar (RSeq (RSeq (RChar (Ascii.eqb backslash)) (RChar dot))
                    (RStar (RChar not_special)))).

(** A quoted body (group 1), [=>], then either the word NULL (group 2) or a
    quoted body (group 3), then a comma or the end of the subject. *)
Definition hstore_regexp : regex :=
  RSeq (RChar (Ascii.eqb dquote))
  (RSeq (RGroup 1 hstore_body)
  (RSeq (RChar (Ascii.eqb dquote))
  (RSeq (RLit "=>")
  (RSeq (RAlt (RGroup 2 (RLit "NULL"))
              (RSeq (RChar (Ascii.eqb dquote))
              (RSeq (RGroup 3 hstore_body)
                    (RChar (Ascii.eqb dquote)))))
        (RAlt (RChar (Ascii.eqb ",")) REnd))))).

(** Following the specification's words: every embedded double quote and
    backslash is prefixed by a backslash. *)
Fixpoint escaped (s : string) : string :=
  match s with
  | EmptyString => ""
  | String a s' =>
      if is_special a then String backslash (String a (escaped s'))
      else String a (escaped s')
  end.

(** Following the specification's words: a quoted key or value. *)
Definition quoted (s : string) : string :=
  String dquote (escaped s +:+ String dquote "").

(** The callback of the decoding [replace]: the property it assigns. *)
Definition hstore_entry (c : caps) : result (string * JsValue) :=
  match group 1 c with
  | None => Throw (TypeError "str.replace")
  | Some key =>
      match group 2 c with
      | Some (String _ _) => Ok (unescapeString key, VNull)
      | _ =>
          match group 3 c with
          | None => Throw (TypeError "str.replace")
          | Some stringValue => Ok (unescapeString key, VStr (unescapeString stringValue))
          end
      end
  end.

Fixpoint matches (l : list piece) : list caps :=
  match l with
  | [] => []
  | Skip _ :: l' => matches l'
  | Match c :: l' => c :: matches l'
  end.

Definition stringToHstore (value : JsValue) : result JsValue :=
  let* entries := mapM hstore_entry (matches (matchAll hstore_regexp 3 (toString value))) in
  Ok (VObj (foldl setProperty [] entries)).

(** ** The two entry points *)

(** Helpers that live outside the translated file ([DateUtils],
    [JSON.stringify]) and the bodies of the branches (cube, ltree, enum and
    number coercion) that no stated property depends on.  Each may throw. *)
Record Externals : Type := {
  mixedDateToDateString : JsValue -> result JsValue;
  mixedDateToTimeString : JsValue -> result JsValue;
  mixedDateToDate : JsValue -> result JsValue;
  JSON_stringify : JsValue -> result JsValue;
  simpleArrayToString : JsValue -> result JsValue;
  simpleJsonToString : JsValue -> result JsValue;
  cubeToString : JsValue -> bool -> result JsValue;
  ltreeToString : JsValue -> result JsValue;
  normalizeHydratedDate : JsValue -> result JsValue;
  mixedTimeToString : JsValue -> result JsValue;
  stringToSimpleArray : JsValue -> result JsValue;
  stringToSimpleJson : JsValue -> result JsValue;
  stringToCube : JsValue -> bool -> result JsValue;
  stringToEnumArray : JsValue -> option (list JsValue) -> result JsValue;
  stringToEnum : JsValue -> option (list JsValue) -> result JsValue;
  stringToNumber : JsValue -> result JsValue
}.

Definition spatialTypes : list string := ["geometry"; "geography"].

Definition is_datetime (col : ColumnMetadata) : bool :=
  is_type col "datetime" || is_ctor col TDate || is_type col "timestamp"
  || is_type col "timestamp with time zone"
  || is_type col "timestamp without time zone".

Definition is_enum (col : ColumnMetadata) : bool :=
  is_type col "enum" || is_type col "simple-enum".

Section Codec.

Variable ext : Externals.

(** The type-directed part of [preparePersistentValue], reached with a
    value that is neither [null] nor [undefined]. *)
Definition persist_by_type (value : JsValue) (col : ColumnMetadata) : result JsValue :=
  if is_ctor col TBoolean then
    Ok (VNum (match value with VBool true => 1 | _ => 0 end))
  else if is_type col "date" then mixedDateToDateString ext value
  else if is_type col "time" then mixedDateToTimeString ext value
  else if is_datetime col then mixedDateToDate ext value
  else if existsb (is_type col) ("json" :: "jsonb" :: spatialTypes) then
    JSON_stringify ext value
  else if is_type col "hstore" then
    match value with
    | VStr _ => Ok value
    | _ => Ok (VStr (hstoreToString value))
    end
  else if is_type col "simple-array" then simpleArrayToString ext value
  else if is_type col "simple-json" then simpleJsonToString ext value
  else if is_type col "cube" then cubeToString ext value (isArray col)
  else if is_type col "ltree" then ltreeToString ext value
  else if is_enum col && negb (isArray col) then Ok (VStr (toString value))
  else Ok value.

Definition preparePersistentValue (value : JsValue) (col : ColumnMetadata)
  : result JsValue :=
  let* value :=
    match transformer col with
    | Some t => transformTo t value
    | None => Ok value
    end in
  if isAbsent value then Ok value
  else persist_by_type value col.

(** How a branch of [prepareHydratedValue] ends: with a [return], or by
    falling through to the transformers with the new [value]. *)
Inductive flow : Type :=
| Return (v : JsValue)
| Continue (v : JsValue).

Definition continue (m : result JsValue) : result flow :=
  let* v := m in Ok (Continue v).

Definition hydrate_by_type (value : JsValue) (col : ColumnMetadata) : result flow :=
  if is_ctor col TBoolean then Ok (Continue (VBool (truthy value)))
  else if is_datetime col then continue (normalizeHydratedDate ext value)
  else if is_type col "date" then continue (mixedDateToDateString ext value)
  else if is_type col "time" then continue (mixedTimeToString ext value)
  else if is_type col "hstore" then
    match hstoreType col with
    | Some "object" => continue (stringToHstore value)
    | _ => Ok (Continue value)
    end
  else if is_type col "simple-array" then continue (stringToSimpleArray ext value)
  else if is_type col "simple-json" then continue (stringToSimpleJson ext value)
  else if is_type col "cube" then continue (stringToCube ext value (isArray col))
  else if is_enum col then
    if isArray col then
      match value with
      | VStr "{}" => Ok (Return (VArr []))
      | _ => continue (stringToEnumArray ext value (enum col))
      end
    else continue (stringToEnum ext value (enum col))
  else if is_ctor col TNumber then continue (stringToNumber ext value)
  else Ok (Continue value).

Definition prepareHydratedValue (value : JsValue) (col : ColumnMetadata)
  : result JsValue :=
  if isAbsent value then
    match transformer col with
    | Some t => transformFrom t value
    | None => Ok value
    end
  else
    let* f := hydrate_by_type value col in
    match f with
    | Return v => Ok v
    | Continue v =>
        match transformer col with
        | Some t => transformFrom t v
        | None => Ok v
        end
    end.

End Codec.

(** ** Sample columns *)

(** No helper available: every external call throws. *)
Definition no_externals : Externals :=
  let unavailable := fun _ : JsValue => Throw (TypeError "unavailable") in
  {| mixedDateToDateString := unavailable;
     mixedDateToTimeString := unavailable;
     mixedDateToDate := unavailable;
     JSON_stringify := unavailable;
     simpleArrayToString := unavailable;
     simpleJsonToString := unavailable;
     cubeToString := fun v _ => unavailable v;
     ltreeToString := unavailable;
     normalizeHydratedDate := unavailable;
     mixedTimeToString := unavailable;
     stringToSimpleArray := unavailable;
     stringToSimpleJson := unavailable;
     stringToCube := fun v _ => unavailable v;
     stringToEnumArray := fun v _ => unavailable v;
     stringToEnum := fun v _ => unavailable v;
     stringToNumber := unavailable |}.

Definition column (t : ColumnType) (tr : option Transformers) (array : bool)
  : ColumnMetadata :=
  {| type := t; transformer := tr; isArray := array;
     hstoreType := Some "object"; enum := None |}.

(** A transformer that replaces whatever it is given by [v]. *)
Definition always (v : JsValue) : ValueTransformer :=
  {| to := fun _ => Ok v; from := fun _ => Ok v |}.

End PostgresDriver.

(* ===================================================================== *)
(** * More of the PostgreSQL driver

    The functions of [PostgresDriver] that name tables and types, compare
    defaults and bind the parameters of a query. *)

(** ** Strings

    A string is the sequence of its UTF-16 code units, of which the
    embedding has those below 256: ASCII and the Latin-1 supplement. *)
Module JsString.

(** [s.split(sep)], for a separator of one character. *)
Fixpoint split (sep : ascii) (s : string) : list string :=
  match s with
  | EmptyString => [""]
  | String a s' =>
      if Ascii.eqb a sep then "" :: split sep s'
      else match split sep s' with
           | x :: l => String a x :: l
           | [] => [String a ""]
           end
  end.

(** [s.indexOf(a) !== -1], for one character. *)
Fixpoint includes (a : ascii) (s : string) : bool :=
  match s with
  | EmptyString => false
  | String b s' => Ascii.eqb b a || includes a s'
  end.

(** The lower case of a code unit: of A to Z and of the capital letters
    of the Latin-1 supplement, which are 192 to 222 without 215. *)
Definition lower (a : ascii) : ascii :=
  let n := nat_of_ascii a in
  if (65 <=? n) && (n <=? 90) || (192 <=? n) && (n <=? 222) && negb (n =? 215)
  then ascii_of_nat (n + 32)
  else a.

Fixpoint toLowerCase (s : string) : string :=
  match s with
  | EmptyString => ""
  | String a s' => String (lower a) (toLowerCase s')
  end.

(** [a || b] on optional strings: the empty string is falsy. *)
Definition or_else (a b : option string) : option string :=
  match a with
  | Some (String _ _) => a
  | _ => b
  end.

End JsString.

(** ** Names of tables and of types *)
Module PostgresDriverSchema.

Import JsString.

(** The fields of the driver these functions read. *)
Record Driver : Type := {
  database : option string;
  schema : option string;
  parametersPrefix : string
}.

(** [escape] *)
Definition escape (columnName : string) : string :=
  String dquote (columnName +:+ String dquote "").

(** [buildTableName] *)
Definition buildTableName (tableName : string) (schema : option string) : string :=
  let tablePath := [tableName] in
  let tablePath :=
    match schema with
    | Some (String a s) => String a s :: tablePath
    | _ => tablePath
    end in
  join "." tablePath.

(** What [parseTableName] is given: a [Table] or a [View], a
    [TableForeignKey], an [EntityMetadata] or a string. *)
Inductive TableTarget : Type :=
| OfTable (name : string) (database schema : option string)
| OfForeignKey (referencedTableName : string)
               (referencedDatabase referencedSchema : option string)
| OfEntityMetadata (database schema : option string) (tableName : string)
| OfString (target : string).

Record TableName : Type := {
  tn_database : option string;
  tn_schema : option string;
  tn_tableName : string
}.

(** [parseTableName] of a string: the last branch. *)
Definition parsePath (driver : Driver) (target : string) : TableName :=
  let parts := split "." target in
  {| tn_database := database driver;
     tn_schema := or_else (if 1 <? length parts then parts !! 0 else None)
                          (schema driver);
     tn_tableName := default "" (if 1 <? length parts then parts !! 1 else parts !! 0) |}.

(** [parseTableName] *)
Definition parseTableName (driver : Driver) (target : TableTarget) : TableName :=
  match target with
  | OfTable name database schema =>
      let parsed := parsePath driver name in
      {| tn_database := or_else database (or_else (tn_database parsed) (PostgresDriverSchema.database driver));
         tn_schema := or_else schema (or_else (tn_schema parsed) (PostgresDriverSchema.schema driver));
         tn_tableName := tn_tableName parsed |}
  | OfForeignKey referencedTableName referencedDatabase referencedSchema =>
      let parsed := parsePath driver referencedTableName in
      {| tn_database := or_else referencedDatabase
                          (or_else (tn_database parsed) (PostgresDriverSchema.database driver));
         tn_schema := or_else referencedSchema
                        (or_else (tn_schema parsed) (PostgresDriverSchema.schema driver));
         tn_tableName := tn_tableName parsed |}
  | OfEntityMetadata database schema tableName =>
      (* EntityMetadata tableName is never a path *)
      {| tn_database := or_else database (PostgresDriverSchema.database driver);
         tn_schema := or_else schema (PostgresDriverSchema.schema driver);
         tn_tableName := tableName |}
  | OfString target => parsePath driver target
  end.

#[global] Instance ColumnType_eq_dec : EqDecision PostgresDriver.ColumnType.
Proof. solve_decision. Defined.

(** [column.type === t] *)
Definition typeIs (type : option PostgresDriver.ColumnType) (t : PostgresDriver.ColumnType)
  : bool :=
  bool_decide (type = Some t).

(** [normalizeType] *)
Definition normalizeType (type : option PostgresDriver.ColumnType) : string :=
  let named := fun n => typeIs type (PostgresDriver.TName n) in
  if typeIs type PostgresDriver.TNumber || named "int" || named "int4" then "integer"
  else if typeIs type PostgresDriver.TString || named "varchar" then "character varying"
  else if typeIs type PostgresDriver.TDate || named "timestamp"
       then "timestamp without time zone"
  else if named "timestamptz" then "timestamp with time zone"
  else if named "time" then "time without time zone"
  else if named "timetz" then "time with time zone"
  else if typeIs type PostgresDriver.TBoolean || named "bool" then "boolean"
  else if named "simple-array" then "text"
  else if named "simple-json" then "text"
  else if named "simple-enum" then "enum"
  else if named "int2" then "smallint"
  else if named "int8" then "bigint"
  else if named "decimal" then "numeric"
  else if named "float8" || named "float" then "double precision"
  else if named "float4" then "real"
  else if named "char" then "character"
  else if named "varbit" then "bit varying"
  else match type with
       | Some (PostgresDriver.TName n) => n
       | _ => ""
       end.

(** [lowerDefaultValueIfNecessary]: Postgres saves function calls in
    default value as lowercase. *)
Definition lowerDefaultValueIfNecessary (value : option string) : option string :=
  match value with
  | Some (String a v) =>
      Some (join "'" (imap (fun i v => if Nat.odd i then v else toLowerCase v)
                           (split "'" (String a v))))
  | _ => value
  end.

(** [escapeComment]: null bytes aren't allowed in comments. *)
Definition escapeComment (comment : option string) : option string :=
  match comment with
  | Some (String a c) =>
      Some (replace_g (RChar (Ascii.eqb zero)) 0 (fun _ => "") (String a c))
  | _ => comment
  end.

(** [createParameter] *)
Definition createParameter (driver : Driver) (parameterName : string) (index : nat)
  : string :=
  parametersPrefix driver +:+ string_of_Z (Z.of_nat (index + 1)).

End PostgresDriverSchema.

(** ** Label paths *)
Module PostgresDriverLtree.

Import JsString.

(** The class [\s], on the code units below 256: the tab, the line feed,
    the vertical tab, the form feed, the carriage return, the space and
    the no-break space. *)
Definition whitespace (a : ascii) : bool :=
  let n := nat_of_ascii a in
  (9 <=? n) && (n <=? 13) || (n =? 32) || (n =? 160).

(** The branch of [preparePersistentValue] for a column of type ltree. *)
Definition ltreeToString (value : JsValue) : result JsValue :=
  match value with
  | VStr s =>
      Ok (VStr (replace_g (RSeq (RChar whitespace) (RStar (RChar whitespace))) 0
                          (fun _ => "_")
                          (join "." (filter (fun label => label <> "") (split "." s)))))
  | _ => Throw (TypeError "value.split is not a function")
  end.

End PostgresDriverLtree.

(** ** The parameters of a query *)
Module PostgresDriverQuery.

Import JsString PostgresDriverSchema.

(** The value of a parameter: plain data, or a function, which is called
    without arguments. *)
Inductive Any : Type :=
| Plain (v : JsValue)
| Function (call : result JsValue).

(** [parameters]: the own properties of a plain object, which has its
    [hasOwnProperty] from [Object.prototype]. *)
Definition ObjectLiteral : Type := list (string * Any).

(** [parameters.hasOwnProperty(key)] and [parameters[key]] *)
Definition own (parameters : ObjectLiteral) (key : string) : option Any :=
  snd <$> find (fun kv => String.eqb kv.1 key) parameters.

(** What the callback of the replacement updates. *)
Record Bindings : Type := {
  escapedParameters : list JsValue;
  parameterIndexMap : gmap string nat
}.

(** The class [A-Za-z0-9_.] *)
Definition keyChar (a : ascii) : bool :=
  let n := nat_of_ascii a in
  (65 <=? n) && (n <=? 90) || (97 <=? n) && (n <=? 122)
  || (48 <=? n) && (n <=? 57) || (n =? 95) || (n =? 46).

(** The pattern of a placeholder: a colon, three dots or nothing
    (group 1), a key (group 2). *)
Definition placeholder : regex :=
  RSeq (RChar (Ascii.eqb ":"))
       (RSeq (RAlt (RGroup 1 (RLit "...")) REps)
             (RGroup 2 (RSeq (RChar keyChar) (RStar (RChar keyChar))))).

(** The [map] of the array of a spread parameter: every element is
    pushed and named by its place. *)
Fixpoint spread (driver : Driver) (key : string) (value : list JsValue)
    (escapedParameters : list JsValue) : list string * list JsValue :=
  match value with
  | [] => ([], escapedParameters)
  | v :: value' =>
      let escapedParameters := escapedParameters ++ [v] in
      let name := createParameter driver key (length escapedParameters - 1) in
      let (names, escapedParameters) := spread driver key value' escapedParameters in
      (name :: names, escapedParameters)
  end.

(** The callback of the replacement, given the captures of a match
    (every match has its groups 0 and 2). *)
Definition replacement (driver : Driver) (parameters : ObjectLiteral)
    (c : caps) (b : Bindings) : result (string * Bindings) :=
  let full := default "undefined" (group 0 c) in
  let isArray := group 1 c in
  let key := default "undefined" (group 2 c) in
  match own parameters key with
  | None => Ok (full, b)
  | Some value =>
      match parameterIndexMap b !! key with
      | Some index =>
          Ok (parametersPrefix driver +:+ string_of_Z (Z.of_nat index), b)
      | None =>
          match isArray with
          | Some (String _ _) =>
              match value with
              | Plain (VArr elems) =>
                  let (names, escaped) := spread driver key elems (escapedParameters b) in
                  Ok (join ", " names,
                      {| escapedParameters := escaped;
                         parameterIndexMap := parameterIndexMap b |})
              | _ => Throw (TypeError "value.map is not a function")
              end
          | _ =>
              match value with
              | Function call => let* text := call in Ok (toString text, b)
              | Plain v =>
                  let escaped := escapedParameters b ++ [v] in
                  Ok (createParameter driver key (length escaped - 1),
                      {| escapedParameters := escaped;
                         parameterIndexMap :=
                           <[key := length escaped]> (parameterIndexMap b) |})
              end
          end
      end
  end.

(** [sql.replace(pattern, callback)] with a callback that updates the
    bindings and may throw: the callback is run on the matches from left
    to right. *)
Fixpoint replaceEach (f : caps -> Bindings -> result (string * Bindings))
    (l : list piece) (b : Bindings) : result (string * Bindings) :=
  match l with
  | [] => Ok ("", b)
  | Skip a :: l' =>
      let* (s, b') := replaceEach f l' b in Ok (String a s, b')
  | Match c :: l' =>
      let* (r, b1) := f c b in
      let* (s, b2) := replaceEach f l' b1 in
      Ok (r +:+ s, b2)
  end.

(** [escapeQueryWithParameters]; [parameters] is [None] when it is
    [undefined]. *)
Definition escapeQueryWithParameters (driver : Driver) (sql : string)
    (parameters : option ObjectLiteral) (nativeParameters : list (string * JsValue))
  : result (string * list JsValue) :=
  let escapedParameters := map snd (ownProperties nativeParameters) in
  match parameters with
  | None | Some [] => Ok (sql, escapedParameters)
  | Some parameters =>
      let* (sql, b) :=
        replaceEach (replacement driver parameters) (matchAll placeholder 2 sql)
                    {| escapedParameters := escapedParameters;
                       parameterIndexMap := ∅ |} in
      Ok (sql, PostgresDriverQuery.escapedParameters b)
  end.

End PostgresDriverQuery.

(** * The entity metadata builder *)

Module EntityMetadataBuilder.

(** References to the objects the builder creates and shares: entity
    metadatas, columns, relations and arrays of indices. *)
Abbreviation eref := nat.
Abbreviation cref := nat.
Abbreviation rref := nat.
Abbreviation aref := nat.

(** An entity target or a relation type: a class, compared by identity, or
    a name, compared as a string. *)
Inductive Target : Type :=
| Class (id : nat)
| Named (name : string).

#[global] Instance Target_eq_dec : EqDecision Target.
Proof. solve_decision. Defined.

(** [typeof target === "function"] *)
Definition is_function (t : Target) : bool :=
  match t with
  | Class _ => true
  | Named _ => false
  end.

Inductive TableType : Type :=
| regular | view | junction | closure | closure_junction | entity_child.

#[global] Instance TableType_eq_dec : EqDecision TableType.
Proof. solve_decision. Defined.

Inductive TreeType : Type :=
| adjacency_list | closure_table | nested_set | materialized_path.

#[global] Instance TreeType_eq_dec : EqDecision TreeType.
Proof. solve_decision. Defined.

Inductive RelationType : Type :=
| one_to_one | one_to_many | many_to_one | many_to_many.

#[global] Instance RelationType_eq_dec : EqDecision RelationType.
Proof. solve_decision. Defined.

(** ** Metadata args: the declarations the builder consumes *)

Module TableArgs.
Record t : Type := {
  target : Target;
  name : option string;
  type : TableType
}.
End TableArgs.

Module ColumnArgs.
Record t : Type := {
  target : Target;
  propertyName : string;
  name : option string;
  nullable : bool;
  primary : bool;
  virtual : bool
}.
End ColumnArgs.

(** [type] is the declared type, the thunk already called. *)
Module RelationArgs.
Record t : Type := {
  target : Target;
  propertyName : string;
  type : Target;
  relationType : RelationType;
  inverseSide : string
}.
End RelationArgs.

(** The [columns] of an index declaration: absent, an array of names, or a
    function of the entity's properties. *)
Inductive GivenColumnNames : Type :=
| NoColumnNames
| ColumnNames (names : list string)
| ColumnsFunction.

Module IndexArgs.
Record t : Type := {
  target : Target;
  columns : GivenColumnNames;
  unique : bool
}.
End IndexArgs.

(** An embedded declaration with the declarations found for its type. *)
Module EmbeddedArgs.
Record t : Type := {
  columns : list ColumnArgs.t;
  relations : list RelationArgs.t;
  indices : list IndexArgs.t
}.
End EmbeddedArgs.

(** [column]: the options of the discriminator column, when declared;
    inside, the column name, when given. *)
Module InheritanceArgs.
Record t : Type := {
  pattern : string;
  column : option (option string)
}.
End InheritanceArgs.

Module JoinTableArgs.
Record t : Type := {
  name : option string
}.
End JoinTableArgs.

(** The type of a foreign-key declaration, its thunk already called: a
    class or a name, or an entity schema with its options. *)
Inductive ForeignKeyType : Type :=
| FkTarget (t : Target)
| FkEntitySchema (name : option string) (target : option Target).

(** [inverseSide] is the name the declared accessor evaluates to. *)
Module ForeignKeyArgs.
Record t : Type := {
  target : Target;
  type : ForeignKeyType;
  name : option string;
  propertyName : option string;
  columnNames : option (list string);
  referencedColumnNames : option (list string);
  inverseSide : option string
}.
End ForeignKeyArgs.

(** ** Metadata objects *)

(** [ColumnMetadata]: the fields the builder reads and writes.  The database
    name, which [column.build] derives from the declaration through the
    naming strategy, is fixed when the column is created. *)
Module Col.
Record t : Type := mk {
  target : Target;
  propertyName : string;
  databaseName : string;
  isPrimary : bool;
  isNullable : bool;
  isVirtual : bool;
  isDiscriminator : bool;
  isGenerated : bool;
  generationStrategy : option string
}.
Definition set_isNullable (v : bool) (x : t) : t :=
  let 'mk x_target x_propertyName x_databaseName x_isPrimary x_isNullable x_isVirtual x_isDiscriminator x_isGenerated x_generationStrategy := x in
  mk x_target x_propertyName x_databaseName x_isPrimary v x_isVirtual x_isDiscriminator x_isGenerated x_generationStrategy.
Definition set_isDiscriminator (v : bool) (x : t) : t :=
  let 'mk x_target x_propertyName x_databaseName x_isPrimary x_isNullable x_isVirtual x_isDiscriminator x_isGenerated x_generationStrategy := x in
  mk x_target x_propertyName x_databaseName x_isPrimary x_isNullable x_isVirtual v x_isGenerated x_generationStrategy.
Definition set_isGenerated (v : bool) (x : t) : t :=
  let 'mk x_target x_propertyName x_databaseName x_isPrimary x_isNullable x_isVirtual x_isDiscriminator x_isGenerated x_generationStrategy := x in
  mk x_target x_propertyName x_databaseName x_isPrimary x_isNullable x_isVirtual x_isDiscriminator v x_generationStrategy.
Definition set_generationStrategy (v : option string) (x : t) : t :=
  let 'mk x_target x_propertyName x_databaseName x_isPrimary x_isNullable x_isVirtual x_isDiscriminator x_isGenerated x_generationStrategy := x in
  mk x_target x_propertyName x_databaseName x_isPrimary x_isNullable x_isVirtual x_isDiscriminator x_isGenerated v.
End Col.

(** [RelationMetadata]: [givenInverseSide] is the property path the
    declared inverse-side accessor evaluates to (empty when none is
    declared). *)
Module Rel.
Record t : Type := mk {
  target : Target;
  propertyName : string;
  propertyPath : string;
  type : Target;
  relationType : RelationType;
  embeddedMetadata : option nat;
  givenInverseSide : string;
  inverseEntityMetadata : option eref;
  inverseSidePropertyPath : string;
  inverseRelation : option rref;
  junctionEntityMetadata : option eref
}.
Definition set_type (v : Target) (x : t) : t :=
  let 'mk x_target x_propertyName x_propertyPath x_type x_relationType x_embeddedMetadata x_givenInverseSide x_inverseEntityMetadata x_inverseSidePropertyPath x_inverseRelation x_junctionEntityMetadata := x in
  mk x_target x_propertyName x_propertyPath v x_relationType x_embeddedMetadata x_givenInverseSide x_inverseEntityMetadata x_inverseSidePropertyPath x_inverseRelation x_junctionEntityMetadata.
Definition set_inverseEntityMetadata (v : option eref) (x : t) : t :=
  let 'mk x_target x_propertyName x_propertyPath x_type x_relationType x_embeddedMetadata x_givenInverseSide x_inverseEntityMetadata x_inverseSidePropertyPath x_inverseRelation x_junctionEntityMetadata := x in
  mk x_target x_propertyName x_propertyPath x_type x_relationType x_embeddedMetadata x_givenInverseSide v x_inverseSidePropertyPath x_inverseRelation x_junctionEntityMetadata.
Definition set_inverseSidePropertyPath (v : string) (x : t) : t :=
  let 'mk x_target x_propertyName x_propertyPath x_type x_relationType x_embeddedMetadata x_givenInverseSide x_inverseEntityMetadata x_inverseSidePropertyPath x_inverseRelation x_junctionEntityMetadata := x in
  mk x_target x_propertyName x_propertyPath x_type x_relationType x_embeddedMetadata x_givenInverseSide x_inverseEntityMetadata v x_inverseRelation x_junctionEntityMetadata.
Definition set_inverseRelation (v : option rref) (x : t) : t :=
  let 'mk x_target x_propertyName x_propertyPath x_type x_relationType x_embeddedMetadata x_givenInverseSide x_inverseEntityMetadata x_inverseSidePropertyPath x_inverseRelation x_junctionEntityMetadata := x in
  mk x_target x_propertyName x_propertyPath x_type x_relationType x_embeddedMetadata x_givenInverseSide x_inverseEntityMetadata x_inverseSidePropertyPath v x_junctionEntityMetadata.
Definition set_junctionEntityMetadata (v : option eref) (x : t) : t :=
  let 'mk x_target x_propertyName x_propertyPath x_type x_relationType x_embeddedMetadata x_givenInverseSide x_inverseEntityMetadata x_inverseSidePropertyPath x_inverseRelation x_junctionEntityMetadata := x in
  mk x_target x_propertyName x_propertyPath x_type x_relationType x_embeddedMetadata x_givenInverseSide x_inverseEntityMetadata x_inverseSidePropertyPath x_inverseRelation v.
End Rel.

(** [IndexMetadata]: the constructor keeps the declared column names, the
    columns it is given and the uniqueness flag. *)
Module Idx.
Record t : Type := {
  givenColumnNames : GivenColumnNames;
  columns : list cref;
  isUnique : bool
}.
End Idx.

(** [EmbeddedMetadata], with the members of its tree. *)
Module Emb.
Record t : Type := {
  columnsFromTree : list cref;
  relationsFromTree : list rref;
  indicesFromTree : list Idx.t
}.
Definition set_columnsFromTree (v : list cref) (x : t) : t :=
  {| columnsFromTree := v; relationsFromTree := relationsFromTree x;
     indicesFromTree := indicesFromTree x |}.
Definition set_indicesFromTree (v : list Idx.t) (x : t) : t :=
  {| columnsFromTree := columnsFromTree x; relationsFromTree := relationsFromTree x;
     indicesFromTree := v |}.
End Emb.

Module Fk.
Record t : Type := {
  referencedEntityMetadata : eref;
  columns : list cref;
  referencedColumns : list cref;
  name : option string
}.
End Fk.

(** [EntityMetadata].  [ownIndices] and [indices] are references to arrays:
    the builder pushes to them after they may have become one array. *)
Module Ent.
Record t : Type := mk {
  target : Target;
  tableType : TableType;
  givenTableName : option string;
  name : string;
  targetName : string;
  tableName : string;
  isJunction : bool;
  inheritanceTree : list Target;
  inheritancePattern : option string;
  treeType : option TreeType;
  parentEntityMetadata : option eref;
  embeddeds : list Emb.t;
  ownColumns : list (option cref);
  columns : list cref;
  ownRelations : list (option rref);
  relations : list rref;
  ownIndices : aref;
  indices : aref;
  primaryColumns : list cref;
  discriminatorColumn : option cref;
  foreignKeys : list Fk.t;
  closureJunctionTable : option eref
}.
Definition set_name (v : string) (x : t) : t :=
  let 'mk x_target x_tableType x_givenTableName x_name x_targetName x_tableName x_isJunction x_inheritanceTree x_inheritancePattern x_treeType x_parentEntityMetadata x_embeddeds x_ownColumns x_columns x_ownRelations x_relations x_ownIndices x_indices x_primaryColumns x_discriminatorColumn x_foreignKeys x_closureJunctionTable := x in
  mk x_target x_tableType x_givenTableName v x_targetName x_tableName x_isJunction x_inheritanceTree x_inheritancePattern x_treeType x_parentEntityMetadata x_embeddeds x_ownColumns x_columns x_ownRelations x_relations x_ownIndices x_indices x_primaryColumns x_discriminatorColumn x_foreignKeys x_closureJunctionTable.
Definition set_targetName (v : string) (x : t) : t :=
  let 'mk x_target x_tableType x_givenTableName x_name x_targetName x_tableName x_isJunction x_inheritanceTree x_inheritancePattern x_treeType x_parentEntityMetadata x_embeddeds x_ownColumns x_columns x_ownRelations x_relations x_ownIndices x_indices x_primaryColumns x_discriminatorColumn x_foreignKeys x_closureJunctionTable := x in
  mk x_target x_tableType x_givenTableName x_name v x_tableName x_isJunction x_inheritanceTree x_inheritancePattern x_treeType x_parentEntityMetadata x_embeddeds x_ownColumns x_columns x_ownRelations x_relations x_ownIndices x_indices x_primaryColumns x_discriminatorColumn x_foreignKeys x_closureJunctionTable.
Definition set_tableName (v : string) (x : t) : t :=
  let 'mk x_target x_tableType x_givenTableName x_name x_targetName x_tableName x_isJunction x_inheritanceTree x_inheritancePattern x_treeType x_parentEntityMetadata x_embeddeds x_ownColumns x_columns x_ownRelations x_relations x_ownIndices x_indices x_primaryColumns x_discriminatorColumn x_foreignKeys x_closureJunctionTable := x in
  mk x_target x_tableType x_givenTableName x_name x_targetName v x_isJunction x_inheritanceTree x_inheritancePattern x_treeType x_parentEntityMetadata x_embeddeds x_ownColumns x_columns x_ownRelations x_relations x_ownIndices x_indices x_primaryColumns x_discriminatorColumn x_foreignKeys x_closureJunctionTable.
Definition set_isJunction (v : bool) (x : t) : t :=
  let 'mk x_target x_tableType x_givenTableName x_name x_targetName x_tableName x_isJunction x_inheritanceTree x_inheritancePattern x_treeType x_parentEntityMetadata x_embeddeds x_ownColumns x_columns x_ownRelations x_relations x_ownIndices x_indices x_primaryColumns x_discriminatorColumn x_foreignKeys x_closureJunctionTable := x in
  mk x_target x_tableType x_givenTableName x_name x_targetName x_tableName v x_inheritanceTree x_inheritancePattern x_treeType x_parentEntityMetadata x_embeddeds x_ownColumns x_columns x_ownRelations x_relations x_ownIndices x_indices x_primaryColumns x_discriminatorColumn x_foreignKeys x_closureJunctionTable.
Definition set_inheritancePattern (v : option string) (x : t) : t :=
  let 'mk x_target x_tableType x_givenTableName x_name x_targetName x_tableName x_isJunction x_inheritanceTree x_inheritancePattern x_treeType x_parentEntityMetadata x_embeddeds x_ownColumns x_columns x_ownRelations x_relations x_ownIndices x_indices x_primaryColumns x_discriminatorColumn x_foreignKeys x_closureJunctionTable := x in
  mk x_target x_tableType x_givenTableName x_name x_targetName x_tableName x_isJunction x_inheritanceTree v x_treeType x_parentEntityMetadata x_embeddeds x_ownColumns x_columns x_ownRelations x_relations x_ownIndices x_indices x_primaryColumns x_discriminatorColumn x_foreignKeys x_closureJunctionTable.
Definition set_treeType (v : option TreeType) (x : t) : t :=
  let 'mk x_target x_tableType x_givenTableName x_name x_targetName x_tableName x_isJunction x_inheritanceTree x_inheritancePattern x_treeType x_parentEntityMetadata x_embeddeds x_ownColumns x_columns x_ownRelations x_relations x_ownIndices x_indices x_primaryColumns x_discriminatorColumn x_foreignKeys x_closureJunctionTable := x in
  mk x_target x_tableType x_givenTableName x_name x_targetName x_tableName x_isJunction x_inheritanceTree x_inheritancePattern v x_parentEntityMetadata x_embeddeds x_ownColumns x_columns x_ownRelations x_relations x_ownIndices x_indices x_primaryColumns x_discriminatorColumn x_foreignKeys x_closureJunctionTable.
Definition set_parentEntityMetadata (v : option eref) (x : t) : t :=
  let 'mk x_target x_tableType x_givenTableName x_name x_targetName x_tableName x_isJunction x_inheritanceTree x_inheritancePattern x_treeType x_parentEntityMetadata x_embeddeds x_ownColumns x_columns x_ownRelations x_relations x_ownIndices x_indices x_primaryColumns x_discriminatorColumn x_foreignKeys x_closureJunctionTable := x in
  mk x_target x_tableType x_givenTableName x_name x_targetName x_tableName x_isJunction x_inheritanceTree x_inheritancePattern x_treeType v x_embeddeds x_ownColumns x_columns x_ownRelations x_relations x_ownIndices x_indices x_primaryColumns x_discriminatorColumn x_foreignKeys x_closureJunctionTable.
Definition set_embeddeds (v : list Emb.t) (x : t) : t :=
  let 'mk x_target x_tableType x_givenTableName x_name x_targetName x_tableName x_isJunction x_inheritanceTree x_inheritancePattern x_treeType x_parentEntityMetadata x_embeddeds x_ownColumns x_columns x_ownRelations x_relations x_ownIndices x_indices x_primaryColumns x_discriminatorColumn x_foreignKeys x_closureJunctionTable := x in
  mk x_target x_tableType x_givenTableName x_name x_targetName x_tableName x_isJunction x_inheritanceTree x_inheritancePattern x_treeType x_parentEntityMetadata v x_ownColumns x_columns x_ownRelations x_relations x_ownIndices x_indices x_primaryColumns x_discriminatorColumn x_foreignKeys x_closureJunctionTable.
Definition set_ownColumns (v : list (option cref)) (x : t) : t :=
  let 'mk x_target x_tableType x_givenTableName x_name x_targetName x_tableName x_isJunction x_inheritanceTree x_inheritancePattern x_treeType x_parentEntityMetadata x_embeddeds x_ownColumns x_columns x_ownRelations x_relations x_ownIndices x_indices x_primaryColumns x_discriminatorColumn x_foreignKeys x_closureJunctionTable := x in
  mk x_target x_tableType x_givenTableName x_name x_targetName x_tableName x_isJunction x_inheritanceTree x_inheritancePattern x_treeType x_parentEntityMetadata x_embeddeds v x_columns x_ownRelations x_relations x_ownIndices x_indices x_primaryColumns x_discriminatorColumn x_foreignKeys x_closureJunctionTable.
Definition set_columns (v : list cref) (x : t) : t :=
  let 'mk x_target x_tableType x_givenTableName x_name x_targetName x_tableName x_isJunction x_inheritanceTree x_inheritancePattern x_treeType x_parentEntityMetadata x_embeddeds x_ownColumns x_columns x_ownRelations x_relations x_ownIndices x_indices x_primaryColumns x_discriminatorColumn x_foreignKeys x_closureJunctionTable := x in
  mk x_target x_tableType x_givenTableName x_name x_targetName x_tableName x_isJunction x_inheritanceTree x_inheritancePattern x_treeType x_parentEntityMetadata x_embeddeds x_ownColumns v x_ownRelations x_relations x_ownIndices x_indices x_primaryColumns x_discriminatorColumn x_foreignKeys x_closureJunctionTable.
Definition set_ownRelations (v : list (option rref)) (x : t) : t :=
  let 'mk x_target x_tableType x_givenTableName x_name x_targetName x_tableName x_isJunction x_inheritanceTree x_inheritancePattern x_treeType x_parentEntityMetadata x_embeddeds x_ownColumns x_columns x_ownRelations x_relations x_ownIndices x_indices x_primaryColumns x_discriminatorColumn x_foreignKeys x_closureJunctionTable := x in
  mk x_target x_tableType x_givenTableName x_name x_targetName x_tableName x_isJunction x_inheritanceTree x_inheritancePattern x_treeType x_parentEntityMetadata x_embeddeds x_ownColumns x_columns v x_relations x_ownIndices x_indices x_primaryColumns x_discriminatorColumn x_foreignKeys x_closureJunctionTable.
Definition set_relations (v : list rref) (x : t) : t :=
  let 'mk x_target x_tableType x_givenTableName x_name x_targetName x_tableName x_isJunction x_inheritanceTree x_inheritancePattern x_treeType x_parentEntityMetadata x_embeddeds x_ownColumns x_columns x_ownRelations x_relations x_ownIndices x_indices x_primaryColumns x_discriminatorColumn x_foreignKeys x_closureJunctionTable := x in
  mk x_target x_tableType x_givenTableName x_name x_targetName x_tableName x_isJunction x_inheritanceTree x_inheritancePattern x_treeType x_parentEntityMetadata x_embeddeds x_ownColumns x_columns x_ownRelations v x_ownIndices x_indices x_primaryColumns x_discriminatorColumn x_foreignKeys x_closureJunctionTable.
Definition set_ownIndices (v : aref) (x : t) : t :=
  let 'mk x_target x_tableType x_givenTableName x_name x_targetName x_tableName x_isJunction x_inheritanceTree x_inheritancePattern x_treeType x_parentEntityMetadata x_embeddeds x_ownColumns x_columns x_ownRelations x_relations x_ownIndices x_indices x_primaryColumns x_discriminatorColumn x_foreignKeys x_closureJunctionTable := x in
  mk x_target x_tableType x_givenTableName x_name x_targetName x_tableName x_isJunction x_inheritanceTree x_inheritancePattern x_treeType x_parentEntityMetadata x_embeddeds x_ownColumns x_columns x_ownRelations x_relations v x_indices x_primaryColumns x_discriminatorColumn x_foreignKeys x_closureJunctionTable.
Definition set_indices (v : aref) (x : t) : t :=
  let 'mk x_target x_tableType x_givenTableName x_name x_targetName x_tableName x_isJunction x_inheritanceTree x_inheritancePattern x_treeType x_parentEntityMetadata x_embeddeds x_ownColumns x_columns x_ownRelations x_relations x_ownIndices x_indices x_primaryColumns x_discriminatorColumn x_foreignKeys x_closureJunctionTable := x in
  mk x_target x_tableType x_givenTableName x_name x_targetName x_tableName x_isJunction x_inheritanceTree x_inheritancePattern x_treeType x_parentEntityMetadata x_embeddeds x_ownColumns x_columns x_ownRelations x_relations x_ownIndices v x_primaryColumns x_discriminatorColumn x_foreignKeys x_closureJunctionTable.
Definition set_primaryColumns (v : list cref) (x : t) : t :=
  let 'mk x_target x_tableType x_givenTableName x_name x_targetName x_tableName x_isJunction x_inheritanceTree x_inheritancePattern x_treeType x_parentEntityMetadata x_embeddeds x_ownColumns x_columns x_ownRelations x_relations x_ownIndices x_indices x_primaryColumns x_discriminatorColumn x_foreignKeys x_closureJunctionTable := x in
  mk x_target x_tableType x_givenTableName x_name x_targetName x_tableName x_isJunction x_inheritanceTree x_inheritancePattern x_treeType x_parentEntityMetadata x_embeddeds x_ownColumns x_columns x_ownRelations x_relations x_ownIndices x_indices v x_discriminatorColumn x_foreignKeys x_closureJunctionTable.
Definition set_discriminatorColumn (v : option cref) (x : t) : t :=
  let 'mk x_target x_tableType x_givenTableName x_name x_targetName x_tableName x_isJunction x_inheritanceTree x_inheritancePattern x_treeType x_parentEntityMetadata x_embeddeds x_ownColumns x_columns x_ownRelations x_relations x_ownIndices x_indices x_primaryColumns x_discriminatorColumn x_foreignKeys x_closureJunctionTable := x in
  mk x_target x_tableType x_givenTableName x_name x_targetName x_tableName x_isJunction x_inheritanceTree x_inheritancePattern x_treeType x_parentEntityMetadata x_embeddeds x_ownColumns x_columns x_ownRelations x_relations x_ownIndices x_indices x_primaryColumns v x_foreignKeys x_closureJunctionTable.
Definition set_foreignKeys (v : list Fk.t) (x : t) : t :=
  let 'mk x_target x_tableType x_givenTableName x_name x_targetName x_tableName x_isJunction x_inheritanceTree x_inheritancePattern x_treeType x_parentEntityMetadata x_embeddeds x_ownColumns x_columns x_ownRelations x_relations x_ownIndices x_indices x_primaryColumns x_discriminatorColumn x_foreignKeys x_closureJunctionTable := x in
  mk x_target x_tableType x_givenTableName x_name x_targetName x_tableName x_isJunction x_inheritanceTree x_inheritancePattern x_treeType x_parentEntityMetadata x_embeddeds x_ownColumns x_columns x_ownRelations x_relations x_ownIndices x_indices x_primaryColumns x_discriminatorColumn v x_closureJunctionTable.
Definition set_closureJunctionTable (v : option eref) (x : t) : t :=
  let 'mk x_target x_tableType x_givenTableName x_name x_targetName x_tableName x_isJunction x_inheritanceTree x_inheritancePattern x_treeType x_parentEntityMetadata x_embeddeds x_ownColumns x_columns x_ownRelations x_relations x_ownIndices x_indices x_primaryColumns x_discriminatorColumn x_foreignKeys x_closureJunctionTable := x in
  mk x_target x_tableType x_givenTableName x_name x_targetName x_tableName x_isJunction x_inheritanceTree x_inheritancePattern x_treeType x_parentEntityMetadata x_embeddeds x_ownColumns x_columns x_ownRelations x_relations x_ownIndices x_indices x_primaryColumns x_discriminatorColumn x_foreignKeys v.
End Ent.

(** ** The store *)

(** The objects created so far, each kind addressed by its position, and
    [entityMetadatas], the array [build] collects its result in. *)
Record Store : Type := {
  entities : list Ent.t;
  columns : list Col.t;
  relations : list Rel.t;
  arrays : list (list Idx.t);
  entityMetadatas : list eref
}.

Definition empty_store : Store :=
  {| entities := []; columns := []; relations := []; arrays := [];
     entityMetadatas := [] |}.

Definition set_entities (v : list Ent.t) (st : Store) : Store :=
  {| entities := v; columns := columns st; relations := relations st;
     arrays := arrays st; entityMetadatas := entityMetadatas st |}.
Definition set_columns (v : list Col.t) (st : Store) : Store :=
  {| entities := entities st; columns := v; relations := relations st;
     arrays := arrays st; entityMetadatas := entityMetadatas st |}.
Definition set_relations (v : list Rel.t) (st : Store) : Store :=
  {| entities := entities st; columns := columns st; relations := v;
     arrays := arrays st; entityMetadatas := entityMetadatas st |}.
Definition set_arrays (v : list (list Idx.t)) (st : Store) : Store :=
  {| entities := entities st; columns := columns st; relations := relations st;
     arrays := v; entityMetadatas := entityMetadatas st |}.
Definition set_entityMetadatas (v : list eref) (st : Store) : Store :=
  {| entities := entities st; columns := columns st; relations := relations st;
     arrays := arrays st; entityMetadatas := v |}.

(** Computations that read and write the store and may throw. *)
Definition M (A : Type) : Type := Store -> result (A * Store).

Definition ret {A : Type} (a : A) : M A := fun st => Ok (a, st).

Definition bindM {A B : Type} (m : M A) (k : A -> M B) : M B :=
  fun st =>
    match m st with
    | Ok (a, st') => k a st'
    | Throw e => Throw e
    end.

Definition throw {A : Type} (e : exn) : M A := fun _ => Throw e.

Notation "x <- m ;; k" := (bindM m (fun x => k))
  (at level 100, m at next level, right associativity).
Notation "m ;; k" := (bindM m (fun _ => k))
  (at level 100, right associativity).

Fixpoint forEach {A : Type} (l : list A) (f : A -> M unit) : M unit :=
  match l with
  | [] => ret tt
  | x :: l' => f x ;; forEach l' f
  end.

Fixpoint mapA {A B : Type} (f : A -> M B) (l : list A) : M (list B) :=
  match l with
  | [] => ret []
  | x :: l' => y <- f x ;; ys <- mapA f l' ;; ret (y :: ys)
  end.

Definition when (b : bool) (m : M unit) : M unit := if b then m else ret tt.

(** Dereferencing [undefined] is a [TypeError]. *)
Definition defined {A : Type} (what : string) (o : option A) : M A :=
  match o with
  | Some a => ret a
  | None => throw (TypeError what)
  end.

#[global] Instance Col_inhabited : Inhabited Col.t :=
  populate (Col.mk (Named "") "" "" false false false false false None).
#[global] Instance Rel_inhabited : Inhabited Rel.t :=
  populate (Rel.mk (Named "") "" "" (Named "") one_to_one None "" None "" None None).
#[global] Instance Ent_inhabited : Inhabited Ent.t :=
  populate (Ent.mk (Named "") regular None "" "" "" false [] None None None
                   [] [] [] [] [] 0 0 [] None [] None).

(** A reference is the position of its object in the store.  Every
    reference the builder holds comes from an allocation, so reading
    through one is total: a position outside the store, which the builder
    never holds, reads an empty object, and writing there does nothing. *)
Definition getEntity (e : eref) : M Ent.t :=
  fun st => Ok (entities st !!! e, st).
Definition updateEntity (e : eref) (f : Ent.t -> Ent.t) : M unit :=
  fun st => Ok (tt, set_entities (<[e := f (entities st !!! e)]> (entities st)) st).
Definition newEntity (x : Ent.t) : M eref :=
  fun st => Ok (length (entities st), set_entities (entities st ++ [x]) st).

Definition getColumn (c : cref) : M Col.t :=
  fun st => Ok (columns st !!! c, st).
Definition updateColumn (c : cref) (f : Col.t -> Col.t) : M unit :=
  fun st => Ok (tt, set_columns (<[c := f (columns st !!! c)]> (columns st)) st).
Definition newColumn (x : Col.t) : M cref :=
  fun st => Ok (length (columns st), set_columns (columns st ++ [x]) st).

Definition getRelation (r : rref) : M Rel.t :=
  fun st => Ok (relations st !!! r, st).
Definition updateRelation (r : rref) (f : Rel.t -> Rel.t) : M unit :=
  fun st => Ok (tt, set_relations (<[r := f (relations st !!! r)]> (relations st)) st).
Definition newRelation (x : Rel.t) : M rref :=
  fun st => Ok (length (relations st), set_relations (relations st ++ [x]) st).

Definition getArray (a : aref) : M (list Idx.t) :=
  fun st => Ok (arrays st !!! a, st).
Definition newArray (l : list Idx.t) : M aref :=
  fun st => Ok (length (arrays st), set_arrays (arrays st ++ [l]) st).
(** [a.push(x)] *)
Definition push (a : aref) (x : Idx.t) : M unit :=
  fun st => Ok (tt, set_arrays (<[a := arrays st !!! a ++ [x]]> (arrays st)) st).

Definition getEntityMetadatas : M (list eref) :=
  fun st => Ok (entityMetadatas st, st).
Definition setEntityMetadatas (l : list eref) : M unit :=
  fun st => Ok (tt, set_entityMetadatas l st).
(** [entityMetadatas.push(e)] *)
Definition pushEntityMetadata (e : eref) : M unit :=
  fun st => Ok (tt, set_entityMetadatas (entityMetadatas st ++ [e]) st).

(** [l.find(p)] and [l.filter(p)] over references, the predicate reading
    the object referred to. *)
Fixpoint findEntity (p : Ent.t -> bool) (l : list eref) : M (option eref) :=
  match l with
  | [] => ret None
  | e :: l' => x <- getEntity e ;; if p x then ret (Some e) else findEntity p l'
  end.

Fixpoint filterEntities (p : Ent.t -> bool) (l : list eref) : M (list eref) :=
  match l with
  | [] => ret []
  | e :: l' =>
      x <- getEntity e ;;
      rest <- filterEntities p l' ;;
      ret (if p x then e :: rest else rest)
  end.

Fixpoint findColumn (p : Col.t -> bool) (l : list (option cref)) : M (option cref) :=
  match l with
  | [] => ret None
  | o :: l' =>
      c <- defined "column" o ;;
      x <- getColumn c ;;
      if p x then ret (Some c) else findColumn p l'
  end.

Fixpoint filterColumns (p : Col.t -> bool) (l : list cref) : M (list cref) :=
  match l with
  | [] => ret []
  | c :: l' =>
      x <- getColumn c ;;
      rest <- filterColumns p l' ;;
      ret (if p x then c :: rest else rest)
  end.

Fixpoint findRelation (p : Rel.t -> bool) (l : list (option rref)) : M (option rref) :=
  match l with
  | [] => ret None
  | o :: l' =>
      r <- defined "relation" o ;;
      x <- getRelation r ;;
      if p x then ret (Some r) else findRelation p l'
  end.

Fixpoint filterRelations (p : Rel.t -> bool) (l : list rref) : M (list rref) :=
  match l with
  | [] => ret []
  | r :: l' =>
      x <- getRelation r ;;
      rest <- filterRelations p l' ;;
      ret (if p x then r :: rest else rest)
  end.

(** ** The collaborators of the builder *)

(** [MetadataArgsStorage]: the queries the builder asks. *)
Module MetadataArgsStorage.
Record t : Type := {
  tables : list TableArgs.t;
  filterTables : list Target -> list TableArgs.t;
  filterColumns : list Target -> list ColumnArgs.t;
  filterRelations : list Target -> list RelationArgs.t;
  filterIndices : list Target -> list IndexArgs.t;
  filterUniques : list Target -> list GivenColumnNames;
  filterEmbeddeds : list Target -> list EmbeddedArgs.t;
  findInheritanceType : Target -> option InheritanceArgs.t;
  findTree : Target -> option TreeType;
  filterSingleTableChildren : Target -> list TableArgs.t;
  findJoinTable : Target -> string -> option JoinTableArgs.t;
  filterForeignKeys : list Target -> list ForeignKeyArgs.t;
  findGenerated : Target -> string -> option string
}.
End MetadataArgsStorage.

Record NamingStrategy : Type := {
  tableName : string -> option string -> string;
  columnName : string -> option string -> string;
  joinTableName : string -> string -> string -> string;
  joinTableColumnName : string -> string -> string;
  closureJunctionTableName : string -> string;
  materializedPathColumnName : string;
  nestedSetColumnNames : string * string
}.

(** What [RelationJoinColumnBuilder.build] returns. *)
Record JoinColumns : Type := {
  foreignKey : option Fk.t;
  joinColumns : option (list cref);
  uniqueConstraint : option (list cref)
}.

(** The connection: the driver type, the naming strategy, and the helpers
    that are not part of the translated file, each taken as a function:
    the inheritance tree of a class ([MetadataUtils]), the name of a target,
    and the join-column builder, a function of the store (what it does to
    the store itself is outside the model). *)
Record Connection : Type := {
  driverType : string;
  isMySQLFamily : bool;
  namingStrategy : NamingStrategy;
  getInheritanceTree : Target -> list Target;
  nameOf : Target -> string;
  relationJoinColumnBuilder : Store -> rref -> result JoinColumns
}.

(** ** The builder *)

Section Builder.

(** The two constructor arguments of [EntityMetadataBuilder]. *)
Variable connection : Connection.
Variable metadataArgsStorage : MetadataArgsStorage.t.

Definition STI : string := "STI".

Definition is_STI (pattern : option string) : bool :=
  match pattern with
  | Some p => String.eqb p STI
  | None => false
  end.

Definition is_child (x : Ent.t) : bool := bool_decide (Ent.tableType x = entity_child).

(** [new ColumnMetadata({ args })] *)
Definition ColumnMetadata_new (args : ColumnArgs.t) : Col.t :=
  {| Col.target := ColumnArgs.target args;
     Col.propertyName := ColumnArgs.propertyName args;
     Col.databaseName :=
       columnName (namingStrategy connection)
                  (ColumnArgs.propertyName args) (ColumnArgs.name args);
     Col.isPrimary := ColumnArgs.primary args;
     Col.isNullable := ColumnArgs.nullable args;
     Col.isVirtual := ColumnArgs.virtual args;
     Col.isDiscriminator := false;
     Col.isGenerated := false;
     Col.generationStrategy := None |}.

(** [new RelationMetadata({ args })] *)
Definition RelationMetadata_new (embedded : option nat) (args : RelationArgs.t) : Rel.t :=
  {| Rel.target := RelationArgs.target args;
     Rel.propertyName := RelationArgs.propertyName args;
     Rel.propertyPath := RelationArgs.propertyName args;
     Rel.type := RelationArgs.type args;
     Rel.relationType := RelationArgs.relationType args;
     Rel.embeddedMetadata := embedded;
     Rel.givenInverseSide := RelationArgs.inverseSide args;
     Rel.inverseEntityMetadata := None;
     Rel.inverseSidePropertyPath := "";
     Rel.inverseRelation := None;
     Rel.junctionEntityMetadata := None |}.

(** [new IndexMetadata({ args })] *)
Definition IndexMetadata_new (args : IndexArgs.t) : Idx.t :=
  {| Idx.givenColumnNames := IndexArgs.columns args;
     Idx.columns := [];
     Idx.isUnique := IndexArgs.unique args |}.

(** [createEntityMetadata] *)
Definition createEntityMetadata (tableArgs : TableArgs.t) : M eref :=
  let target := TableArgs.target tableArgs in
  let inheritanceTree :=
    if is_function target then getInheritanceTree connection target else [target] in
  let tableInheritance := MetadataArgsStorage.findInheritanceType metadataArgsStorage target in
  let tableTree := MetadataArgsStorage.findTree metadataArgsStorage target in
  let inheritanceTree :=
    if is_STI (InheritanceArgs.pattern <$> tableInheritance)
       || bool_decide (TableArgs.type tableArgs = entity_child)
    then inheritanceTree ++
         filter (fun t => is_function t = true)
                (map TableArgs.target
                     (MetadataArgsStorage.filterSingleTableChildren metadataArgsStorage target))
    else inheritanceTree in
  ownIndices <- newArray [] ;;
  indices <- newArray [] ;;
  newEntity
    {| Ent.target := target;
       Ent.tableType := TableArgs.type tableArgs;
       Ent.givenTableName := TableArgs.name tableArgs;
       Ent.name := ""; Ent.targetName := ""; Ent.tableName := "";
       Ent.isJunction := false;
       Ent.inheritanceTree := inheritanceTree;
       Ent.inheritancePattern := InheritanceArgs.pattern <$> tableInheritance;
       Ent.treeType := tableTree;
       Ent.parentEntityMetadata := None;
       Ent.embeddeds := [];
       Ent.ownColumns := []; Ent.columns := [];
       Ent.ownRelations := []; Ent.relations := [];
       Ent.ownIndices := ownIndices; Ent.indices := indices;
       Ent.primaryColumns := []; Ent.discriminatorColumn := None;
       Ent.foreignKeys := []; Ent.closureJunctionTable := None |}.

(** Modelled from the spec: [EntityMetadata.build], which is not part of
    the translated file.  Names come from the naming strategy, an explicit
    table name winning (section 4.1); a single-table child lives in the
    table of its parent (section 4.4); a junction entity is one synthesized
    for a many-to-many or closure table (glossary). *)
Definition EntityMetadata_build (e : eref) : M unit :=
  x <- getEntity e ;;
  parentTable <-
    match Ent.parentEntityMetadata x with
    | Some p => px <- getEntity p ;; ret (Some (Ent.tableName px))
    | None => ret None
    end ;;
  let targetName := nameOf connection (Ent.target x) in
  let table :=
    match is_child x, parentTable with
    | true, Some t => t
    | _, _ => tableName (namingStrategy connection) targetName (Ent.givenTableName x)
    end in
  updateEntity e (fun x =>
    Ent.set_isJunction
      (bool_decide (Ent.tableType x = junction)
       || bool_decide (Ent.tableType x = closure_junction))
      (Ent.set_tableName table
         (Ent.set_targetName targetName (Ent.set_name targetName x)))).

(** [computeParentEntityMetadata] *)
Definition computeParentEntityMetadata (allEntityMetadatas : list eref) (e : eref) : M unit :=
  x <- getEntity e ;;
  if is_child x then
    parent <- findEntity
                (fun all => bool_decide (Ent.target x ∈ Ent.inheritanceTree all)
                            && is_STI (Ent.inheritancePattern all))
                allEntityMetadatas ;;
    updateEntity e (Ent.set_parentEntityMetadata parent)
  else ret tt.

(** [createEmbeddedsRecursively], for embeddeds that embed nothing. *)
Definition createEmbedded (position : nat) (args : EmbeddedArgs.t) : M Emb.t :=
  columns <- mapA (fun a => newColumn (ColumnMetadata_new a)) (EmbeddedArgs.columns args) ;;
  relations <- mapA (fun a => newRelation (RelationMetadata_new (Some position) a))
                    (EmbeddedArgs.relations args) ;;
  ret {| Emb.columnsFromTree := columns;
         Emb.relationsFromTree := relations;
         Emb.indicesFromTree := map IndexMetadata_new (EmbeddedArgs.indices args) |}.

Fixpoint createEmbeddeds (position : nat) (l : list EmbeddedArgs.t) : M (list Emb.t) :=
  match l with
  | [] => ret []
  | args :: l' =>
      x <- createEmbedded position args ;;
      xs <- createEmbeddeds (S position) l' ;;
      ret (x :: xs)
  end.

(** [entityMetadata.parentEntityMetadata.ownColumns] and the like. *)
Definition parentOf (x : Ent.t) : M Ent.t :=
  p <- defined "parentEntityMetadata" (Ent.parentEntityMetadata x) ;;
  getEntity p.

Definition pushOwnColumn (e : eref) (c : cref) : M unit :=
  updateEntity e (fun x => Ent.set_ownColumns (Ent.ownColumns x ++ [Some c]) x).

(** [entityMetadata.ownColumns.push(new ColumnMetadata(...))] *)
Definition pushNewOwnColumn (e : eref) (column : Col.t) : M unit :=
  c <- newColumn column ;;
  pushOwnColumn e c.

Definition virtualColumn (target : Target) (propertyName name : string)
    (nullable : bool) : Col.t :=
  {| Col.target := target;
     Col.propertyName := propertyName;
     Col.databaseName := name;
     Col.isPrimary := false;
     Col.isNullable := nullable;
     Col.isVirtual := true;
     Col.isDiscriminator := false;
     Col.isGenerated := false;
     Col.generationStrategy := None |}.

(** [computeEntityMetadataStep1]: embeddeds, own columns, the discriminator
    column, the columns of trees, own relations and own indices.  (The
    discriminator value, relation ids and counts, listeners, checks,
    exclusions and unique constraints are not modelled.) *)
Definition computeEntityMetadataStep1_of (allEntityMetadatas : list eref) (e : eref)
    (x : Ent.t) : M unit :=
  let entityInheritance :=
    MetadataArgsStorage.findInheritanceType metadataArgsStorage (Ent.target x) in
  (* embeddeds; with single table inheritance their columns are nullable *)
  embeddeds <- createEmbeddeds 0
                 (MetadataArgsStorage.filterEmbeddeds metadataArgsStorage
                    (Ent.inheritanceTree x)) ;;
  when (is_STI (Ent.inheritancePattern x))
       (forEach (flat_map Emb.columnsFromTree embeddeds)
                (fun c => updateColumn c (Col.set_isNullable true))) ;;
  updateEntity e (Ent.set_embeddeds embeddeds) ;;
  (* own columns *)
  ownColumns <-
    mapA (fun args =>
            if is_child x then
              (* for single table children we reuse columns created for their parents *)
              parent <- parentOf x ;;
              findColumn (fun column => String.eqb (Col.propertyName column)
                                                   (ColumnArgs.propertyName args))
                         (Ent.ownColumns parent)
            else
              column <- newColumn (ColumnMetadata_new args) ;;
              columnInSingleTableInheritedChild <-
                findEntity (fun other => is_child other
                                         && bool_decide (Ent.target other = ColumnArgs.target args))
                           allEntityMetadatas ;;
              when (bool_decide (is_Some columnInSingleTableInheritedChild))
                   (updateColumn column (Col.set_isNullable true)) ;;
              ret (Some column))
         (MetadataArgsStorage.filterColumns metadataArgsStorage (Ent.inheritanceTree x)) ;;
  updateEntity e (Ent.set_ownColumns ownColumns) ;;
  (* for table inheritance we need to add a discriminator column *)
  match entityInheritance with
  | Some inheritance =>
      match InheritanceArgs.column inheritance with
      | Some options =>
          let discriminatorColumnName :=
            match options with
            | Some (String a s) => String a s
            | _ => "type"
            end in
          discriminatorColumn <-
            findColumn (fun column => String.eqb (Col.propertyName column)
                                                 discriminatorColumnName)
                       ownColumns ;;
          match discriminatorColumn with
          | None =>
              pushNewOwnColumn e
                (Col.set_isDiscriminator true
                   (virtualColumn (Ent.target x) discriminatorColumnName
                      (columnName (namingStrategy connection)
                                  discriminatorColumnName options)
                      false))
          | Some c => updateColumn c (Col.set_isDiscriminator true)
          end
      | None => ret tt
      end
  | None => ret tt
  end ;;
  (* add discriminator column to the child entity metadatas *)
  when (is_child x)
       (parent <- parentOf x ;;
        discriminatorColumn <- findColumn Col.isDiscriminator (Ent.ownColumns parent) ;;
        current <- getEntity e ;;
        match discriminatorColumn with
        | Some c => when (negb (bool_decide (Some c ∈ Ent.ownColumns current)))
                         (pushOwnColumn e c)
        | None => ret tt
        end ;;
        updateEntity e (fun x =>
          let x := Ent.set_inheritancePattern (Ent.inheritancePattern parent) x in
          match Ent.treeType x, Ent.treeType parent with
          | None, Some t => Ent.set_treeType (Some t) x
          | _, _ => x
          end)) ;;
  (* tree columns *)
  x1 <- getEntity e ;;
  match Ent.treeType x1 with
  | Some materialized_path =>
      pushNewOwnColumn e
        (virtualColumn (Ent.target x) "mpath"
           (materializedPathColumnName (namingStrategy connection)) true)
  | Some nested_set =>
      let (left, right) := nestedSetColumnNames (namingStrategy connection) in
      pushNewOwnColumn e (virtualColumn (Ent.target x) left left false) ;;
      pushNewOwnColumn e (virtualColumn (Ent.target x) right right false)
  | _ => ret tt
  end ;;
  (* own relations *)
  ownRelations <-
    mapA (fun args =>
            if is_child x then
              (* for single table children we reuse relations created for their parents *)
              parent <- parentOf x ;;
              found <- findRelation
                         (fun relation => String.eqb (Rel.propertyName relation)
                                                     (RelationArgs.propertyName args))
                         (Ent.ownRelations parent) ;;
              parentRelation <- defined "parentRelation" found ;;
              relation <- getRelation parentRelation ;;
              if bool_decide (Rel.type relation = RelationArgs.type args)
              then ret (Some parentRelation)
              else clone <- newRelation (Rel.set_type (RelationArgs.type args) relation) ;;
                   ret (Some clone)
            else
              r <- newRelation (RelationMetadata_new None args) ;;
              ret (Some r))
         (MetadataArgsStorage.filterRelations metadataArgsStorage (Ent.inheritanceTree x)) ;;
  updateEntity e (Ent.set_ownRelations ownRelations) ;;
  (* own indices *)
  let indexArgs := MetadataArgsStorage.filterIndices metadataArgsStorage (Ent.inheritanceTree x) in
  ownIndices <-
    newArray (map IndexMetadata_new
                (if String.eqb (driverType connection) "cockroachdb"
                 then filter (fun args => IndexArgs.unique args = false) indexArgs
                 else indexArgs)) ;;
  updateEntity e (Ent.set_ownIndices ownIndices) ;;
  (* these drivers store unique constraints as unique indices *)
  when (isMySQLFamily connection
        || String.eqb (driverType connection) "aurora-mysql"
        || String.eqb (driverType connection) "sap"
        || String.eqb (driverType connection) "spanner")
       (forEach (MetadataArgsStorage.filterUniques metadataArgsStorage (Ent.inheritanceTree x))
                (fun columns =>
                   push ownIndices {| Idx.givenColumnNames := columns;
                                      Idx.columns := [];
                                      Idx.isUnique := true |})).

Definition computeEntityMetadataStep1 (allEntityMetadatas : list eref) (e : eref) : M unit :=
  x <- getEntity e ;;
  computeEntityMetadataStep1_of allEntityMetadatas e x.

(** [computeEntityMetadataStep2]: the computed properties.  Building an
    own column or relation that is [undefined] is a [TypeError].  With no
    embeddeds, [reduce] returns its initial value: [indices] is then the
    very array [ownIndices]; otherwise [concat] makes a new array.  (The
    partitions of the relations, the listeners, the unique constraints and
    the special columns other than the discriminator are not modelled.) *)
Definition computeEntityMetadataStep2 (e : eref) : M unit :=
  x <- getEntity e ;;
  ownColumns <- mapA (defined "column.build") (Ent.ownColumns x) ;;
  ownRelations <- mapA (defined "relation.build") (Ent.ownRelations x) ;;
  let relations := ownRelations ++ flat_map Emb.relationsFromTree (Ent.embeddeds x) in
  let columns := ownColumns ++ flat_map Emb.columnsFromTree (Ent.embeddeds x) in
  indices <-
    match Ent.embeddeds x with
    | [] => ret (Ent.ownIndices x)
    | embeddeds =>
        own <- getArray (Ent.ownIndices x) ;;
        newArray (own ++ flat_map Emb.indicesFromTree embeddeds)
    end ;;
  primaryColumns <- filterColumns Col.isPrimary columns ;;
  discriminatorColumn <- findColumn Col.isDiscriminator (map Some columns) ;;
  updateEntity e (fun x =>
    Ent.set_discriminatorColumn discriminatorColumn
      (Ent.set_primaryColumns primaryColumns
         (Ent.set_indices indices
            (Ent.set_columns columns (Ent.set_relations relations x))))).

Definition not_found_message (entityName path : string) : string :=
  "Entity metadata for " +:+ entityName +:+ path +:+
  " was not found. Check if you specified a correct entity object and if it's connected in the connection options.".

(** Is [m] the entity metadata a relation of the given type points to? *)
Definition isTargetOf (type : Target) (m : Ent.t) : bool :=
  bool_decide (Ent.target m = type)
  || match type with
     | Named name =>
         String.eqb (Ent.targetName m) name
         || bool_decide (Ent.givenTableName m = Some name)
     | Class _ => false
     end.

(** The body of the loop of [computeInverseProperties]: one relation. *)
Definition computeInverseProperty (e : eref) (entityMetadatas : list eref) (r : rref)
  : M unit :=
  x <- getEntity e ;;
  relation <- getRelation r ;;
  (* compute inverse side (related) entity metadatas for all relation metadatas *)
  inverseEntityMetadata <- findEntity (isTargetOf (Rel.type relation)) entityMetadatas ;;
  match inverseEntityMetadata with
  | None =>
      throw (TypeORMError
               (not_found_message (Ent.name x) ("#" +:+ Rel.propertyPath relation)))
  | Some inverse =>
      updateRelation r (fun relation =>
        Rel.set_inverseSidePropertyPath (Rel.givenInverseSide relation)
          (Rel.set_inverseEntityMetadata (Some inverse) relation)) ;;
      (* and compute inverse relation and mark if it has such *)
      ix <- getEntity inverse ;;
      inverseRelation <-
        findRelation
          (fun foundRelation => String.eqb (Rel.propertyPath foundRelation)
                                           (Rel.givenInverseSide relation))
          (map Some (Ent.relations ix)) ;;
      updateRelation r (Rel.set_inverseRelation inverseRelation)
  end.

(** [computeInverseProperties] *)
Definition computeInverseProperties (e : eref) (entityMetadatas : list eref) : M unit :=
  x <- getEntity e ;;
  forEach (Ent.relations x) (computeInverseProperty e entityMetadatas).

(** [embedded.indices.push(index)] or [ownIndices.push(index)] for the
    index of a relation. *)
Definition pushRelationIndex (e : eref) (relation : Rel.t) (index : Idx.t) : M unit :=
  match Rel.embeddedMetadata relation with
  | Some i =>
      updateEntity e (fun x =>
        Ent.set_embeddeds
          (alter (fun emb => Emb.set_indicesFromTree (Emb.indicesFromTree emb ++ [index]) emb)
                 i (Ent.embeddeds x)) x)
  | None => x <- getEntity e ;; push (Ent.ownIndices x) index
  end.

(** [this.relationJoinColumnBuilder.build(joinColumns, relation)] *)
Definition buildJoinColumns (r : rref) : M JoinColumns :=
  fun st =>
    match relationJoinColumnBuilder connection st r with
    | Ok built => Ok (built, st)
    | Throw err => Throw err
    end.

(** The join columns of the one-to-one and many-to-one relations of an
    entity.  (Registering the foreign key and the join columns with the
    relation, and the unique constraints, are not modelled.) *)
Definition createJoinColumns (e : eref) : M unit :=
  x <- getEntity e ;;
  relations <- filterRelations
                 (fun relation => bool_decide (Rel.relationType relation = one_to_one)
                                  || bool_decide (Rel.relationType relation = many_to_one))
                 (Ent.relations x) ;;
  forEach relations (fun r =>
    relation <- getRelation r ;;
    built <- buildJoinColumns r ;;
    match foreignKey built with
    | Some fk => updateEntity e (fun x => Ent.set_foreignKeys (Ent.foreignKeys x ++ [fk]) x)
    | None => ret tt
    end ;;
    match uniqueConstraint built with
    | Some columns =>
        when (isMySQLFamily connection
              || String.eqb (driverType connection) "aurora-mysql"
              || String.eqb (driverType connection) "mssql"
              || String.eqb (driverType connection) "sap"
              || String.eqb (driverType connection) "spanner")
             (pushRelationIndex e relation
                {| Idx.givenColumnNames := NoColumnNames;
                   Idx.columns := columns;
                   Idx.isUnique := true |}) ;;
        computeEntityMetadataStep2 e
    | None => ret tt
    end ;;
    match foreignKey built with
    | Some fk =>
        when (String.eqb (driverType connection) "cockroachdb")
             (pushRelationIndex e relation
                {| Idx.givenColumnNames := NoColumnNames;
                   Idx.columns := Fk.columns fk;
                   Idx.isUnique := false |} ;;
              computeEntityMetadataStep2 e)
    | None => ret tt
    end).

(** A new entity metadata of the given table type, with its columns,
    indices and foreign keys, built. *)
Definition synthesize (type : TableType) (table : string) (columns : list cref)
    (indices : list Idx.t) (foreignKeys : list Fk.t) : M eref :=
  ownIndices <- newArray indices ;;
  all <- newArray [] ;;
  newEntity
    {| Ent.target := Named "";
       Ent.tableType := type;
       Ent.givenTableName := Some table;
       Ent.name := table; Ent.targetName := table; Ent.tableName := table;
       Ent.isJunction := true;
       Ent.inheritanceTree := [];
       Ent.inheritancePattern := None;
       Ent.treeType := None;
       Ent.parentEntityMetadata := None;
       Ent.embeddeds := [];
       Ent.ownColumns := map Some columns; Ent.columns := [];
       Ent.ownRelations := []; Ent.relations := [];
       Ent.ownIndices := ownIndices; Ent.indices := all;
       Ent.primaryColumns := []; Ent.discriminatorColumn := None;
       Ent.foreignKeys := foreignKeys; Ent.closureJunctionTable := None |}.

Definition referencingColumns (prefix : string) (referenced : list cref) : M (list cref) :=
  mapA (fun c =>
          column <- getColumn c ;;
          let name := joinTableColumnName (namingStrategy connection) prefix
                                          (Col.propertyName column) in
          newColumn {| Col.target := Named "";
                       Col.propertyName := name;
                       Col.databaseName := name;
                       Col.isPrimary := true;
                       Col.isNullable := false;
                       Col.isVirtual := false;
                       Col.isDiscriminator := false;
                       Col.isGenerated := false;
                       Col.generationStrategy := None |})
       referenced.

(** Modelled from the spec: [JunctionEntityMetadataBuilder.build], which is
    not part of the translated file (section 4.3).  Given an owning
    relation and its join-table declaration it synthesizes a new entity
    metadata with two foreign keys, one to the primary key of each side,
    the columns of both forming the primary key; the table is named by the
    declaration or, without a name there, by the naming strategy. *)
Definition JunctionEntityMetadataBuilder_build (e : eref) (r : rref)
    (joinTable : JoinTableArgs.t) : M eref :=
  owner <- getEntity e ;;
  relation <- getRelation r ;;
  i <- defined "inverseEntityMetadata" (Rel.inverseEntityMetadata relation) ;;
  inverse <- getEntity i ;;
  let table :=
    match JoinTableArgs.name joinTable with
    | Some name => name
    | None => joinTableName (namingStrategy connection) (Ent.tableName owner)
                            (Ent.tableName inverse) (Rel.propertyPath relation)
    end in
  ownerColumns <- referencingColumns (Ent.tableName owner) (Ent.primaryColumns owner) ;;
  inverseColumns <- referencingColumns (Ent.tableName inverse) (Ent.primaryColumns inverse) ;;
  synthesize junction table (ownerColumns ++ inverseColumns)
    [ {| Idx.givenColumnNames := NoColumnNames; Idx.columns := ownerColumns;
         Idx.isUnique := false |};
      {| Idx.givenColumnNames := NoColumnNames; Idx.columns := inverseColumns;
         Idx.isUnique := false |} ]
    [ {| Fk.referencedEntityMetadata := e; Fk.columns := ownerColumns;
         Fk.referencedColumns := Ent.primaryColumns owner; Fk.name := None |};
      {| Fk.referencedEntityMetadata := i; Fk.columns := inverseColumns;
         Fk.referencedColumns := Ent.primaryColumns inverse; Fk.name := None |} ].

(** Modelled from the spec: [ClosureJunctionEntityMetadataBuilder.build],
    which is not part of the translated file (section 4.3).  For a tree
    entity it synthesizes a junction entity metadata with ancestor and
    descendant columns, both sets referencing the primary key of the
    entity. *)
Definition ClosureJunctionEntityMetadataBuilder_build (e : eref) : M eref :=
  x <- getEntity e ;;
  ancestors <- referencingColumns "ancestor" (Ent.primaryColumns x) ;;
  descendants <- referencingColumns "descendant" (Ent.primaryColumns x) ;;
  synthesize closure_junction
    (closureJunctionTableName (namingStrategy connection) (Ent.tableName x))
    (ancestors ++ descendants) []
    [ {| Fk.referencedEntityMetadata := e; Fk.columns := ancestors;
         Fk.referencedColumns := Ent.primaryColumns x; Fk.name := None |};
      {| Fk.referencedEntityMetadata := e; Fk.columns := descendants;
         Fk.referencedColumns := Ent.primaryColumns x; Fk.name := None |} ].

(** Is there already a user-defined entity with the same table name? *)
Definition hasUserDefinedTable (junctionEntityMetadata : eref) : M bool :=
  j <- getEntity junctionEntityMetadata ;;
  entityMetadatas <- getEntityMetadatas ;;
  found <- findEntity
             (fun metadata => String.eqb (Ent.tableName metadata) (Ent.tableName j)
                              && negb (Ent.isJunction metadata))
             entityMetadatas ;;
  ret (bool_decide (is_Some found)).

(** The body of the loop of the junction pass: one many-to-many relation
    of an entity.  (Registering the foreign keys and the join columns with
    the relation is not modelled beyond reading the two own indices.) *)
Definition createJunction (e : eref) (r : rref) : M unit :=
  relation <- getRelation r ;;
  match MetadataArgsStorage.findJoinTable metadataArgsStorage
          (Rel.target relation) (Rel.propertyName relation) with
  | None => ret tt (* no join table set: this is the inverse side *)
  | Some joinTable =>
      junctionEntityMetadata <- JunctionEntityMetadataBuilder_build e r joinTable ;;
      j <- getEntity junctionEntityMetadata ;;
      ownIndices <- getArray (Ent.ownIndices j) ;;
      defined "ownIndices[0]" (ownIndices !! 0) ;;
      defined "ownIndices[1]" (ownIndices !! 1) ;;
      updateRelation r (Rel.set_junctionEntityMetadata (Some junctionEntityMetadata)) ;;
      (* compute new entity metadata properties and push it to entity metadatas pool *)
      computeEntityMetadataStep2 junctionEntityMetadata ;;
      entityMetadatas <- getEntityMetadatas ;;
      computeInverseProperties junctionEntityMetadata entityMetadatas ;;
      (* if there is a user-defined entity with the same table name,
         do not add the auto-generated junction entity *)
      user <- hasUserDefinedTable junctionEntityMetadata ;;
      when (negb user) (pushEntityMetadata junctionEntityMetadata)
  end.

(** The junction entity metadatas of the many-to-many relations of an
    entity. *)
Definition createJunctions (e : eref) : M unit :=
  x <- getEntity e ;;
  relations <- filterRelations
                 (fun relation => bool_decide (Rel.relationType relation = many_to_many))
                 (Ent.relations x) ;;
  forEach relations (createJunction e).

(** [createKeysForTableInheritance] *)
Definition createKeysForTableInheritance (e : eref) : M unit :=
  x <- getEntity e ;;
  indices <- getArray (Ent.indices x) ;;
  databaseName <-
    match Ent.discriminatorColumn x with
    | Some c => column <- getColumn c ;; ret (Some (Col.databaseName column))
    | None => ret None
    end ;;
  let isDiscriminatorColumnAlreadyIndexed :=
    existsb (fun index =>
               match Idx.givenColumnNames index with
               | ColumnNames [name] => bool_decide (Some name = databaseName)
               | _ => false
               end) indices in
  (* If the discriminator column is already indexed, there is no need to
     add another index on top of it. *)
  if isDiscriminatorColumnAlreadyIndexed then ret tt
  else push (Ent.indices x)
            {| Idx.givenColumnNames := NoColumnNames;
               Idx.columns := match Ent.discriminatorColumn x with
                              | Some c => [c]
                              | None => []
                              end;
               Idx.isUnique := false |}.

Definition missing_column_message (foreignKeyName : option string)
    (entityName columnName : string) : string :=
  "Foreign key constraint " +:+
  match foreignKeyName with
  | Some (String a s) => String dquote (String a s) +:+ String dquote " "
  | _ => ""
  end +:+
  "contains column that is missing in the entity (" +:+ entityName +:+ "): " +:+ columnName.

(** [columnNameToColumn], the local function of [createForeignKeys]. *)
Definition columnNameToColumn (foreignKeyArgs : ForeignKeyArgs.t)
    (columnName : string) (e : eref) : M cref :=
  x <- getEntity e ;;
  column <- findColumn
              (fun column => String.eqb (Col.propertyName column) columnName
                             || String.eqb (Col.databaseName column) columnName)
              (map Some (Ent.columns x)) ;;
  match column with
  | Some c => ret c
  | None =>
      throw (TypeORMError
               (missing_column_message (ForeignKeyArgs.name foreignKeyArgs)
                                       (Ent.targetName x) columnName))
  end.

Definition nonempty (o : option string) : option string :=
  match o with
  | Some (String a s) => Some (String a s)
  | _ => None
  end.

(** How a foreign-key declaration names the entity it references. *)
Definition references (foreignKeyType : ForeignKeyType) (m : Ent.t) : bool :=
  match foreignKeyType with
  | FkTarget (Named name) =>
      String.eqb (Ent.targetName m) name
      || bool_decide (Ent.givenTableName m = Some name)
  | FkEntitySchema name target =>
      bool_decide (Some (Ent.target m) = Named <$> name)
      || bool_decide (Some (Ent.target m) = target)
  | FkTarget type => bool_decide (Ent.target m = type)
  end.

(** The names of the columns of a declaration, and of the columns it
    references: the declared arrays, then the property the declaration
    sits on and the inverse side it names, if any. *)
Definition columnNamesOf (foreignKeyArgs : ForeignKeyArgs.t) : list string :=
  default [] (ForeignKeyArgs.columnNames foreignKeyArgs) ++
  match nonempty (ForeignKeyArgs.propertyName foreignKeyArgs) with
  | Some propertyName => [propertyName]
  | None => []
  end.

Definition referencedColumnNamesOf (foreignKeyArgs : ForeignKeyArgs.t) : list string :=
  default [] (ForeignKeyArgs.referencedColumnNames foreignKeyArgs) ++
  match nonempty (ForeignKeyArgs.propertyName foreignKeyArgs),
        nonempty (ForeignKeyArgs.inverseSide foreignKeyArgs) with
  | Some _, Some inverseSide => [inverseSide]
  | _, _ => []
  end.

(** The body of the loop of [createForeignKeys]: one declaration.  (The
    arrays of names of a declaration are read, not extended in place.) *)
Definition createForeignKey (e : eref) (entityMetadatas : list eref)
    (foreignKeyArgs : ForeignKeyArgs.t) : M unit :=
  x <- getEntity e ;;
  referencedEntityMetadata <-
    findEntity (references (ForeignKeyArgs.type foreignKeyArgs)) entityMetadatas ;;
  match referencedEntityMetadata with
  | None =>
      throw (TypeORMError
               (not_found_message (Ent.name x)
                  match nonempty (ForeignKeyArgs.propertyName foreignKeyArgs) with
                  | Some propertyName => "#" +:+ propertyName
                  | None => ""
                  end))
  | Some referenced =>
      let columnNames := columnNamesOf foreignKeyArgs in
      let referencedColumnNames := referencedColumnNamesOf foreignKeyArgs in
      rx <- getEntity referenced ;;
      let primary :=
        match referencedColumnNames with
        | [] => Ent.primaryColumns rx
        | _ => []
        end in
      columns <- mapA (fun columnName => columnNameToColumn foreignKeyArgs columnName e)
                      columnNames ;;
      referencedColumns <-
        mapA (fun columnName => columnNameToColumn foreignKeyArgs columnName referenced)
             referencedColumnNames ;;
      updateEntity e (fun x =>
        Ent.set_foreignKeys
          (Ent.foreignKeys x ++
           [ {| Fk.referencedEntityMetadata := referenced;
                Fk.columns := columns;
                Fk.referencedColumns := primary ++ referencedColumns;
                Fk.name := ForeignKeyArgs.name foreignKeyArgs |} ]) x)
  end.

(** [createForeignKeys] *)
Definition createForeignKeys (e : eref) (entityMetadatas : list eref) : M unit :=
  x <- getEntity e ;;
  forEach (MetadataArgsStorage.filterForeignKeys metadataArgsStorage (Ent.inheritanceTree x))
          (createForeignKey e entityMetadatas).

(** The last pass of [build]: the generated columns. *)
Definition markGenerated (e : eref) : M unit :=
  x <- getEntity e ;;
  forEach (Ent.columns x) (fun c =>
    column <- getColumn c ;;
    match MetadataArgsStorage.findGenerated metadataArgsStorage
            (Col.target column) (Col.propertyName column) with
    | Some strategy =>
        updateColumn c (fun column =>
          Col.set_generationStrategy (Some strategy) (Col.set_isGenerated true column)) ;;
        computeEntityMetadataStep2 e
    | None => ret tt
    end).

Definition not_child (x : Ent.t) : bool := negb (is_child x).

(** [build], pass by pass.  (The children lists, the final names of
    indices and constraints and the lazy loaders are not modelled.) *)

(** Filter the tables, create the entity metadatas, link the children of
    single table inheritance to their parents. *)
Definition instantiate (entityClasses : option (list Target)) : M (list eref) :=
  (* if entity classes to filter entities by are given then do filtering, otherwise use all *)
  let allTables :=
    match entityClasses with
    | Some classes => MetadataArgsStorage.filterTables metadataArgsStorage classes
    | None => MetadataArgsStorage.tables metadataArgsStorage
    end in
  let realTables :=
    filter (fun table => TableArgs.type table = regular
                         \/ TableArgs.type table = closure
                         \/ TableArgs.type table = entity_child
                         \/ TableArgs.type table = view) allTables in
  created <- mapA createEntityMetadata realTables ;;
  setEntityMetadatas created ;;
  (* compute parent entity metadatas for table inheritance *)
  forEach created (computeParentEntityMetadata created) ;;
  ret created.

(** Build the entity metadatas and their own members, the children of
    single table inheritance after the others. *)
Definition buildOwnMembers (created : list eref) : M unit :=
  nonChildren <- filterEntities not_child created ;;
  children <- filterEntities is_child created ;;
  forEach nonChildren EntityMetadata_build ;;
  forEach children EntityMetadata_build ;;
  forEach nonChildren (computeEntityMetadataStep1 created) ;;
  forEach children (computeEntityMetadataStep1 created).

(** Calculate the computed properties, then the inverse properties. *)
Definition computeProperties (created : list eref) : M unit :=
  forEach created computeEntityMetadataStep2.

Definition resolveInverseSides (created : list eref) : M unit :=
  forEach created (fun e => computeInverseProperties e created).

(** Create foreign keys and junction entity metadatas for the relations. *)
Definition materializeRelations (created : list eref) : M unit :=
  nonChildren <- filterEntities not_child created ;;
  forEach nonChildren (fun e => createJoinColumns e ;; createJunctions e).

(** The body of the loop of the closure pass: one closure table. *)
Definition createClosureJunction (e : eref) : M unit :=
  closureJunctionEntityMetadata <- ClosureJunctionEntityMetadataBuilder_build e ;;
  updateEntity e (Ent.set_closureJunctionTable (Some closureJunctionEntityMetadata)) ;;
  computeEntityMetadataStep2 closureJunctionEntityMetadata ;;
  all <- getEntityMetadatas ;;
  computeInverseProperties closureJunctionEntityMetadata all ;;
  pushEntityMetadata closureJunctionEntityMetadata.

(** Generate closure junction tables for all closure tables. *)
Definition expandClosures : M unit :=
  entityMetadatas <- getEntityMetadatas ;;
  closures <- filterEntities
                (fun metadata => bool_decide (Ent.treeType metadata = Some closure_table))
                entityMetadatas ;;
  forEach closures createClosureJunction.

(** Generate keys for tables with single-table inheritance. *)
Definition indexInheritance : M unit :=
  entityMetadatas <- getEntityMetadatas ;;
  inherited <- filterEntities
                 (fun metadata => is_STI (Ent.inheritancePattern metadata)
                                  && bool_decide (is_Some (Ent.discriminatorColumn metadata)))
                 entityMetadatas ;;
  forEach inherited createKeysForTableInheritance.

(** Generate foreign keys for tables. *)
Definition materializeForeignKeys : M unit :=
  entityMetadatas <- getEntityMetadatas ;;
  forEach entityMetadatas (fun e => createForeignKeys e entityMetadatas).

Definition generateColumns : M unit :=
  entityMetadatas <- getEntityMetadatas ;;
  forEach entityMetadatas markGenerated.

(** [build], in three stretches: up to the computed properties, from
    there up to the foreign keys, and to the end. *)
Definition untilProperties (entityClasses : option (list Target)) : M (list eref) :=
  created <- instantiate entityClasses ;;
  buildOwnMembers created ;;
  computeProperties created ;;
  ret created.

Definition untilForeignKeys (entityClasses : option (list Target)) : M unit :=
  created <- untilProperties entityClasses ;;
  resolveInverseSides created ;;
  materializeRelations created ;;
  expandClosures ;;
  indexInheritance.

Definition build (entityClasses : option (list Target)) : M (list eref) :=
  untilForeignKeys entityClasses ;;
  materializeForeignKeys ;;
  generateColumns ;;
  getEntityMetadatas.

End Builder.

End EntityMetadataBuilder.

(** * Sample schemas

    An in-memory storage of declarations and the schemas the statements
    below are tried on. *)

Module Samples.

Import EntityMetadataBuilder.

Record Declarations : Type := {
  classes : list (Target * list Target);
  d_tables : list TableArgs.t;
  d_columns : list ColumnArgs.t;
  d_relations : list RelationArgs.t;
  d_indices : list IndexArgs.t;
  d_embeddeds : list (Target * EmbeddedArgs.t);
  d_inheritances : list (Target * InheritanceArgs.t);
  d_joinTables : list (Target * string * JoinTableArgs.t);
  d_foreignKeys : list ForeignKeyArgs.t;
  d_generations : list (Target * string * string)
}.

(** The class and its ancestors, nearest first. *)
Definition inheritanceTreeOf (d : Declarations) (t : Target) : list Target :=
  match find (fun c => bool_decide (c.1 = t)) (classes d) with
  | Some c => t :: c.2
  | None => [t]
  end.

Definition among (targets : list Target) (t : Target) : bool := bool_decide (t ∈ targets).

Fixpoint firstByName {A : Type} (name : A -> string) (seen : list string) (l : list A) : list A :=
  match l with
  | [] => []
  | x :: l' =>
      if bool_decide (name x ∈ seen) then firstByName name seen l'
      else x :: firstByName name (name x :: seen) l'
  end.

Definition storage (d : Declarations) : MetadataArgsStorage.t :=
  {| MetadataArgsStorage.tables := d_tables d;
     MetadataArgsStorage.filterTables := fun targets =>
       filter (fun t => among targets (TableArgs.target t) = true) (d_tables d);
     MetadataArgsStorage.filterColumns := fun targets =>
       firstByName ColumnArgs.propertyName []
         (filter (fun a => among targets (ColumnArgs.target a) = true) (d_columns d));
     MetadataArgsStorage.filterRelations := fun targets =>
       firstByName RelationArgs.propertyName []
         (filter (fun a => among targets (RelationArgs.target a) = true) (d_relations d));
     MetadataArgsStorage.filterIndices := fun targets =>
       filter (fun a => among targets (IndexArgs.target a) = true) (d_indices d);
     MetadataArgsStorage.filterUniques := fun _ => [];
     MetadataArgsStorage.filterEmbeddeds := fun targets =>
       map snd (filter (fun a => among targets a.1 = true) (d_embeddeds d));
     MetadataArgsStorage.findInheritanceType := fun t =>
       snd <$> find (fun a => bool_decide (a.1 = t)) (d_inheritances d);
     MetadataArgsStorage.findTree := fun _ => None;
     MetadataArgsStorage.filterSingleTableChildren := fun t =>
       filter (fun a => TableArgs.type a = entity_child
                        /\ t ∈ tail (inheritanceTreeOf d (TableArgs.target a)))
              (d_tables d);
     MetadataArgsStorage.findJoinTable := fun t propertyName =>
       snd <$> find (fun a => bool_decide (a.1 = (t, propertyName))) (d_joinTables d);
     MetadataArgsStorage.filterForeignKeys := fun targets =>
       filter (fun a => among targets (ForeignKeyArgs.target a) = true) (d_foreignKeys d);
     MetadataArgsStorage.findGenerated := fun t propertyName =>
       snd <$> find (fun a => bool_decide (a.1 = (t, propertyName))) (d_generations d) |}.

Definition names (d : Declarations) (t : Target) : string :=
  match t with
  | Class n => "Class" +:+ string_of_Z (Z.of_nat n)
  | Named s => s
  end.

Definition postgres (d : Declarations) : Connection :=
  {| driverType := "postgres";
     isMySQLFamily := false;
     namingStrategy :=
       {| tableName := fun targetName given => default targetName given;
          columnName := fun propertyName given => default propertyName given;
          joinTableName := fun first second path => first +:+ "_" +:+ path +:+ "_" +:+ second;
          joinTableColumnName := fun table property => table +:+ "_" +:+ property;
          closureJunctionTableName := fun table => table +:+ "_closure";
          materializedPathColumnName := "mpath";
          nestedSetColumnNames := ("nsleft", "nsright") |};
     getInheritanceTree := inheritanceTreeOf d;
     nameOf := names d;
     relationJoinColumnBuilder := fun _ _ =>
       Ok {| foreignKey := None; joinColumns := None; uniqueConstraint := None |} |}.

Definition run (d : Declarations) : result (list eref * Store) :=
  build (postgres d) (storage d) None empty_store.

Definition column (t : Target) (propertyName : string) (primary : bool) : ColumnArgs.t :=
  {| ColumnArgs.target := t; ColumnArgs.propertyName := propertyName;
     ColumnArgs.name := None; ColumnArgs.nullable := false;
     ColumnArgs.primary := primary; ColumnArgs.virtual := false |}.

Definition table (t : Target) (type : TableType) : TableArgs.t :=
  {| TableArgs.target := t; TableArgs.name := None; TableArgs.type := type |}.

Definition Content : Target := Class 1.
Definition Photo : Target := Class 2.

(** Single table inheritance: [Photo] is a child of [Content], which
    declares a discriminator column, a generated primary column and,
    when [embedded] is set, one embedded. *)
Definition inheritance (embedded : bool) : Declarations :=
  {| classes := [(Photo, [Content])];
     d_tables := [table Content regular; table Photo entity_child];
     d_columns := [column Content "id" true; column Content "title" false;
                   column Photo "size" false];
     d_relations := [];
     d_indices := [];
     d_embeddeds :=
       if embedded
       then [(Content, {| EmbeddedArgs.columns := [column (Class 9) "likes" false];
                          EmbeddedArgs.relations := [];
                          EmbeddedArgs.indices := [] |})]
       else [];
     d_inheritances := [(Content, {| InheritanceArgs.pattern := "STI";
                                     InheritanceArgs.column := Some (Some "type") |})];
     d_joinTables := [];
     d_foreignKeys := [];
     d_generations := [(Content, "id", "increment")] |}.

Definition relation (t : Target) (propertyName : string) (type : Target)
    (relationType : RelationType) : RelationArgs.t :=
  {| RelationArgs.target := t; RelationArgs.propertyName := propertyName;
     RelationArgs.type := type; RelationArgs.relationType := relationType;
     RelationArgs.inverseSide := "" |}.




End Samples.

(* ===================================================================== *)
(** * Properties of the matcher *)

#[local] Arguments String.append !_ _ / : simpl nomatch.
#[local] Arguments Ascii.eqb : simpl never.

Section MatcherFacts.

Lemma length_append (s t : string) :
  String.length (s +:+ t) = String.length s + String.length t.
Proof. induction s as [|a s IH]; simpl; [reflexivity | now rewrite IH]. Qed.

Lemma append_assoc (s t u : string) : (s +:+ t) +:+ u = s +:+ (t +:+ u).
Proof. induction s as [|a s IH]; simpl; [reflexivity | f_equal; exact IH]. Qed.

Lemma append_empty_r (s : string) : s +:+ "" = s.
Proof. induction s as [|a s IH]; simpl; [reflexivity | now rewrite IH]. Qed.

Lemma take_string_append (s t : string) :
  take_string (String.length s) (s +:+ t) = s.
Proof. induction s as [|a s IH]; simpl; [now destruct t | now rewrite IH]. Qed.

Lemma matched_append (s t : string) : matched (s +:+ t) t = s.
Proof.
  unfold matched. rewrite length_append.
  replace (String.length s + String.length t - String.length t)
    with (String.length s) by lia.
  apply take_string_append.
Qed.

(** A matcher that looks at its continuation only at positions that are
    not before the current one. *)
Definition local {R : Type} (m : Matcher R) : Prop :=
  forall s c k1 k2,
    (forall s' c', String.length s' <= String.length s -> k1 s' c' = k2 s' c') ->
    m s c k1 = m s c k2.

Lemma star_loop_ext {R : Type} (m : Matcher R) (Hm : local m) fuel :
  local (fun s c k => star_loop m k fuel s c).
Proof.
  induction fuel as [|fuel IH]; intros s c k1 k2 Hk; simpl.
  - apply Hk; lia.
  - rewrite (Hm s c _ (fun s1 c1 =>
        if String.length s1 <? String.length s
        then star_loop m k2 fuel s1 c1 else None)).
    + rewrite (Hk s c); [reflexivity | lia].
    + intros s1 c1 Hle. destruct (String.length s1 <? String.length s); [|reflexivity].
      apply IH. intros s' c' Hle'. apply Hk. lia.
Qed.

Lemma rmatch_local (R : Type) (r : regex) : local (rmatch R r).
Proof.
  induction r as [p| |r1 IH1 r2 IH2|r1 IH1 r2 IH2|r1 IH1|i r1 IH1|r1 _|];
    intros s c k1 k2 Hk; simpl.
  - destruct s as [|a s']; [reflexivity|].
    destruct (p a); [|reflexivity]. apply Hk. simpl. lia.
  - apply Hk. lia.
  - apply IH1. intros s1 c1 H1. apply IH2. intros s2 c2 H2. apply Hk. lia.
  - rewrite (IH1 s c k1 k2 Hk), (IH2 s c k1 k2 Hk). reflexivity.
  - apply (star_loop_ext _ IH1 (S (String.length s)) s c k1 k2 Hk).
  - apply IH1. intros s1 c1 H1. apply Hk. exact H1.
  - destruct (rmatch caps r1 s c _); [|reflexivity]. apply Hk. lia.
  - destruct s; [|reflexivity]. apply Hk. simpl. lia.
Qed.

Lemma star_loop_fuel {R : Type} (m : Matcher R) (Hm : local m)
    (k : string -> caps -> option R) (n1 : nat) :
  forall n2 s c,
    String.length s < n1 -> String.length s < n2 ->
    star_loop m k n1 s c = star_loop m k n2 s c.
Proof.
  induction n1 as [|n1 IH]; intros n2 s c H1 H2; [lia|].
  destruct n2 as [|n2]; [lia|]. simpl.
  rewrite (Hm s c _ (fun s1 c1 =>
      if String.length s1 <? String.length s
      then star_loop m k n2 s1 c1 else None)); [reflexivity|].
  intros s1 c1 _.
  destruct (String.length s1 <? String.length s) eqn:E; [|reflexivity].
  apply Nat.ltb_lt in E. apply IH; lia.
Qed.

(** The unfolding equations of the matcher. *)
Lemma rmatch_star (R : Type) (r : regex) (s : string) (c : caps)
    (k : string -> caps -> option R) :
  rmatch R (RStar r) s c k =
  match rmatch R r s c
          (fun s1 c1 => if String.length s1 <? String.length s
                        then rmatch R (RStar r) s1 c1 k else None) with
  | Some x => Some x
  | None => k s c
  end.
Proof.
  simpl.
  rewrite (rmatch_local R r s c _ (fun s1 c1 =>
      if String.length s1 <? String.length s
      then star_loop (rmatch R r) k (S (String.length s1)) s1 c1 else None));
    [reflexivity|].
  intros s1 c1 _.
  destruct (String.length s1 <? String.length s) eqn:E; [|reflexivity].
  apply Nat.ltb_lt in E. apply star_loop_fuel; [apply rmatch_local | lia | lia].
Qed.

Lemma rmatch_char (R : Type) p a s c (k : string -> caps -> option R) :
  rmatch R (RChar p) (String a s) c k = if p a then k s c else None.
Proof. reflexivity. Qed.

Lemma rmatch_seq (R : Type) r1 r2 s c (k : string -> caps -> option R) :
  rmatch R (RSeq r1 r2) s c k = rmatch R r1 s c (fun s1 c1 => rmatch R r2 s1 c1 k).
Proof. reflexivity. Qed.

Lemma rmatch_group (R : Type) i r s c (k : string -> caps -> option R) :
  rmatch R (RGroup i r) s c k =
  rmatch R r s c (fun s1 c1 => k s1 (<[i := Some (matched s s1)]> c1)).
Proof. reflexivity. Qed.

Lemma rmatch_alt (R : Type) r1 r2 s c (k : string -> caps -> option R) :
  rmatch R (RAlt r1 r2) s c k =
  match rmatch R r1 s c k with Some x => Some x | None => rmatch R r2 s c k end.
Proof. reflexivity. Qed.

(** A literal matches exactly when the subject continues with it. *)
Lemma rmatch_lit (R : Type) (l s : string) c (k : string -> caps -> option R) :
  rmatch R (RLit l) (l +:+ s) c k = k s c.
Proof.
  induction l as [|a l IH]; simpl; [reflexivity|].
  rewrite Ascii.eqb_refl. exact IH.
Qed.

End MatcherFacts.

(** * Properties of the hstore codec *)

Section HstoreFacts.

Import PostgresDriver.

Lemma scan_escape (s : string) :
  forall fuel, String.length s < fuel ->
    concat_pieces (fun _ => String backslash "")
      (scan fuel (RLook (RChar is_special)) 0 s) = escaped s.
Proof.
  induction s as [|a s IH]; intros [|fuel] H; simpl in *; try lia; [reflexivity|].
  destruct (is_special a); simpl.
  - rewrite Nat.ltb_irrefl. simpl. rewrite IH by lia. reflexivity.
  - rewrite IH by lia. reflexivity.
Qed.

Lemma quoteString_quoted (v : JsValue) :
  quoteString v = if isAbsent v then "NULL" else quoted (toString v).
Proof.
  unfold quoteString, quoted, replace_g, matchAll.
  destruct (isAbsent v); [reflexivity|].
  rewrite scan_escape by lia. reflexivity.
Qed.

Lemma special_dot (a : ascii) : is_special a = true -> dot a = true.
Proof.
  unfold is_special. intros H. apply orb_true_iff in H.
  destruct H as [H|H]; apply Ascii.eqb_eq in H; subst a; reflexivity.
Qed.

Lemma special_backslash (a : ascii) :
  is_special a = false -> Ascii.eqb backslash a = false.
Proof.
  unfold is_special. intros H. apply orb_false_iff in H. destruct H as [_ H].
  rewrite Ascii.eqb_sym. exact H.
Qed.

Lemma scan_unescape (s : string) :
  forall fuel, String.length (escaped s) < fuel ->
    concat_pieces
      (fun c => match group 0 c with
                | Some (String _ (String a _)) => String a ""
                | _ => "undefined"
                end)
      (scan fuel (RSeq (RChar (Ascii.eqb backslash)) (RChar dot)) 0 (escaped s)) = s.
Proof.
  induction s as [|a s IH]; intros [|fuel] H; simpl in *; try lia; [reflexivity|].
  destruct (is_special a) eqn:E; simpl in *.
  - rewrite (special_dot a E). simpl.
    unfold matched. simpl.
    replace (S (S (String.length (escaped s))) - String.length (escaped s)) with 2 by lia.
    simpl.
    replace (String.length (escaped s) <? S (S (String.length (escaped s)))) with true
      by (symmetry; apply Nat.ltb_lt; lia).
    rewrite IH by lia. reflexivity.
  - rewrite (special_backslash a E). simpl. rewrite IH by lia. reflexivity.
Qed.

Lemma unescape_escaped (s : string) : unescapeString (escaped s) = s.
Proof. unfold unescapeString, replace_g, matchAll. apply scan_unescape. lia. Qed.

#[local] Arguments rmatch : simpl never.

(** The body pattern runs over an escaped text up to the closing quote:
    the greedy choices never have to be undone. *)
Lemma body_run (R : Type) (K : string -> caps -> option R) (x : R) (t' : string) :
  forall (v : string) (c : caps) (K' : string -> caps -> option R),
    K (String dquote t') c = Some x ->
    (forall s1 c1,
        String.length s1 <= String.length (escaped v +:+ String dquote t') ->
        K' s1 c1 =
        rmatch R (RStar (RSeq (RSeq (RChar (Ascii.eqb backslash)) (RChar dot))
                              (RStar (RChar not_special)))) s1 c1 K) ->
    rmatch R (RStar (RChar not_special)) (escaped v +:+ String dquote t') c K' = Some x.
Proof.
  induction v as [|a v IH]; intros c K' HK HK'.
  - simpl in *. rewrite rmatch_star, rmatch_char.
    change (not_special dquote) with false. cbv iota.
    rewrite HK' by (simpl; lia). rewrite rmatch_star, !rmatch_seq, rmatch_char.
    change (Ascii.eqb backslash dquote) with false. cbv iota. exact HK.
  - simpl escaped in *. destruct (is_special a) eqn:E.
    + simpl String.append in *. rewrite rmatch_star, rmatch_char.
      change (not_special backslash) with false. cbv iota.
      rewrite HK' by (simpl; lia). rewrite rmatch_star, !rmatch_seq, !rmatch_char.
      rewrite Ascii.eqb_refl, (special_dot a E).
      rewrite IH; [reflexivity | exact HK |].
      intros s1 c1 Hle. simpl String.length.
      replace (String.length s1 <? _) with true; [reflexivity|].
      symmetry. apply Nat.ltb_lt. lia.
    + simpl String.append in *. rewrite rmatch_star, rmatch_char.
      unfold not_special at 1. rewrite E. cbv [negb].
      simpl String.length.
      replace (String.length _ <? _) with true
        by (symmetry; apply Nat.ltb_lt; lia).
      rewrite IH; [reflexivity | exact HK |].
      intros s1 c1 Hle. apply HK'. simpl. lia.
Qed.

Lemma hstore_body_run (R : Type) (K : string -> caps -> option R) (x : R)
    (v t' : string) (c : caps) :
  K (String dquote t') c = Some x ->
  rmatch R hstore_body (escaped v +:+ String dquote t') c K = Some x.
Proof.
  intros HK. unfold hstore_body. rewrite rmatch_seq.
  apply body_run with (K := K); [exact HK | reflexivity].
Qed.

(** The text of one pair as the encoder writes it. *)
Definition pair_text (kv : string * JsValue) : string :=
  quoted kv.1 +:+ "=>" +:+ (if isAbsent kv.2 then "NULL" else quoted (toString kv.2)).

(** What the decoder reads back from that text. *)
Definition pair_read (kv : string * JsValue) : string * JsValue :=
  (kv.1, if isAbsent kv.2 then VNull else VStr (toString kv.2)).

Definition pair_caps (kv : string * JsValue) (c : caps) : caps :=
  if isAbsent kv.2
  then <[2 := Some "NULL"]> (<[1 := Some (escaped kv.1)]> c)
  else <[3 := Some (escaped (toString kv.2))]> (<[1 := Some (escaped kv.1)]> c).

Lemma hstore_regexp_pair (kv : string * JsValue) (sep rest : string) (c : caps) :
  (sep = "" /\ rest = "") \/ sep = String "," rest ->
  rmatch (caps * string) hstore_regexp (pair_text kv +:+ sep) c
         (fun s' c' => Some (c', s')) = Some (pair_caps kv c, rest).
Proof.
  intros Hsep. destruct kv as [k v]. unfold pair_text, pair_caps, quoted. simpl fst; simpl snd.
  unfold hstore_regexp.
  simpl String.append. rewrite !append_assoc. simpl String.append.
  rewrite rmatch_seq, rmatch_char, Ascii.eqb_refl.
  rewrite rmatch_seq, rmatch_group.
  apply hstore_body_run.
  rewrite matched_append.
  rewrite rmatch_seq, rmatch_char, Ascii.eqb_refl.
  rewrite rmatch_seq.
  change (String "=" (String ">" ?s)) with ("=>" +:+ s).
  rewrite rmatch_lit. rewrite rmatch_seq, rmatch_alt.
  assert (Hend : forall c1,
             rmatch (caps * string) (RAlt (RChar (Ascii.eqb ",")) REnd) sep c1
                    (fun s' c' => Some (c', s')) = Some (c1, rest)).
  { intros c1. destruct Hsep as [[-> ->]| ->]; [reflexivity|].
    rewrite rmatch_alt, rmatch_char, Ascii.eqb_refl. reflexivity. }
  destruct (isAbsent v).
  - rewrite rmatch_group. rewrite rmatch_lit. rewrite matched_append.
    rewrite Hend. reflexivity.
  - rewrite rmatch_group. simpl String.append.
    rewrite !append_assoc. simpl String.append.
    replace (rmatch (caps * string) (RLit "NULL") _ _ _) with (@None (caps * string))
      by reflexivity.
    rewrite rmatch_seq, rmatch_char, Ascii.eqb_refl, rmatch_seq, rmatch_group.
    apply hstore_body_run.
    rewrite matched_append, rmatch_char, Ascii.eqb_refl.
    apply Hend.
Qed.

Lemma join_cons (x : string) (l : list string) :
  exists sep,
    join "," (x :: l) = x +:+ sep /\
    ((sep = "" /\ join "," l = "") \/ sep = String "," (join "," l)).
Proof.
  destruct l as [|y l].
  - exists "". simpl. rewrite append_empty_r. auto.
  - exists (String "," (join "," (y :: l))). split; [reflexivity | auto].
Qed.

Lemma scan_S (fuel : nat) (r : regex) (groups : nat) (s : string) :
  scan (S fuel) r groups s =
  match rmatch (caps * string) r s (replicate (S groups) None)
               (fun s' c => Some (c, s')) with
  | Some (c, s') =>
      Match (<[0 := Some (matched s s')]> c) ::
      (if String.length s' <? String.length s
       then scan fuel r groups s'
       else match s with
            | EmptyString => []
            | String a s1 => Skip a :: scan fuel r groups s1
            end)
  | None =>
      match s with
      | EmptyString => []
      | String a s1 => Skip a :: scan fuel r groups s1
      end
  end.
Proof. reflexivity. Qed.

Lemma hstore_entry_pair (kv : string * JsValue) (g0 : option string) :
  hstore_entry (<[0 := g0]> (pair_caps kv (replicate 4 None))) = Ok (pair_read kv).
Proof.
  destruct kv as [k v]. unfold pair_caps, pair_read, hstore_entry. simpl.
  destruct (isAbsent v); simpl; rewrite ?unescape_escaped; reflexivity.
Qed.

(** Decoding the text of a list of pairs reads the pairs back, in order. *)
Lemma scan_hstore (entries : list (string * JsValue)) :
  forall fuel,
    String.length (join "," (map pair_text entries)) < fuel ->
    mapM hstore_entry
         (matches (scan fuel hstore_regexp 3 (join "," (map pair_text entries))))
    = Ok (map pair_read entries).
Proof.
  induction entries as [|kv more IH]; intros [|fuel] H; try lia; [reflexivity|].
  rewrite map_cons in *.
  destruct (join_cons (pair_text kv) (map pair_text more)) as (sep & Hj & Hsep).
  rewrite Hj in *. rewrite scan_S.
  rewrite (hstore_regexp_pair kv sep (join "," (map pair_text more))).
  2:{ exact Hsep. }
  assert (Hlen : String.length (join "," (map pair_text more))
                 < String.length (pair_text kv +:+ sep)).
  { rewrite length_append.
    assert (0 < String.length (pair_text kv))
      by (unfold pair_text, quoted; simpl; lia).
    destruct Hsep as [[Hs Hr]|Hs]; rewrite Hs, ?Hr; simpl; lia. }
  replace (String.length _ <? String.length _) with true
    by (symmetry; apply Nat.ltb_lt; exact Hlen).
  simpl matches. simpl mapM. rewrite hstore_entry_pair. simpl.
  rewrite IH by lia. reflexivity.
Qed.

Lemma hstoreToString_text (v : JsValue) :
  hstoreToString v = join "," (map pair_text (Object_entries v)).
Proof.
  unfold hstoreToString. f_equal. apply map_ext. intros [k x].
  unfold pair_text. rewrite !quoteString_quoted. reflexivity.
Qed.

Lemma stringToHstore_text (entries : list (string * JsValue)) :
  stringToHstore (VStr (join "," (map pair_text entries))) =
  Ok (VObj (foldl setProperty [] (map pair_read entries))).
Proof.
  unfold stringToHstore, matchAll. simpl toString.
  rewrite scan_hstore by lia. reflexivity.
Qed.

End HstoreFacts.

(** * The stated properties of the value codec *)

Section CodecClaims.

Import PostgresDriver.

Ltac by_type Hty :=
  unfold persist_by_type, hydrate_by_type, is_datetime, is_enum, is_ctor, is_type;
  rewrite Hty; simpl.

(** C1. A map written to an hstore column becomes the comma-joined pairs
    key=>value in which the key and every present value are [quoted]
    (between double quotes, with a backslash before every embedded double
    quote and backslash) and an absent ([null] or [undefined]) value is the
    bare word NULL; read back on a column whose [hstoreType] is object, the
    bare NULL is [null] and every quoted text is that text again, so the
    quoted text NULL is the string NULL. *)
Theorem hstore_quoting_and_null (ext : Externals) (col : ColumnMetadata)
    (props : list (string * JsValue)) :
  type col = TName "hstore" ->
  transformer col = None ->
  hstoreType col = Some "object" ->
  let entries := ownProperties props in
  let text :=
    join "," (map (fun kv => quoted kv.1 +:+ "=>" +:+
                             (if isAbsent kv.2 then "NULL" else quoted (toString kv.2)))
                  entries) in
  preparePersistentValue ext (VObj props) col = Ok (VStr text) /\
  prepareHydratedValue ext (VStr text) col =
    Ok (VObj (foldl setProperty []
                (map (fun kv => (kv.1, if isAbsent kv.2 then VNull
                                       else VStr (toString kv.2))) entries))) /\
  (forall k : string,
      prepareHydratedValue ext (VStr (quoted k +:+ "=>NULL")) col =
        Ok (VObj (setProperty [] (k, VNull))) /\
      prepareHydratedValue ext (VStr (quoted k +:+ "=>" +:+ quoted "NULL")) col =
        Ok (VObj (setProperty [] (k, VStr "NULL")))).
Proof.
  intros Hty Htr Hhs entries text.
  assert (Hdec : forall es,
             prepareHydratedValue ext (VStr (join "," (map pair_text es))) col =
             Ok (VObj (foldl setProperty [] (map pair_read es)))).
  { intros es. unfold prepareHydratedValue. rewrite Htr. simpl isAbsent. cbv iota.
    by_type Hty. rewrite Hhs. rewrite stringToHstore_text. reflexivity. }
  split; [|split].
  - unfold preparePersistentValue. rewrite Htr. simpl. by_type Hty.
    rewrite hstoreToString_text. reflexivity.
  - exact (Hdec entries).
  - intros k. split.
    + exact (Hdec [(k, VNull)]).
    + exact (Hdec [(k, VStr "NULL")]).
Qed.

Lemma hstore_quoting_and_null_witness :
  let col := column (TName "hstore") None false in
  let text := quoted "name" +:+ "=>" +:+ quoted "k" +:+ "," +:+ quoted "value" +:+ "=>NULL" in
  preparePersistentValue no_externals
    (VObj [("name", VStr "k"); ("value", VNull)]) col = Ok (VStr text) /\
  prepareHydratedValue no_externals (VStr text) col =
    Ok (VObj [("name", VStr "k"); ("value", VNull)]).
Proof.
  pose proof (hstore_quoting_and_null no_externals
                (column (TName "hstore") None false)
                [("name", VStr "k"); ("value", VNull)]
                eq_refl eq_refl eq_refl) as H.
  split; [exact (proj1 H) | exact (proj1 (proj2 H))].
Defined.

(** C10. On an hstore column a value that is already a string is written
    as it is, with no quoting and no escaping; only a value that is not a
    string goes through the quoting of its key-value pairs. *)
Theorem hstore_string_verbatim (ext : Externals) (col : ColumnMetadata) :
  type col = TName "hstore" ->
  transformer col = None ->
  (forall s : string, preparePersistentValue ext (VStr s) col = Ok (VStr s)) /\
  (forall v : JsValue,
      isAbsent v = false ->
      match v with VStr _ => False | _ => True end ->
      preparePersistentValue ext v col = Ok (VStr (hstoreToString v))).
Proof.
  intros Hty Htr. split.
  - intros s. unfold preparePersistentValue. rewrite Htr. simpl. by_type Hty. reflexivity.
  - intros v Hv Hs. unfold preparePersistentValue. rewrite Htr. simpl. rewrite Hv.
    by_type Hty. destruct v; try reflexivity; contradiction.
Qed.

Lemma hstore_string_verbatim_witness :
  preparePersistentValue no_externals (VStr "a=>b, no quotes")
    (column (TName "hstore") None false) = Ok (VStr "a=>b, no quotes").
Proof.
  exact (proj1 (hstore_string_verbatim no_externals
                  (column (TName "hstore") None false) eq_refl eq_refl)
               "a=>b, no quotes").
Defined.

(** C8. On a Boolean column (no transformer declared) a value that is
    present is written as 1 when it is [true] and as 0 otherwise; a stored
    boolean or integer is read back as a boolean; writing then reading a
    boolean gives it back. *)
Theorem boolean_codec (ext : Externals) (col : ColumnMetadata) :
  type col = TBoolean ->
  transformer col = None ->
  (forall v, isAbsent v = false ->
     preparePersistentValue ext v col =
     Ok (VNum (match v with VBool true => 1 | _ => 0 end))) /\
  (forall b, prepareHydratedValue ext (VBool b) col = Ok (VBool b)) /\
  (forall n, prepareHydratedValue ext (VNum n) col = Ok (VBool (negb (n =? 0)%Z))) /\
  (forall b, (let* stored := preparePersistentValue ext (VBool b) col in
              prepareHydratedValue ext stored col) = Ok (VBool b)).
Proof.
  intros Hty Htr.
  assert (Henc : forall v, isAbsent v = false ->
            preparePersistentValue ext v col =
            Ok (VNum (match v with VBool true => 1 | _ => 0 end))).
  { intros v Hv. unfold preparePersistentValue. rewrite Htr. simpl. rewrite Hv.
    by_type Hty. reflexivity. }
  assert (Hdec : forall v, isAbsent v = false ->
            prepareHydratedValue ext v col = Ok (VBool (truthy v))).
  { intros v Hv. unfold prepareHydratedValue. rewrite Htr, Hv. by_type Hty.
    reflexivity. }
  split; [exact Henc|].
  split; [intros b; exact (Hdec (VBool b) eq_refl)|].
  split; [intros n; exact (Hdec (VNum n) eq_refl)|].
  intros b. rewrite Henc by reflexivity. simpl bind.
  rewrite Hdec by reflexivity. destruct b; reflexivity.
Qed.

Lemma boolean_codec_witness :
  preparePersistentValue no_externals (VBool true) (column TBoolean None false) = Ok (VNum 1) /\
  preparePersistentValue no_externals (VStr "true") (column TBoolean None false) = Ok (VNum 0) /\
  prepareHydratedValue no_externals (VNum 1) (column TBoolean None false) = Ok (VBool true).
Proof.
  pose proof (boolean_codec no_externals (column TBoolean None false) eq_refl eq_refl)
    as (Henc & _ & Hdec & _).
  split; [|split].
  - exact (Henc (VBool true) eq_refl).
  - exact (Henc (VStr "true") eq_refl).
  - exact (Hdec 1%Z).
Defined.

Definition with_transformers (col : ColumnMetadata) (v : JsValue) : result JsValue :=
  match transformer col with
  | Some t => transformFrom t v
  | None => Ok v
  end.

(** C9. On an enum array column the stored text [{}] is read as the empty
    array at once, whatever transformers the column declares; every other
    read of a present value ends by handing the decoded value to the
    transformers. *)
Theorem enum_array_empty_bypasses_transformers (ext : Externals) (col : ColumnMetadata) :
  (is_enum col = true -> isArray col = true ->
   prepareHydratedValue ext (VStr "{}") col = Ok (VArr [])) /\
  (forall v f,
     isAbsent v = false ->
     hydrate_by_type ext v col = Ok f ->
     (f = Return (VArr []) /\ is_enum col = true /\ isArray col = true /\ v = VStr "{}")
     \/ (exists decoded, f = Continue decoded /\
           prepareHydratedValue ext v col = with_transformers col decoded)).
Proof.
  split.
  - intros He Ha. unfold prepareHydratedValue. simpl.
    unfold is_enum, is_type in He.
    unfold hydrate_by_type, is_datetime, is_enum, is_ctor, is_type.
    destruct (type col) as [| | | |n]; try discriminate He.
    rewrite Ha. simpl in *.
    repeat match goal with
           | |- context [String.eqb n ?x] =>
               let E := fresh "E" in
               destruct (String.eqb n x) eqn:E;
               [apply String.eqb_eq in E; subst n; discriminate He|]
           end.
    rewrite He. reflexivity.
  - intros v f Hv Hf.
    assert (Hcont : forall m, continue m = Ok f -> exists d, f = Continue d).
    { intros m. unfold continue. destruct m; simpl; [|discriminate].
      intros [= <-]. eauto. }
    assert (Hfin : forall d, f = Continue d ->
               prepareHydratedValue ext v col = with_transformers col d).
    { intros d ->. unfold prepareHydratedValue. rewrite Hv, Hf. reflexivity. }
    unfold hydrate_by_type in Hf.
    repeat match type of Hf with
           | (if ?b then _ else _) = _ => destruct b eqn:?
           | match ?o with Some _ => _ | None => _ end = _ => destruct o eqn:?
           | match ?s with EmptyString => _ | String _ _ => _ end = _ => destruct s eqn:?
           | match ?a with Ascii _ _ _ _ _ _ _ _ => _ end = _ => destruct a eqn:?
           | match ?x with VStr _ => _ | _ => _ end = _ => destruct x eqn:?
           end;
      try (right; destruct (Hcont _ Hf) as [d Hd]; exists d; split; [exact Hd | exact (Hfin d Hd)]);
      try (injection Hf as <-; first
             [ right; eexists; split; [reflexivity | apply Hfin; reflexivity]
             | left; subst; auto ]).
Qed.

Lemma enum_array_empty_bypasses_transformers_witness :
  let shout := Some (Single (always (VStr "transformed"))) in
  prepareHydratedValue no_externals (VStr "{}") (column (TName "enum") shout true)
    = Ok (VArr []) /\
  prepareHydratedValue no_externals (VNum 1) (column TBoolean shout false)
    = Ok (VStr "transformed").
Proof.
  split.
  - exact (proj1 (enum_array_empty_bypasses_transformers no_externals
                    (column (TName "enum") (Some (Single (always (VStr "transformed")))) true))
                 eq_refl eq_refl).
  - reflexivity.
Defined.

(** C7 as stated: writing an absent value returns what the transformers
    make of it (the value itself when there are none), and reading an
    absent value returns what the transformers, run in reverse order, make
    of it (the value itself when there are none). *)
Definition absent_passes_through : Prop :=
  forall (ext : Externals) (col : ColumnMetadata) (v : JsValue),
    isAbsent v = true ->
    preparePersistentValue ext v col =
      match transformer col with
      | Some t => transformTo t v
      | None => Ok v
      end /\
    prepareHydratedValue ext v col = with_transformers col v.

(** C7, counterexample.  A Boolean column whose transformer turns [null]
    into [true]: the transformed value is present, so it is then written by
    the Boolean rule, as 1. *)
Lemma absent_passes_through_fails : ~ absent_passes_through.
Proof.
  intros H.
  destruct (H no_externals
              (column TBoolean (Some (Single (always (VBool true)))) false)
              VNull eq_refl) as [Henc _].
  discriminate Henc.
Qed.

(** C7, amended.  Writing an absent value: without transformers it is
    returned as it is; with transformers the chain runs first, and its
    result is returned as it is when it is still absent and is written by
    the rule of the column type otherwise.  Reading an absent value: without
    transformers it is returned as it is, with transformers the result of
    the chain is returned, and a chain given as an array runs from its last
    transformer to its first. *)
Theorem absent_value_codec (ext : Externals) (col : ColumnMetadata) (v : JsValue) :
  isAbsent v = true ->
  (transformer col = None -> preparePersistentValue ext v col = Ok v) /\
  (forall t v', transformer col = Some t -> transformTo t v = Ok v' ->
     preparePersistentValue ext v col =
     if isAbsent v' then Ok v' else persist_by_type ext v' col) /\
  (transformer col = None -> prepareHydratedValue ext v col = Ok v) /\
  (forall t, transformer col = Some t ->
     prepareHydratedValue ext v col = transformFrom t v) /\
  (forall ts, transformer col = Some (Chain ts) ->
     prepareHydratedValue ext v col = foldM (fun x t1 => from t1 x) (rev ts) v).
Proof.
  intros Hv. unfold preparePersistentValue, prepareHydratedValue. rewrite Hv.
  split; [|split; [|split; [|split]]].
  - intros ->. simpl. rewrite Hv. reflexivity.
  - intros t v' -> ->. reflexivity.
  - intros ->. reflexivity.
  - intros t ->. reflexivity.
  - intros ts ->. reflexivity.
Qed.

Lemma absent_value_codec_witness :
  preparePersistentValue no_externals VNull (column (TName "hstore") None false) = Ok VNull /\
  prepareHydratedValue no_externals VNull
    (column TBoolean (Some (Chain [always (VNum 1); always (VNum 2)])) false)
    = Ok (VNum 1).
Proof.
  split.
  - exact (proj1 (absent_value_codec no_externals
                    (column (TName "hstore") None false) VNull eq_refl) eq_refl).
  - exact (proj1 (proj2 (proj2 (proj2
            (absent_value_codec no_externals
               (column TBoolean (Some (Chain [always (VNum 1); always (VNum 2)])) false)
               VNull eq_refl)))) _ eq_refl).
Defined.

End CodecClaims.

(** * Properties of the builder *)

(** ** What a computation leaves as it is *)

Section Frames.

Import EntityMetadataBuilder.

(** Every successful run of [m] takes a store to one related to it by [R]. *)
Definition preserves {A : Type} (R : relation Store) (m : M A) : Prop :=
  forall st a st', m st = Ok (a, st') -> R st st'.

Definition unchanged : relation Store := fun st st' => st' = st.

#[local] Instance unchanged_preorder : PreOrder unchanged.
Proof. split; [intros st; reflexivity | intros a b c H1 H2; unfold unchanged in *; congruence]. Qed.

Section Generic.

Context (R : relation Store) `{!PreOrder R}.

Lemma preserves_ret {A : Type} (a : A) : preserves R (ret a).
Proof. intros st a' st' [= _ <-]. reflexivity. Qed.

Lemma preserves_throw {A : Type} (e : exn) : preserves R (@throw A e).
Proof. intros st a st' H. discriminate H. Qed.

Lemma preserves_bind {A B : Type} (m : M A) (k : A -> M B) :
  preserves R m -> (forall a, preserves R (k a)) -> preserves R (bindM m k).
Proof.
  intros Hm Hk st b st' H. unfold bindM in H.
  destruct (m st) as [[a st1]|e] eqn:E; [|discriminate H].
  transitivity st1; [exact (Hm _ _ _ E) | exact (Hk _ _ _ _ H)].
Qed.

Lemma preserves_forEach {A : Type} (l : list A) (f : A -> M unit) :
  (forall x, x ∈ l -> preserves R (f x)) -> preserves R (forEach l f).
Proof.
  induction l as [|x l IH]; intros Hf; simpl.
  - apply preserves_ret.
  - apply preserves_bind; [apply Hf; left | intros _; apply IH].
    intros y Hy. apply Hf. right. exact Hy.
Qed.

Lemma preserves_mapA {A B : Type} (f : A -> M B) (l : list A) :
  (forall x, x ∈ l -> preserves R (f x)) -> preserves R (mapA f l).
Proof.
  induction l as [|x l IH]; intros Hf; simpl.
  - apply preserves_ret.
  - apply preserves_bind; [apply Hf; left | intros y].
    apply preserves_bind; [|intros ys; apply preserves_ret].
    apply IH. intros z Hz. apply Hf. right. exact Hz.
Qed.

Lemma preserves_when (b : bool) (m : M unit) :
  preserves R m -> preserves R (when b m).
Proof. intros Hm. destruct b; [exact Hm | apply preserves_ret]. Qed.

Lemma preserves_defined {A : Type} (what : string) (o : option A) :
  preserves R (defined what o).
Proof. destruct o; [apply preserves_ret | apply preserves_throw]. Qed.

Lemma preserves_unchanged {A : Type} (m : M A) :
  preserves unchanged m -> preserves R m.
Proof. intros Hm st a st' H. rewrite (Hm _ _ _ H). reflexivity. Qed.

End Generic.



Lemma bindM_ok {A B : Type} (m : M A) (k : A -> M B) st a st1 :
  m st = Ok (a, st1) -> bindM m k st = k a st1.
Proof. intros H. unfold bindM. rewrite H. reflexivity. Qed.


(** The reading computations. *)
Lemma read_getEntity e : preserves unchanged (getEntity e).
Proof. intros st a st' [= _ <-]. reflexivity. Qed.
Lemma read_getColumn c : preserves unchanged (getColumn c).
Proof. intros st a st' [= _ <-]. reflexivity. Qed.
Lemma read_getRelation r : preserves unchanged (getRelation r).
Proof. intros st a st' [= _ <-]. reflexivity. Qed.
Lemma read_getArray a : preserves unchanged (getArray a).
Proof. intros st x st' [= _ <-]. reflexivity. Qed.
Lemma read_getEntityMetadatas : preserves unchanged getEntityMetadatas.
Proof. intros st a st' [= _ <-]. reflexivity. Qed.
Lemma read_buildJoinColumns connection r :
  preserves unchanged (buildJoinColumns connection r).
Proof.
  intros st a st'. unfold buildJoinColumns.
  destruct (relationJoinColumnBuilder connection st r); [|discriminate].
  intros [= _ <-]. reflexivity.
Qed.

Lemma read_findEntity p l : preserves unchanged (findEntity p l).
Proof.
  induction l as [|e l IH]; simpl; [apply preserves_ret; apply _|].
  apply preserves_bind; [apply _ | apply read_getEntity | intros x].
  destruct (p x); [apply preserves_ret; apply _ | exact IH].
Qed.

Lemma read_filterEntities p l : preserves unchanged (filterEntities p l).
Proof.
  induction l as [|e l IH]; simpl; [apply preserves_ret; apply _|].
  apply preserves_bind; [apply _ | apply read_getEntity | intros x].
  apply preserves_bind; [apply _ | exact IH | intros y; apply preserves_ret; apply _].
Qed.

Lemma read_findColumn p l : preserves unchanged (findColumn p l).
Proof.
  induction l as [|o l IH]; simpl; [apply preserves_ret; apply _|].
  apply preserves_bind; [apply _ | apply preserves_defined; apply _ | intros c].
  apply preserves_bind; [apply _ | apply read_getColumn | intros x].
  destruct (p x); [apply preserves_ret; apply _ | exact IH].
Qed.

Lemma read_filterColumns p l : preserves unchanged (filterColumns p l).
Proof.
  induction l as [|e l IH]; simpl; [apply preserves_ret; apply _|].
  apply preserves_bind; [apply _ | apply read_getColumn | intros x].
  apply preserves_bind; [apply _ | exact IH | intros y; apply preserves_ret; apply _].
Qed.

Lemma read_findRelation p l : preserves unchanged (findRelation p l).
Proof.
  induction l as [|o l IH]; simpl; [apply preserves_ret; apply _|].
  apply preserves_bind; [apply _ | apply preserves_defined; apply _ | intros c].
  apply preserves_bind; [apply _ | apply read_getRelation | intros x].
  destruct (p x); [apply preserves_ret; apply _ | exact IH].
Qed.

Lemma read_filterRelations p l : preserves unchanged (filterRelations p l).
Proof.
  induction l as [|e l IH]; simpl; [apply preserves_ret; apply _|].
  apply preserves_bind; [apply _ | apply read_getRelation | intros x].
  apply preserves_bind; [apply _ | exact IH | intros y; apply preserves_ret; apply _].
Qed.

End Frames.

#[local] Existing Instance unchanged_preorder.

(** One step of a frame proof: the structure of the computation. *)
Ltac frame_read :=
  apply preserves_unchanged;
  [ typeclasses eauto
  | first [ apply read_getEntity | apply read_getColumn | apply read_getRelation
          | apply read_getArray | apply read_getEntityMetadatas
          | apply read_buildJoinColumns | apply read_findEntity
          | apply read_filterEntities | apply read_findColumn
          | apply read_filterColumns | apply read_findRelation
          | apply read_filterRelations ] ].

Ltac frame_step prim :=
  first
    [ prim
    | apply preserves_ret; typeclasses eauto
    | apply preserves_throw
    | apply preserves_defined; typeclasses eauto
    | apply preserves_bind; [typeclasses eauto | | intros ?]
    | apply preserves_forEach; [typeclasses eauto | intros ? _]
    | apply preserves_mapA; [typeclasses eauto | intros ? _]
    | apply preserves_when; [typeclasses eauto | ]
    | frame_read
    | match goal with
      | |- preserves _ (match ?x with _ => _ end) => destruct x
      | |- preserves _ (let (_, _) := ?p in _) => destruct p
      end
    | progress cbv zeta ].

Ltac frame prim := repeat (frame_step prim).

(** ** Resolving the inverse sides *)

Section InverseSides.

Import EntityMetadataBuilder.

(** The fields of a relation that are fixed when it is created. *)
Definition declared (x : Rel.t) : Target * string * string :=
  (Rel.type x, Rel.propertyPath x, Rel.givenInverseSide x).


(** The entities and the declared part of the relations stay. *)
Definition same_declarations : relation Store := fun st st' =>
  entities st' = entities st /\
  entityMetadatas st' = entityMetadatas st /\
  forall r, declared (relations st' !!! r) = declared (relations st !!! r).

#[local] Instance same_declarations_preorder : PreOrder same_declarations.
Proof.
  split.
  - intros st. repeat split.
  - intros a b c (H1 & H2 & H3) (H4 & H5 & H6).
    split; [congruence | split; [congruence | intros r; rewrite H6; apply H3]].
Qed.




Lemma findEntity_find p l st :
  findEntity p l st = Ok (find (fun e => p (entities st !!! e)) l, st).
Proof.
  induction l as [|e l IH]; simpl; [reflexivity|].
  unfold bindM, getEntity. destruct (p (entities st !!! e)); [reflexivity | exact IH].
Qed.















End InverseSides.

(** ** Loops that stop at the first failure *)

Section FirstFailure.

Import EntityMetadataBuilder.






Lemma forEach_preserves_outcome {A : Type} (R : relation Store) `{!PreOrder R}
    (f : A -> M unit) (l : list A) :
  (forall x, preserves R (f x)) -> preserves R (forEach l f).
Proof. intros H. apply preserves_forEach; [exact _ | intros x _; apply H]. Qed.

End FirstFailure.

(** ** Foreign-key declarations *)

Section ForeignKeys.

Import EntityMetadataBuilder.

(** An entity metadata, its foreign keys left out. *)
Definition face (x : Ent.t) : Ent.t := Ent.set_foreignKeys [] x.



(** Only foreign keys are added. *)
Definition same_but_foreign_keys : relation Store := fun st st' =>
  columns st' = columns st /\
  entityMetadatas st' = entityMetadatas st /\
  forall e, face (entities st' !!! e) = face (entities st !!! e).

#[local] Instance same_but_foreign_keys_preorder : PreOrder same_but_foreign_keys.
Proof.
  split.
  - intros st. split; [reflexivity | split; [reflexivity | intros e; reflexivity]].
  - intros a b c (H1 & H2 & H3) (H4 & H5 & H6).
    split; [congruence | split; [congruence | intros e; rewrite H6; apply H3]].
Qed.




























End ForeignKeys.

(** ** The index of the discriminator column *)

Section InheritanceKeys.

Import EntityMetadataBuilder.

(** Does a declared index cover exactly the column of this database name? *)
Definition coversExactly (databaseName : option string) (index : Idx.t) : bool :=
  match Idx.givenColumnNames index with
  | ColumnNames [name] => bool_decide (Some name = databaseName)
  | _ => false
  end.

Definition discriminatorIndex (x : Ent.t) : Idx.t :=
  {| Idx.givenColumnNames := NoColumnNames;
     Idx.columns := match Ent.discriminatorColumn x with
                    | Some c => [c]
                    | None => []
                    end;
     Idx.isUnique := false |}.

(** The pass itself: unless a declared index covers exactly the
    discriminator column, a non-unique index over that column is pushed
    onto the array [indices] of the entity; otherwise nothing changes. *)
Lemma createKeysForTableInheritance_run e st :
  let x := entities st !!! e in
  let declared := arrays st !!! Ent.indices x in
  let databaseName :=
    (fun c => Col.databaseName (columns st !!! c)) <$> Ent.discriminatorColumn x in
  createKeysForTableInheritance e st =
  if existsb (coversExactly databaseName) declared then Ok (tt, st)
  else Ok (tt, set_arrays (<[Ent.indices x := declared ++ [discriminatorIndex x]]>
                             (arrays st)) st).
Proof.
  unfold createKeysForTableInheritance, coversExactly, discriminatorIndex, push,
    bindM, getEntity, getArray, getColumn, ret.
  cbv beta iota zeta.
  destruct (Ent.discriminatorColumn (entities st !!! e)) as [c|];
    cbv beta iota; simpl fmap.
    all: destruct (existsb _ _); reflexivity.
Qed.

(** C5, on the code.  [Content] is the root of a single table inheritance
    with a discriminator column, a generated primary column and one
    embedded.  The index over the discriminator column is pushed onto
    [indices], which with an embedded is an array of its own; the pass of
    the generated columns then computes the properties again and replaces
    [indices] by a new array made of the own indices and those of the
    embeddeds: when [build] returns, the root has no index at all.
    Without the embedded, [indices] is the array [ownIndices] itself and
    the index stays. *)
Theorem discriminator_index_lost_after_build :
  (exists result st,
      Samples.run (Samples.inheritance true) = Ok (result, st) /\
      0 ∈ result /\
      Ent.tableType (entities st !!! 0) = regular /\
      Ent.inheritancePattern (entities st !!! 0) = Some "STI" /\
      Ent.discriminatorColumn (entities st !!! 0) = Some 4 /\
      arrays st !!! Ent.indices (entities st !!! 0) = []) /\
  (exists result st,
      Samples.run (Samples.inheritance false) = Ok (result, st) /\
      0 ∈ result /\
      Ent.discriminatorColumn (entities st !!! 0) = Some 3 /\
      arrays st !!! Ent.indices (entities st !!! 0) =
      [ {| Idx.givenColumnNames := NoColumnNames; Idx.columns := [3];
           Idx.isUnique := false |} ]).
Proof.
  split.
  - destruct (Samples.run (Samples.inheritance true)) as [[result st]|err] eqn:E;
      [|vm_compute in E; discriminate E].
    exists result, st. split; [reflexivity|].
    vm_compute in E. injection E as <- <-.
    split; [left|]. repeat split.
  - destruct (Samples.run (Samples.inheritance false)) as [[result st]|err] eqn:E;
      [|vm_compute in E; discriminate E].
    exists result, st. split; [reflexivity|].
    vm_compute in E. injection E as <- <-.
    split; [left|]. repeat split.
Qed.

End InheritanceKeys.

(* ===================================================================== *)
(** * What the passes of the build leave as it is *)

Section Stability.

Import EntityMetadataBuilder.

(** No entity leaves the store, and the projection [g] of every entity
    the store holds that [keep] selects is what it was. *)
Definition kept {X : Type} (g : Ent.t -> X) (keep : nat -> Prop) : relation Store :=
  fun st st' =>
    length (entities st) <= length (entities st') /\
    forall e, keep e -> e < length (entities st) ->
      g (entities st' !!! e) = g (entities st !!! e).

#[local] Instance kept_preorder {X : Type} (g : Ent.t -> X) keep : PreOrder (kept g keep).
Proof.
  split.
  - intros st. split; [lia | reflexivity].
  - intros a b c [L1 H1] [L2 H2]. split; [lia|].
    intros e K He. rewrite H2 by (assumption || lia). apply H1; assumption.
Qed.

Lemma kept_updateEntity {X : Type} (g : Ent.t -> X) (keep : nat -> Prop) e f :
  (keep e -> forall x, g (f x) = g x) -> preserves (kept g keep) (updateEntity e f).
Proof.
  intros Hf st a st' [= _ <-]. split; simpl.
  - rewrite length_insert. lia.
  - intros e' K He'. destruct (decide (e' = e)) as [->|Hne].
    + rewrite list_lookup_total_insert_eq by assumption. apply Hf, K.
    + rewrite list_lookup_total_insert_ne by congruence. reflexivity.
Qed.

Lemma kept_newEntity {X : Type} (g : Ent.t -> X) (keep : nat -> Prop) x :
  preserves (kept g keep) (newEntity x).
Proof.
  intros st a st' [= _ <-]. split; simpl.
  - rewrite length_app. lia.
  - intros e K He. rewrite lookup_total_app_l by assumption. reflexivity.
Qed.

Lemma kept_frame {X A : Type} (g : Ent.t -> X) (keep : nat -> Prop) (m : M A) :
  (forall st a st', m st = Ok (a, st') -> entities st' = entities st) ->
  preserves (kept g keep) m.
Proof.
  intros Hm st a st' H. unfold kept.
  rewrite (Hm _ _ _ H). split; [lia | reflexivity].
Qed.

(** The same of the computations that create no entity metadata: no
    bound on [e] is needed there. *)
Definition entfixed {X : Type} (g : Ent.t -> X) (keep : nat -> Prop) : relation Store :=
  fun st st' =>
    length (entities st') = length (entities st) /\
    forall e, keep e -> g (entities st' !!! e) = g (entities st !!! e).

#[local] Instance entfixed_preorder {X : Type} (g : Ent.t -> X) keep :
  PreOrder (entfixed g keep).
Proof.
  split.
  - intros st. split; reflexivity.
  - intros a b c [L1 H1] [L2 H2]. split; [congruence|].
    intros e K. rewrite H2 by assumption. apply H1; assumption.
Qed.

Lemma entfixed_updateEntity {X : Type} (g : Ent.t -> X) (keep : nat -> Prop) e f :
  (keep e -> forall x, g (f x) = g x) -> preserves (entfixed g keep) (updateEntity e f).
Proof.
  intros Hf st a st' [= _ <-]. split; simpl.
  - apply length_insert.
  - intros e' K. destruct (decide (e' = e)) as [->|Hne].
    + destruct (decide (e < length (entities st))) as [He|He].
      * rewrite list_lookup_total_insert_eq by assumption. apply Hf, K.
      * rewrite list_insert_ge by lia. reflexivity.
    + rewrite list_lookup_total_insert_ne by congruence. reflexivity.
Qed.

Lemma entfixed_frame {X A : Type} (g : Ent.t -> X) keep (m : M A) :
  (forall st a st', m st = Ok (a, st') -> entities st' = entities st) ->
  preserves (entfixed g keep) m.
Proof.
  intros Hm st a st' H. unfold entfixed.
  rewrite (Hm _ _ _ H). split; reflexivity.
Qed.

Lemma entfixed_weaken {X A : Type} (g : Ent.t -> X) (keep keep' : nat -> Prop) (m : M A) :
  (forall e, keep' e -> keep e) ->
  preserves (entfixed g keep) m -> preserves (entfixed g keep') m.
Proof.
  intros Hk Hm st a st' H. destruct (Hm _ _ _ H) as [L E].
  split; [exact L | intros e K; apply E, Hk, K].
Qed.

(** The same for the columns. *)
Definition colkept {X : Type} (h : Col.t -> X) : relation Store :=
  fun st st' =>
    length (columns st) <= length (columns st') /\
    forall c, c < length (columns st) -> h (columns st' !!! c) = h (columns st !!! c).

#[local] Instance colkept_preorder {X : Type} (h : Col.t -> X) : PreOrder (colkept h).
Proof.
  split.
  - intros st. split; [lia | reflexivity].
  - intros a b c [L1 H1] [L2 H2]. split; [lia|].
    intros e He. rewrite H2 by lia. apply H1; assumption.
Qed.

Lemma colkept_updateColumn {X : Type} (h : Col.t -> X) c f :
  (forall x, h (f x) = h x) -> preserves (colkept h) (updateColumn c f).
Proof.
  intros Hf st a st' [= _ <-]. split; simpl.
  - rewrite length_insert. lia.
  - intros c' Hc'. destruct (decide (c' = c)) as [->|Hne].
    + rewrite list_lookup_total_insert_eq by assumption. apply Hf.
    + rewrite list_lookup_total_insert_ne by congruence. reflexivity.
Qed.

Lemma colkept_newColumn {X : Type} (h : Col.t -> X) x :
  preserves (colkept h) (newColumn x).
Proof.
  intros st a st' [= _ <-]. split; simpl.
  - rewrite length_app. lia.
  - intros e He. rewrite lookup_total_app_l by assumption. reflexivity.
Qed.

Lemma colkept_frame {X A : Type} (h : Col.t -> X) (m : M A) :
  (forall st a st', m st = Ok (a, st') -> columns st' = columns st) ->
  preserves (colkept h) m.
Proof.
  intros Hm st a st' H. unfold colkept.
  rewrite (Hm _ _ _ H). split; [lia | reflexivity].
Qed.

(** The projection [h] of every relation that [keep] selects is what it
    was; this holds of the computations that create no relation. *)
Definition relkept {X : Type} (h : Rel.t -> X) (keep : nat -> Prop) : relation Store :=
  fun st st' =>
    length (relations st') = length (relations st) /\
    forall r, keep r -> h (relations st' !!! r) = h (relations st !!! r).

#[local] Instance relkept_preorder {X : Type} (h : Rel.t -> X) keep : PreOrder (relkept h keep).
Proof.
  split.
  - intros st. split; reflexivity.
  - intros a b c [L1 H1] [L2 H2]. split; [congruence|].
    intros r K. rewrite H2 by assumption. apply H1; assumption.
Qed.

Lemma relkept_updateRelation {X : Type} (h : Rel.t -> X) (keep : nat -> Prop) r f :
  (keep r -> forall x, h (f x) = h x) -> preserves (relkept h keep) (updateRelation r f).
Proof.
  intros Hf st a st' [= _ <-]. split; simpl.
  - apply length_insert.
  - intros r' K. destruct (decide (r' = r)) as [->|Hne].
    + destruct (decide (r < length (relations st))) as [Hr|Hr].
      * rewrite list_lookup_total_insert_eq by assumption. apply Hf, K.
      * rewrite list_insert_ge by lia. reflexivity.
    + rewrite list_lookup_total_insert_ne by congruence. reflexivity.
Qed.

Lemma relkept_frame {X A : Type} (h : Rel.t -> X) keep (m : M A) :
  (forall st a st', m st = Ok (a, st') -> relations st' = relations st) ->
  preserves (relkept h keep) m.
Proof.
  intros Hm st a st' H. unfold relkept.
  rewrite (Hm _ _ _ H). split; reflexivity.
Qed.

(** The list of entity metadatas of the build is what it was. *)
Definition same_listing : relation Store :=
  fun st st' => entityMetadatas st' = entityMetadatas st.

#[local] Instance same_listing_preorder : PreOrder same_listing.
Proof. split; [intros st; reflexivity | intros a b c H1 H2; unfold same_listing in *; congruence]. Qed.

Lemma same_listing_frame {A : Type} (m : M A) :
  (forall st a st', m st = Ok (a, st') -> entityMetadatas st' = entityMetadatas st) ->
  preserves same_listing m.
Proof. intros Hm st a st' H. exact (Hm _ _ _ H). Qed.

End Stability.

#[local] Existing Instance kept_preorder.
#[local] Existing Instance same_listing_preorder.
#[local] Existing Instance entfixed_preorder.
#[local] Existing Instance colkept_preorder.
#[local] Existing Instance relkept_preorder.

(** The primitive steps of a frame proof. *)
Ltac untouched := intros ? ? ? [= _ <-]; reflexivity.

Ltac setter_keeps :=
  first
    [ intros K; exfalso; apply K; reflexivity
    | intros _ []; reflexivity
    | intros []; reflexivity
    | intros _ []; cbn; repeat case_match; reflexivity ].

Ltac stable_step :=
  first
    [ apply kept_updateEntity; setter_keeps
    | apply kept_newEntity
    | apply kept_frame; untouched
    | apply entfixed_updateEntity; setter_keeps
    | apply entfixed_frame; untouched
    | apply colkept_updateColumn; setter_keeps
    | apply colkept_newColumn
    | apply colkept_frame; untouched
    | apply relkept_updateRelation; setter_keeps
    | apply relkept_frame; untouched
    | apply same_listing_frame; untouched ].

Lemma createEmbeddeds_preserves connection
    (R : relation EntityMetadataBuilder.Store) `{!PreOrder R} :
  (forall x, preserves R (EntityMetadataBuilder.newColumn x)) ->
  (forall position a,
     preserves R (EntityMetadataBuilder.newRelation
                    (EntityMetadataBuilder.RelationMetadata_new position a))) ->
  forall l position,
    preserves R (EntityMetadataBuilder.createEmbeddeds connection position l).
Proof.
  intros HC HR. induction l as [|args l IH]; intros position; simpl.
  - apply preserves_ret; assumption.
  - unfold EntityMetadataBuilder.createEmbedded.
    frame ltac:(first [apply HC | apply HR | apply IH]).
Qed.

Ltac own_step :=
  first [ apply createEmbeddeds_preserves; [typeclasses eauto | intros ? | intros ? ?]
        | stable_step ].

Lemma bindM_inv {A B : Type} (m : EntityMetadataBuilder.M A)
    (k : A -> EntityMetadataBuilder.M B) st b st' :
  EntityMetadataBuilder.bindM m k st = Ok (b, st') ->
  exists a s, m st = Ok (a, s) /\ k a s = Ok (b, st').
Proof.
  unfold EntityMetadataBuilder.bindM.
  destruct (m st) as [[a s]|]; [eauto | discriminate].
Qed.

Ltac inv_bind H := apply bindM_inv in H as (? & ? & ? & H).

Tactic Notation "invert_bind" hyp(H) "as" simple_intropattern(a) simple_intropattern(s)
    ident(H1) :=
  apply bindM_inv in H as (a & s & H1 & H).

(** From a run of a computation, how its stores are related. *)
Ltac framed_as F R H tac :=
  match type of H with
  | ?m ?st = Ok (?a, ?st') =>
      assert (F : R st st') by (apply (fun P : preserves R m => P st a st' H); tac)
  end.

Ltac framed R H tac :=
  match type of H with
  | ?m ?st = Ok (?a, ?st') =>
      let F := fresh "F" in
      assert (F : R st st') by (apply (fun P : preserves R m => P st a st' H); tac)
  end.

Section Passes.

Import EntityMetadataBuilder.

Context (connection : Connection) (storage : MetadataArgsStorage.t).

(** What no pass changes once an entity metadata has its own members. *)
Definition fixed (x : Ent.t) :=
  (Ent.tableType x, Ent.tableName x, Ent.isJunction x,
   Ent.parentEntityMetadata x, Ent.inheritanceTree x,
   Ent.ownColumns x, Ent.ownRelations x,
   flat_map Emb.relationsFromTree (Ent.embeddeds x)).

Lemma step2_fixed e keep : preserves (kept fixed keep) (computeEntityMetadataStep2 e).
Proof. frame stable_step. Qed.

Definition every : nat -> Prop := fun _ => True.

Lemma alter_indices_relations (f : list Idx.t -> list Idx.t) i (l : list Emb.t) :
  flat_map Emb.relationsFromTree
    (alter (fun emb => Emb.set_indicesFromTree (f (Emb.indicesFromTree emb)) emb) i l)
  = flat_map Emb.relationsFromTree l.
Proof.
  revert i. induction l as [|x l IH]; intros [|i]; simpl; try reflexivity.
  f_equal. exact (IH i).
Qed.

Lemma pushRelationIndex_fixed keep e relation index :
  preserves (kept fixed keep) (pushRelationIndex e relation index).
Proof.
  unfold pushRelationIndex. destruct (Rel.embeddedMetadata relation) as [i|].
  - apply kept_updateEntity. intros _ x. unfold fixed.
    replace (Ent.embeddeds (Ent.set_embeddeds _ x)) with
      (alter (fun emb => Emb.set_indicesFromTree (Emb.indicesFromTree emb ++ [index]) emb)
             i (Ent.embeddeds x)) by (destruct x; reflexivity).
    rewrite (alter_indices_relations (fun l => l ++ [index])).
    destruct x; reflexivity.
  - frame stable_step.
Qed.

Lemma pushRelationIndex_columns e relation index :
  preserves (colkept Col.propertyName) (pushRelationIndex e relation index).
Proof. unfold pushRelationIndex. frame stable_step. Qed.

Ltac pass_step :=
  first [ apply pushRelationIndex_fixed | apply pushRelationIndex_columns | stable_step ].

(** The passes of [build] that follow the own members. *)
Definition afterOwnMembers (created : list nat) : M (list nat) :=
  computeProperties created ;;
  resolveInverseSides created ;;
  materializeRelations connection storage created ;;
  expandClosures connection ;;
  indexInheritance ;;
  materializeForeignKeys storage ;;
  generateColumns storage ;;
  getEntityMetadatas.

Lemma build_stages classes st0 result st :
  build connection storage classes st0 = Ok (result, st) ->
  exists created s1 s2,
    instantiate connection storage classes st0 = Ok (created, s1)
    /\ buildOwnMembers connection storage created s1 = Ok (tt, s2)
    /\ afterOwnMembers created s2 = Ok (result, st).
Proof.
  intros H. unfold build in H. invert_bind H as [] sF HF.
  unfold untilForeignKeys in HF. invert_bind HF as created sP HP.
  unfold untilProperties in HP.
  invert_bind HP as created' s1 H1. invert_bind HP as [] s2 H2.
  invert_bind HP as [] s3 H3. injection HP as <- <-.
  invert_bind HF as [] sa Ha. invert_bind HF as [] sb Hb. invert_bind HF as [] sc Hc.
  exists created', s1, s2. split; [exact H1|]. split; [exact H2|].
  unfold afterOwnMembers.
  rewrite (bindM_ok _ _ _ _ _ H3), (bindM_ok _ _ _ _ _ Ha), (bindM_ok _ _ _ _ _ Hb),
    (bindM_ok _ _ _ _ _ Hc), (bindM_ok _ _ _ _ _ HF).
  exact H.
Qed.

Lemma afterOwnMembers_fixed l : preserves (kept fixed every) (afterOwnMembers l).
Proof. frame pass_step. Qed.

Lemma afterOwnMembers_columns l :
  preserves (colkept Col.propertyName) (afterOwnMembers l).
Proof. frame pass_step. Qed.

(** The lineage of an entity metadata is settled when it is created and
    linked to its parent. *)
Definition lineage (x : Ent.t) :=
  (Ent.tableType x, Ent.parentEntityMetadata x, Ent.inheritanceTree x).

Lemma EntityMetadata_build_lineage e :
  preserves (entfixed lineage every) (EntityMetadata_build connection e).
Proof. frame own_step. Qed.

Lemma step1_lineage l e :
  preserves (entfixed lineage every) (computeEntityMetadataStep1 connection storage l e).
Proof. frame own_step. Qed.

Lemma step1_others l e :
  preserves (entfixed Ent.ownColumns (fun e' => e' <> e))
            (computeEntityMetadataStep1 connection storage l e).
Proof. frame own_step. Qed.

Lemma step1_columns l e :
  preserves (colkept Col.propertyName) (computeEntityMetadataStep1 connection storage l e).
Proof. frame own_step. Qed.

End Passes.

(** ** The columns a child of single table inheritance takes from its parent *)

Section InheritedColumns.

Import EntityMetadataBuilder.

Section Run.

Context (connection : Connection) (storage : MetadataArgsStorage.t).

(** The first of the references [l] whose column satisfies [p]. *)
Definition firstColumn (st : Store) (p : Col.t -> bool) (l : list (option nat))
  : option nat :=
  find (fun c => p (columns st !!! c)) (omap id l).

Lemma findColumn_run p l st r st' :
  findColumn p l st = Ok (r, st') -> st' = st /\ r = firstColumn st p l.
Proof.
  unfold firstColumn. induction l as [|[c|] l IH]; simpl.
  - intros [= <- <-]. split; reflexivity.
  - unfold bindM, defined, ret, getColumn.
    destruct (p (columns st !!! c)); [intros [= <- <-]; split; reflexivity | exact IH].
  - discriminate.
Qed.

Lemma firstColumn_elem st p l c : firstColumn st p l = Some c -> Some c ∈ l.
Proof.
  unfold firstColumn. intros H. apply find_some in H as [H _].
  apply list_elem_of_In, list_elem_of_omap in H as (o & Ho & E).
  simpl in E. subst o. exact Ho.
Qed.

Lemma firstColumn_holds st p l c : firstColumn st p l = Some c -> p (columns st !!! c) = true.
Proof. unfold firstColumn. intros H. apply find_some in H as [_ H]. exact H. Qed.

(** Every own column of every entity metadata is a column of the store. *)
Definition allocated (st : Store) (o : option nat) : Prop :=
  forall c, o = Some c -> c < length (columns st).

Definition own_allocated (st : Store) : Prop :=
  forall e, Forall (allocated st) (Ent.ownColumns (entities st !!! e)).

Definition keeps_allocated : relation Store :=
  fun st st' => own_allocated st -> own_allocated st'.

#[local] Instance keeps_allocated_preorder : PreOrder keeps_allocated.
Proof. split; [intros st H; exact H | intros a b c H1 H2 H; exact (H2 (H1 H))]. Qed.

Lemma allocated_mono st st' o :
  length (columns st) <= length (columns st') -> allocated st o -> allocated st' o.
Proof. intros L H c E. specialize (H c E). lia. Qed.

Lemma keeps_allocated_frame {A : Type} (m : M A) :
  (forall st a st', m st = Ok (a, st') ->
     length (columns st) <= length (columns st') /\ entities st' = entities st) ->
  preserves keeps_allocated m.
Proof.
  intros Hm st a st' H W e. destruct (Hm _ _ _ H) as [L E]. rewrite E.
  eapply Forall_impl; [apply W | intros o; apply allocated_mono, L].
Qed.

Lemma own_allocated_update e f st :
  own_allocated st ->
  Forall (allocated st) (Ent.ownColumns (f (entities st !!! e))) ->
  own_allocated (set_entities (<[e := f (entities st !!! e)]> (entities st)) st).
Proof.
  intros W H e'. simpl. destruct (decide (e' = e)) as [->|Hne].
  - destruct (decide (e < length (entities st))) as [He|He].
    + rewrite list_lookup_total_insert_eq by assumption. exact H.
    + rewrite list_insert_ge by lia. apply W.
  - rewrite list_lookup_total_insert_ne by congruence. apply W.
Qed.

Lemma keeps_allocated_updateEntity e f :
  (forall x, Ent.ownColumns (f x) = Ent.ownColumns x) ->
  preserves keeps_allocated (updateEntity e f).
Proof.
  intros Hf st a st' [= _ <-] W. apply own_allocated_update; [exact W|].
  rewrite Hf. apply W.
Qed.

Lemma own_allocated_grow st x :
  own_allocated st -> own_allocated (set_columns (columns st ++ [x]) st).
Proof.
  intros W e. eapply Forall_impl; [apply W|].
  intros o. apply allocated_mono. simpl. rewrite length_app. lia.
Qed.

Lemma pushOwnColumn_allocated e c st st' :
  own_allocated st -> c < length (columns st) ->
  pushOwnColumn e c st = Ok (tt, st') -> own_allocated st'.
Proof.
  intros W Hc [= <-]. apply own_allocated_update; [exact W|].
  replace (Ent.ownColumns _) with (Ent.ownColumns (entities st !!! e) ++ [Some c])
    by (destruct (entities st !!! e); reflexivity).
  apply Forall_app. split; [apply W|].
  apply Forall_singleton. intros c' [= <-]. exact Hc.
Qed.

Lemma keeps_allocated_pushNewOwnColumn e x :
  preserves keeps_allocated (pushNewOwnColumn e x).
Proof.
  intros st a st' H W. unfold pushNewOwnColumn, bindM, newColumn in H.
  destruct a. eapply pushOwnColumn_allocated; [| |exact H].
  - apply own_allocated_grow, W.
  - simpl. rewrite length_app. simpl. lia.
Qed.

(** A computation that yields a column of the store, or none. *)
Definition yields {A : Type} (f : A -> M (option nat)) : Prop :=
  forall x st r st', own_allocated st -> f x st = Ok (r, st') ->
    own_allocated st' /\ allocated st' r /\ length (columns st) <= length (columns st').

Lemma mapA_yields {A : Type} (f : A -> M (option nat)) (l : list A) :
  yields f ->
  forall st rs st', own_allocated st -> mapA f l st = Ok (rs, st') ->
    own_allocated st' /\ Forall (allocated st') rs
    /\ length (columns st) <= length (columns st').
Proof.
  intros Hf. induction l as [|x l IH]; simpl; intros st rs st' W H.
  - injection H as <- <-. repeat split; [exact W | constructor | lia].
  - apply bindM_inv in H as (r & s1 & H1 & H).
    apply bindM_inv in H as (rs' & s2 & H2 & H). injection H as <- <-.
    destruct (Hf _ _ _ _ W H1) as (W1 & A1 & L1).
    destruct (IH _ _ _ W1 H2) as (W2 & A2 & L2).
    repeat split; [exact W2 | | lia].
    constructor; [eapply allocated_mono; eassumption | exact A2].
Qed.

Lemma keeps_allocated_assign {A : Type} (f : A -> M (option nat)) (l : list A) e
    (k : list (option nat) -> M unit) :
  yields f -> (forall rs, preserves keeps_allocated (k rs)) ->
  preserves keeps_allocated
    (bindM (mapA f l)
       (fun rs => bindM (updateEntity e (Ent.set_ownColumns rs)) (fun _ => k rs))).
Proof.
  intros Hf Hk st a st' H W.
  apply bindM_inv in H as (rs & s1 & H1 & H).
  apply bindM_inv in H as ([] & s2 & H2 & H).
  destruct (mapA_yields f l Hf _ _ _ W H1) as (W1 & A1 & _).
  apply (Hk _ _ _ _ H). injection H2 as <-.
  apply own_allocated_update; [exact W1|].
  destruct (entities s1 !!! e); exact A1.
Qed.

Lemma parentOf_run x st parent st' :
  parentOf x st = Ok (parent, st') ->
  exists p, Ent.parentEntityMetadata x = Some p /\ parent = entities st !!! p /\ st' = st.
Proof.
  unfold parentOf, bindM, defined. destruct (Ent.parentEntityMetadata x) as [p|]; [|discriminate].
  intros [= <- <-]. exists p. repeat split.
Qed.

Lemma inherited_allocated x p st parent st1 r st' :
  own_allocated st ->
  parentOf x st = Ok (parent, st1) ->
  findColumn p (Ent.ownColumns parent) st1 = Ok (r, st') ->
  st' = st /\ allocated st r.
Proof.
  intros W Hp H. apply parentOf_run in Hp as (q & _ & -> & ->).
  apply findColumn_run in H as [-> ->]. split; [reflexivity|].
  intros c E. apply firstColumn_elem in E.
  specialize (W q). rewrite Forall_forall in W. exact (W _ E c eq_refl).
Qed.



Lemma keeps_allocated_inherit x p (k : Ent.t -> option nat -> M unit) :
  (forall parent o st a st',
     own_allocated st -> allocated st o -> k parent o st = Ok (a, st') -> own_allocated st') ->
  preserves keeps_allocated
    (bindM (parentOf x)
       (fun parent => bindM (findColumn p (Ent.ownColumns parent)) (k parent))).
Proof.
  intros Hk st a st' H W. inv_bind H. inv_bind H.
  match goal with
  | H1 : parentOf _ _ = _, H2 : findColumn _ _ _ = _ |- _ =>
      destruct (inherited_allocated _ _ _ _ _ _ _ W H1 H2) as [-> A]
  end.
  exact (Hk _ _ _ _ _ W A H).
Qed.

Ltac allocation_step :=
  first
    [ apply keeps_allocated_assign
    | apply keeps_allocated_pushNewOwnColumn
    | apply keeps_allocated_updateEntity; intros []; reflexivity
    | apply keeps_allocated_frame; intros ? ? ? [= _ <-]; simpl;
      split; [rewrite ?length_app, ?length_insert; lia | reflexivity]
    | apply createEmbeddeds_preserves; [typeclasses eauto | intros ? | intros ? ?]
    | apply keeps_allocated_inherit ].

Lemma step1_allocated l e :
  preserves keeps_allocated (computeEntityMetadataStep1 connection storage l e).
Proof.
  unfold computeEntityMetadataStep1, computeEntityMetadataStep1_of.
  frame allocation_step.
  - (* the own columns *)
    intros args st r st' W H. destruct (is_child a).
    + inv_bind H.
      match goal with
      | H1 : parentOf _ _ = _ |- _ =>
          destruct (inherited_allocated _ _ _ _ _ _ _ W H1 H) as [-> A]
      end.
      repeat split; [exact W | exact A | lia].
    + unfold bindM, newColumn in H. rewrite findEntity_find in H.
      assert (L : length (columns st) < length (columns st ++ [ColumnMetadata_new connection args]))
        by (rewrite length_app; simpl; lia).
      destruct (bool_decide _); simpl in H; injection H as <- <-.
      * repeat split.
        -- intros e'. eapply Forall_impl; [apply W|].
           intros o. apply allocated_mono. simpl. rewrite length_insert. lia.
        -- intros c [= <-]. simpl. rewrite length_insert. exact L.
        -- simpl. rewrite length_insert. lia.
      * repeat split.
        -- apply own_allocated_grow, W.
        -- intros c [= <-]. exact L.
        -- simpl. lia.
  - intros rs. frame allocation_step.
    intros parent o st [] st' W A H.
    invert_bind H as current s1 H1. injection H1 as <- <-.
    invert_bind H as [] s2 H2.
    assert (W2 : own_allocated s2).
    { destruct o as [c|]; [|injection H2 as <-; exact W].
      destruct (negb _); [|injection H2 as <-; exact W].
      exact (pushOwnColumn_allocated _ _ _ _ W (A c eq_refl) H2). }
    revert W2. eapply keeps_allocated_updateEntity; [|exact H].
    intros []; cbn; repeat case_match; reflexivity.
Qed.

(** The own columns of [e] are extended at the end, if at all. *)
Definition own_extended (e : nat) : relation Store :=
  fun st st' =>
    Ent.ownColumns (entities st !!! e) `prefix_of` Ent.ownColumns (entities st' !!! e).

#[local] Instance own_extended_preorder e : PreOrder (own_extended e).
Proof.
  split; [intros st; unfold own_extended; reflexivity|].
  intros a b c H1 H2. unfold own_extended in *. etransitivity; eassumption.
Qed.

Lemma own_extended_updateEntity e e' f :
  (forall x, Ent.ownColumns x `prefix_of` Ent.ownColumns (f x)) ->
  preserves (own_extended e) (updateEntity e' f).
Proof.
  intros Hf st a st' [= _ <-]. unfold own_extended. simpl.
  destruct (decide (e = e')) as [->|Hne].
  - destruct (decide (e' < length (entities st))) as [He|He].
    + rewrite list_lookup_total_insert_eq by assumption. apply Hf.
    + rewrite list_insert_ge by lia. reflexivity.
  - rewrite list_lookup_total_insert_ne by congruence. reflexivity.
Qed.

Lemma own_extended_frame {A : Type} e (m : M A) :
  (forall st a st', m st = Ok (a, st') -> entities st' = entities st) ->
  preserves (own_extended e) m.
Proof. intros Hm st a st' H. unfold own_extended. rewrite (Hm _ _ _ H). reflexivity. Qed.

Ltac extension_step :=
  first
    [ apply own_extended_updateEntity; intros []; cbn; repeat case_match;
      first [reflexivity | apply prefix_app_r; reflexivity]
    | apply own_extended_frame; untouched ].

(** The first of the references [l] whose column has the property name. *)
Definition ownColumnNamed (st : Store) (name : string) (l : list (option nat))
  : option nat :=
  firstColumn st (fun column => String.eqb (Col.propertyName column) name) l.

Lemma ownColumnNamed_kept st st' name l :
  colkept Col.propertyName st st' -> Forall (allocated st) l ->
  ownColumnNamed st' name l = ownColumnNamed st name l.
Proof.
  intros [_ HC] Hl. unfold ownColumnNamed, firstColumn.
  induction Hl as [|[c|] l A _ IH]; simpl; [reflexivity | | exact IH].
  rewrite (HC c (A c eq_refl)).
  destruct (String.eqb _ _); [reflexivity | exact IH].
Qed.

Lemma mapA_inherited x p (l : list ColumnArgs.t) st rs st' :
  Ent.parentEntityMetadata x = Some p ->
  mapA (fun args =>
          parent <- parentOf x ;;
          findColumn (fun column => String.eqb (Col.propertyName column)
                                               (ColumnArgs.propertyName args))
                     (Ent.ownColumns parent)) l st = Ok (rs, st') ->
  st' = st /\
  rs = map (fun args => ownColumnNamed st (ColumnArgs.propertyName args)
                          (Ent.ownColumns (entities st !!! p))) l.
Proof.
  intros Hp. revert rs. induction l as [|args l IH]; simpl; intros rs H.
  - injection H as <- <-. split; reflexivity.
  - invert_bind H as r s1 H1. invert_bind H as rs' s2 H2. injection H as <- <-.
    invert_bind H1 as parent s0 H0.
    apply parentOf_run in H0 as (q & Hq & -> & ->).
    apply findColumn_run in H1 as [-> ->].
    destruct (IH _ H2) as [-> ->].
    replace q with p by congruence. split; reflexivity.
Qed.

Lemma inherited_columns l e x p st st' :
  own_allocated st -> e < length (entities st) ->
  is_child x = true -> Ent.parentEntityMetadata x = Some p -> p <> e ->
  computeEntityMetadataStep1_of connection storage l e x st = Ok (tt, st') ->
  map (fun args => ownColumnNamed st (ColumnArgs.propertyName args)
                     (Ent.ownColumns (entities st !!! p)))
      (MetadataArgsStorage.filterColumns storage (Ent.inheritanceTree x))
  `prefix_of` Ent.ownColumns (entities st' !!! e).
Proof.
  intros W He Hc Hp Hne H.
  unfold computeEntityMetadataStep1_of in H. rewrite Hc in H. cbv iota zeta in H.
  invert_bind H as embeddeds s1 H1. invert_bind H as [] s2 H2.
  invert_bind H as [] s3 H3. invert_bind H as rs s4 H4. invert_bind H as [] s5 H5.
  assert (F : entfixed Ent.ownColumns (fun e' => e' <> e) st s3).
  { framed (entfixed Ent.ownColumns (fun e' => e' <> e)) H1 ltac:(frame own_step).
    framed (entfixed Ent.ownColumns (fun e' => e' <> e)) H2 ltac:(frame own_step).
    framed (entfixed Ent.ownColumns (fun e' => e' <> e)) H3 ltac:(frame own_step).
    repeat (etransitivity; [eassumption|]). reflexivity. }
  assert (C : colkept Col.propertyName st s3).
  { framed (colkept Col.propertyName) H1 ltac:(frame own_step).
    framed (colkept Col.propertyName) H2 ltac:(frame own_step).
    framed (colkept Col.propertyName) H3 ltac:(frame own_step).
    repeat (etransitivity; [eassumption|]). reflexivity. }
  destruct (mapA_inherited _ _ _ _ _ _ Hp H4) as [-> ->].
  framed (own_extended e) H ltac:(frame extension_step).
  unfold own_extended in *. injection H5 as <-. simpl in *.
  destruct F as [L F].
  rewrite list_lookup_total_insert_eq in F0 by lia.
  rewrite (F p Hne) in F0.
  erewrite map_ext in F0; [|intros args; apply ownColumnNamed_kept; [exact C | apply W]].
  destruct (entities s3 !!! e); exact F0.
Qed.

Lemma lineage_eq x y :
  lineage x = lineage y ->
  is_child x = is_child y
  /\ Ent.parentEntityMetadata x = Ent.parentEntityMetadata y
  /\ Ent.inheritanceTree x = Ent.inheritanceTree y.
Proof. unfold lineage, is_child. intros [= -> -> ->]. repeat split. Qed.

Lemma children_columns l (children : list nat) :
  forall st st',
  own_allocated st ->
  (forall c, c ∈ children ->
     c < length (entities st) /\ is_child (entities st !!! c) = true) ->
  forEach children (computeEntityMetadataStep1 connection storage l) st = Ok (tt, st') ->
  forall c p,
    c ∈ children ->
    Ent.parentEntityMetadata (entities st !!! c) = Some p ->
    is_child (entities st !!! p) = false ->
    map (fun args => ownColumnNamed st' (ColumnArgs.propertyName args)
                       (Ent.ownColumns (entities st' !!! p)))
        (MetadataArgsStorage.filterColumns storage
           (Ent.inheritanceTree (entities st !!! c)))
    `prefix_of` Ent.ownColumns (entities st' !!! c).
Proof.
  induction children as [|a rest IH]; intros st st' W Hch H c p Hc Hp Hnp.
  - apply elem_of_nil in Hc. contradiction.
  - simpl in H. invert_bind H as [] s1 H1.
    pose proof (step1_lineage connection storage l a _ _ _ H1) as [L1 Flin].
    pose proof (step1_others connection storage l a _ _ _ H1) as [_ Foth].
    pose proof (step1_columns connection storage l a _ _ _ H1) as Fcol.
    pose proof (step1_allocated l a _ _ _ H1 W) as W1.
    destruct (decide (c ∈ rest)) as [Hin|Hnin].
    + destruct (lineage_eq _ _ (Flin c I)) as (_ & E2 & E3).
      destruct (lineage_eq _ _ (Flin p I)) as (E1 & _ & _).
      rewrite <- E3. apply (IH s1 st' W1); [|exact H|exact Hin|congruence|congruence].
      intros c' Hc'. destruct (Hch c') as [Hv Hchild]; [right; exact Hc'|].
      destruct (lineage_eq _ _ (Flin c' I)) as (E & _ & _).
      split; [lia | congruence].
    + apply elem_of_cons in Hc as [->|Hc]; [|contradiction].
      destruct (Hch a) as [Hv Hchild]; [left|].
      assert (Hne : p <> a) by congruence.
      unfold computeEntityMetadataStep1, bindM, getEntity in H1.
      pose proof (inherited_columns l a _ p _ _ W Hv Hchild Hp Hne H1) as P1.
      assert (Frest : entfixed Ent.ownColumns (fun e' => e' ∉ rest) s1 st').
      { framed (entfixed Ent.ownColumns (fun e' => e' ∉ rest)) H
          ltac:(apply preserves_forEach; [typeclasses eauto|]; intros x Hx;
                eapply entfixed_weaken; [|apply step1_others];
                intros e' He' ->; exact (He' Hx)).
        assumption. }
      assert (Crest : colkept Col.propertyName s1 st').
      { framed (colkept Col.propertyName) H
          ltac:(apply preserves_forEach; [typeclasses eauto|]; intros x Hx;
                apply step1_columns).
        assumption. }
      destruct Frest as [_ Frest].
      assert (Hp' : p ∉ rest).
      { intros Hin. destruct (Hch p) as [_ E]; [right; exact Hin|]. congruence. }
      rewrite (Frest a Hnin), (Frest p Hp'), (Foth p Hne).
      erewrite map_ext; [exact P1|].
      intros args. apply ownColumnNamed_kept; [|apply W].
      etransitivity; eassumption.
Qed.

Lemma filterEntities_filter p l st :
  filterEntities p l st = Ok (filter (fun e => p (entities st !!! e) = true) l, st).
Proof.
  induction l as [|e l IH]; simpl; [reflexivity|].
  unfold bindM, getEntity. rewrite IH. simpl. unfold ret. rewrite filter_cons.
  destruct (p (entities st !!! e)); reflexivity.
Qed.

(** A store none of whose entity metadatas has columns or a parent yet. *)
Definition blank (st : Store) : Prop :=
  forall e, Ent.ownColumns (entities st !!! e) = []
            /\ Ent.parentEntityMetadata (entities st !!! e) = None.

Lemma blank_empty : blank empty_store.
Proof. intros e. split; reflexivity. Qed.

Lemma createEntityMetadata_run args st e st' :
  createEntityMetadata connection storage args st = Ok (e, st') ->
  e = length (entities st)
  /\ length (entities st') = S (length (entities st))
  /\ entityMetadatas st' = entityMetadatas st
  /\ (blank st -> blank st').
Proof.
  unfold createEntityMetadata, bindM, newArray, newEntity. simpl.
  intros [= <- <-]. simpl. rewrite length_app. simpl.
  split; [reflexivity|]. split; [lia|]. split; [reflexivity|].
  intros B e'. cbn [entities set_entities set_arrays].
  destruct (decide (e' < length (entities st))) as [He|He].
  - rewrite lookup_total_app_l by exact He. apply B.
  - rewrite lookup_total_app_r by lia.
    destruct (e' - length (entities st)) as [|[|n]]; split; reflexivity.
Qed.

Lemma created_run (l : list TableArgs.t) :
  forall st created st',
  mapA (createEntityMetadata connection storage) l st = Ok (created, st') ->
  Forall (fun e => e < length (entities st')) created
  /\ length (entities st) <= length (entities st')
  /\ entityMetadatas st' = entityMetadatas st
  /\ (blank st -> blank st').
Proof.
  induction l as [|args l IH]; simpl; intros st created st' H.
  - injection H as <- <-.
    split; [constructor|]. split; [lia|]. split; [reflexivity | tauto].
  - invert_bind H as e s1 H1. invert_bind H as es s2 H2. injection H as <- <-.
    apply createEntityMetadata_run in H1 as (-> & L1 & M1 & B1).
    apply IH in H2 as (V & L2 & M2 & B2).
    split; [constructor; [lia | exact V]|].
    split; [lia|]. split; [congruence | tauto].
Qed.

(** The parents are among the entity metadatas [l], and no entity
    metadata has columns. *)
Definition linked (l : list nat) (st : Store) : Prop :=
  forall e, Ent.ownColumns (entities st !!! e) = []
            /\ forall p, Ent.parentEntityMetadata (entities st !!! e) = Some p -> p ∈ l.

Lemma computeParentEntityMetadata_linked l e st st' :
  computeParentEntityMetadata l e st = Ok (tt, st') ->
  linked l st -> linked l st' /\ entfixed Ent.tableType every st st'.
Proof.
  intros H. split.
  - revert H. unfold computeParentEntityMetadata, bindM, getEntity.
    destruct (is_child _); [|intros [= <-]; assumption].
    rewrite findEntity_find. destruct (find _ l) as [q|] eqn:E.
    all: intros [= <-] e'; simpl.
    all: destruct (decide (e' = e)) as [->|Hne];
      [ destruct (decide (e < length (entities st))) as [He|He];
        [ rewrite list_lookup_total_insert_eq by assumption
        | rewrite list_insert_ge by lia; apply H0 ]
      | rewrite list_lookup_total_insert_ne by congruence; apply H0 ].
    all: destruct (H0 e) as [O _]; destruct (entities st !!! e); simpl in *.
    all: split; [exact O|]; intros p' [= <-].
    apply find_some in E as [E _]. apply list_elem_of_In. exact E.
  - revert H. apply (fun P : preserves (entfixed Ent.tableType every) _ => P st tt st').
    frame stable_step.
Qed.

Lemma instantiate_run classes st created s1 :
  instantiate connection storage classes st = Ok (created, s1) ->
  blank st ->
  linked created s1
  /\ Forall (fun e => e < length (entities s1)) created
  /\ entityMetadatas s1 = created.
Proof.
  intros H B. unfold instantiate in H. cbv zeta in H.
  invert_bind H as l sa Ha. invert_bind H as [] sb Hb. invert_bind H as [] sc Hc.
  injection H as <- <-. injection Hb as <-.
  apply created_run in Ha as (V & _ & _ & Ba). specialize (Ba B).
  assert (G : forall (es : list nat) s s',
             forEach es (computeParentEntityMetadata l) s = Ok (tt, s') ->
             linked l s -> linked l s' /\ entfixed Ent.tableType every s s').
  { induction es as [|e es IH]; simpl; intros s s' H K.
    - injection H as <-. split; [exact K | reflexivity].
    - invert_bind H as [] s0 H0.
      destruct (computeParentEntityMetadata_linked _ _ _ _ H0 K) as [K0 F0].
      destruct (IH _ _ H K0) as [K1 F1]. split; [exact K1 | etransitivity; eassumption]. }
  destruct (G _ _ _ Hc) as [K [L _]].
  { intros e. destruct (Ba e) as [O P]. simpl. split; [exact O|]. rewrite P. discriminate. }
  split; [exact K|]. split.
  - rewrite L. exact V.
  - framed same_listing Hc ltac:(frame stable_step). exact F.
Qed.

Lemma EntityMetadata_build_allocated e :
  preserves keeps_allocated (EntityMetadata_build connection e).
Proof. frame allocation_step. Qed.

Lemma buildOwnMembers_run created s1 s2 :
  buildOwnMembers connection storage created s1 = Ok (tt, s2) ->
  linked created s1 ->
  exists sc,
    entfixed lineage every s1 sc
    /\ own_allocated sc
    /\ forEach (filter (fun e => is_child (entities s1 !!! e) = true) created)
               (computeEntityMetadataStep1 connection storage created) sc = Ok (tt, s2).
Proof.
  intros H K. unfold buildOwnMembers in H.
  invert_bind H as nonChildren s H1. rewrite filterEntities_filter in H1.
  injection H1 as <- <-.
  invert_bind H as children s H1. rewrite filterEntities_filter in H1.
  injection H1 as <- <-.
  invert_bind H as [] sa Ha. invert_bind H as [] sb Hb. invert_bind H as [] sc Hc.
  exists sc. split; [|split; [|exact H]].
  - framed (entfixed lineage every) Ha
      ltac:(apply preserves_forEach; [typeclasses eauto|]; intros;
            apply EntityMetadata_build_lineage).
    framed (entfixed lineage every) Hb
      ltac:(apply preserves_forEach; [typeclasses eauto|]; intros;
            apply EntityMetadata_build_lineage).
    framed (entfixed lineage every) Hc
      ltac:(apply preserves_forEach; [typeclasses eauto|]; intros;
            apply step1_lineage).
    repeat (etransitivity; [eassumption|]). reflexivity.
  - framed keeps_allocated Ha
      ltac:(apply preserves_forEach; [typeclasses eauto|]; intros;
            apply EntityMetadata_build_allocated).
    framed keeps_allocated Hb
      ltac:(apply preserves_forEach; [typeclasses eauto|]; intros;
            apply EntityMetadata_build_allocated).
    framed keeps_allocated Hc
      ltac:(apply preserves_forEach; [typeclasses eauto|]; intros;
            apply step1_allocated).
    apply F1, F0, F. intros e. destruct (K e) as [-> _]. constructor.
Qed.

Lemma mapA_defined {A : Type} what (l : list (option A)) st r st' :
  mapA (defined what) l st = Ok (r, st') -> Forall is_Some l.
Proof.
  revert r st st'. induction l as [|[a|] l IH]; simpl; intros r st st' H.
  - constructor.
  - unfold bindM at 1 in H. simpl in H. invert_bind H as r' s H1.
    constructor; [eexists; reflexivity | exact (IH _ _ _ H1)].
  - discriminate.
Qed.

Lemma computeProperties_defined (l : list nat) :
  forall st st',
  computeProperties l st = Ok (tt, st') ->
  forall e, e ∈ l -> e < length (entities st) ->
    Forall is_Some (Ent.ownColumns (entities st !!! e)).
Proof.
  unfold computeProperties.
  induction l as [|a l IH]; intros st st' H e He Hv.
  - apply elem_of_nil in He. contradiction.
  - simpl in H. invert_bind H as [] s1 H1.
    apply elem_of_cons in He as [->|He].
    + unfold computeEntityMetadataStep2 in H1.
      invert_bind H1 as x s0 H0. injection H0 as <- <-.
      invert_bind H1 as r s0 H0. exact (mapA_defined _ _ _ _ _ H0).
    + destruct (step2_fixed a every _ _ _ H1) as [L F].
      assert (E : Ent.ownColumns (entities s1 !!! e) = Ent.ownColumns (entities st !!! e))
        by (specialize (F e I Hv); unfold fixed in F; congruence).
      rewrite <- E. apply (IH _ _ H e He). lia.
Qed.

(** C4. After a successful build, take a child [c] of single table
    inheritance among the entity metadatas created for the tables, and its
    parent [p], itself not a child.  For every column declared in the
    inheritance tree of the child, in the order of the declarations, the
    own column of the child at that position is a reference to a column,
    and it is the reference the parent holds: the first own column of the
    parent with that property name.  The child and the parent hold the
    same object, not two equal ones. *)
Theorem inherited_columns_are_the_parents classes created s1 result st c p :
  instantiate connection storage classes empty_store = Ok (created, s1) ->
  build connection storage classes empty_store = Ok (result, st) ->
  c ∈ created ->
  Ent.tableType (entities st !!! c) = entity_child ->
  Ent.parentEntityMetadata (entities st !!! c) = Some p ->
  Ent.tableType (entities st !!! p) <> entity_child ->
  forall i args,
    MetadataArgsStorage.filterColumns storage
      (Ent.inheritanceTree (entities st !!! c)) !! i = Some args ->
    exists column,
      Ent.ownColumns (entities st !!! c) !! i = Some (Some column)
      /\ ownColumnNamed st (ColumnArgs.propertyName args)
           (Ent.ownColumns (entities st !!! p)) = Some column
      /\ Some column ∈ Ent.ownColumns (entities st !!! p)
      /\ Col.propertyName (columns st !!! column) = ColumnArgs.propertyName args.
Proof.
  intros Hi Hb Hc Hchild Hp Hroot i args Hargs.
  apply build_stages in Hb as (created' & s1' & s2 & Hi' & Hown & Hrest).
  rewrite Hi in Hi'. injection Hi' as <- <-.
  destruct (instantiate_run _ _ _ _ Hi blank_empty) as (K & V & _).
  destruct (buildOwnMembers_run _ _ _ Hown K) as (sc & [L1 F1] & Wc & Hloop).
  rewrite Forall_forall in V.
  pose proof (afterOwnMembers_fixed connection storage _ _ _ _ Hrest) as [L2 F2].
  pose proof (afterOwnMembers_columns connection storage _ _ _ _ Hrest) as C2.
  assert (W2 : own_allocated s2).
  { framed keeps_allocated Hloop
      ltac:(apply preserves_forEach; [typeclasses eauto|]; intros;
            apply step1_allocated).
    exact (F Wc). }
  assert (Lc : entfixed lineage every sc s2).
  { framed (entfixed lineage every) Hloop
      ltac:(apply preserves_forEach; [typeclasses eauto|]; intros;
            apply step1_lineage).
    exact F. }
  destruct Lc as [L3 F3].
  assert (Vc : c < length (entities s2)) by (rewrite L3, L1; exact (V c Hc)).
  assert (Ec : lineage (entities st !!! c) = lineage (entities sc !!! c)).
  { rewrite <- (F3 c I). specialize (F2 c I Vc). unfold fixed in F2. unfold lineage.
    congruence. }
  apply lineage_eq in Ec as (Ec1 & Ec2 & Ec3).
  destruct (lineage_eq _ _ (F1 c I)) as (Ec4 & Ec5 & _).
  assert (Hin : p ∈ created).
  { destruct (K c) as [_ P]. apply P. congruence. }
  assert (Vp : p < length (entities s2)) by (rewrite L3, L1; exact (V p Hin)).
  assert (Ep : lineage (entities st !!! p) = lineage (entities sc !!! p)).
  { rewrite <- (F3 p I). specialize (F2 p I Vp). unfold fixed in F2. unfold lineage.
    congruence. }
  apply lineage_eq in Ep as (Ep1 & _ & _).
  assert (Hchild' : is_child (entities st !!! c) = true)
    by (unfold is_child; rewrite Hchild; reflexivity).
  assert (Hroot' : is_child (entities st !!! p) = false)
    by (unfold is_child; apply bool_decide_eq_false; exact Hroot).
  assert (PF := children_columns created
                  (filter (fun e => is_child (entities s1 !!! e) = true) created)
                  sc s2 Wc).
  specialize (PF ltac:(intros c' Hc'; apply list_elem_of_filter in Hc' as [Hc1 Hc2];
                       destruct (lineage_eq _ _ (F1 c' I)) as (E & _ & _);
                       split; [rewrite L1; exact (V c' Hc2) | congruence])).
  specialize (PF Hloop c p).
  specialize (PF ltac:(apply list_elem_of_filter; split; [congruence | exact Hc])).
  specialize (PF ltac:(congruence) ltac:(congruence)).
  unfold afterOwnMembers in Hrest. invert_bind Hrest as [] s3 H3.
  pose proof (computeProperties_defined _ _ _ H3 c Hc Vc) as D.
  assert (Oc : Ent.ownColumns (entities st !!! c) = Ent.ownColumns (entities s2 !!! c))
    by (specialize (F2 c I Vc); unfold fixed in F2; congruence).
  assert (Op : Ent.ownColumns (entities st !!! p) = Ent.ownColumns (entities s2 !!! p))
    by (specialize (F2 p I Vp); unfold fixed in F2; congruence).
  rewrite <- Ec3 in PF. destruct PF as [k PF].
  assert (Entry : Ent.ownColumns (entities s2 !!! c) !! i =
                  Some (ownColumnNamed s2 (ColumnArgs.propertyName args)
                          (Ent.ownColumns (entities s2 !!! p)))).
  { rewrite PF. apply lookup_app_l_Some. rewrite list_lookup_fmap, Hargs. reflexivity. }
  rewrite Forall_forall in D.
  destruct (D _ (list_elem_of_lookup_2 _ _ _ Entry)) as [column Hcol].
  exists column. rewrite Oc, Op, Entry, (ownColumnNamed_kept _ _ _ _ C2 (W2 p)), Hcol.
  split; [reflexivity|]. split; [reflexivity|]. split.
  - exact (firstColumn_elem _ _ _ _ Hcol).
  - destruct C2 as [_ C2]. rewrite C2.
    + apply String.eqb_eq. exact (firstColumn_holds _ _ _ _ Hcol).
    + apply firstColumn_elem in Hcol. specialize (W2 p).
      rewrite Forall_forall in W2. exact (W2 _ Hcol column eq_refl).
Qed.

End Run.

Lemma inherited_columns_are_the_parents_witness :
  exists st column,
    Samples.run (Samples.inheritance false) = Ok ([0; 1], st)
    /\ Ent.ownColumns (entities st !!! 1) !! 1 = Some (Some column)
    /\ Some column ∈ Ent.ownColumns (entities st !!! 0)
    /\ Col.propertyName (columns st !!! column) = "title".
Proof.
  pose (d := Samples.inheritance false).
  let r := eval vm_compute in (Samples.run d) in
  match r with Ok (_, ?s) => pose (st := s) end.
  let r := eval vm_compute in
    (instantiate (Samples.postgres d) (Samples.storage d) None empty_store) in
  match r with Ok (_, ?s) => pose (s1 := s) end.
  assert (Hi : instantiate (Samples.postgres d) (Samples.storage d) None empty_store
               = Ok ([0; 1], s1)) by (vm_compute; reflexivity).
  assert (Hb : build (Samples.postgres d) (Samples.storage d) None empty_store
               = Ok ([0; 1], st)) by (vm_compute; reflexivity).
  destruct (inherited_columns_are_the_parents
              (Samples.postgres d) (Samples.storage d) None [0; 1] s1 [0; 1] st 1 0 Hi Hb
              ltac:(right; left)
              ltac:(vm_compute; reflexivity)
              ltac:(vm_compute; reflexivity)
              ltac:(vm_compute; discriminate)
              1 (Samples.column Samples.Content "title" false)
              ltac:(vm_compute; reflexivity))
    as (column & H1 & _ & H2 & H3).
  exists st, column. split; [exact Hb|]. split; [exact H1|]. split; [exact H2 | exact H3].
Defined.

End InheritedColumns.

(** ** The junction entity metadatas of the many-to-many relations *)

Section Junctions.

Import EntityMetadataBuilder.

(** What a relation is declared to be. *)
Definition decl (x : Rel.t) := (Rel.target x, Rel.propertyName x, Rel.relationType x).

(** The relations of an entity metadata as the computed properties have
    them: its own, then those of its embeddeds. *)
Definition derive (x : Ent.t) : list nat :=
  omap id (Ent.ownRelations x) ++ flat_map Emb.relationsFromTree (Ent.embeddeds x).

Lemma derive_fixed x y : fixed x = fixed y -> derive x = derive y.
Proof. unfold fixed, derive. intros [= _ _ _ _ _ _ -> ->]. reflexivity. Qed.

(** From the computed properties on: the entity metadatas keep their
    tables and members, the relations what they were declared to be and,
    those that [keep] selects, their junction; the relations of an entity
    metadata are assigned anew only to what they were computed from; and
    the list of entity metadatas of the build grows by junction entity
    metadatas that were not in the store. *)
Definition settled (keep : nat -> Prop) : relation Store :=
  fun st st' =>
    kept fixed every st st'
    /\ relkept decl every st st'
    /\ relkept Rel.junctionEntityMetadata keep st st'
    /\ (forall e, e < length (entities st) ->
          Ent.relations (entities st' !!! e) = Ent.relations (entities st !!! e)
          \/ Ent.relations (entities st' !!! e) = derive (entities st !!! e))
    /\ (forall u, u ∈ entityMetadatas st -> u ∈ entityMetadatas st')
    /\ (forall u, u ∈ entityMetadatas st' ->
          u ∈ entityMetadatas st
          \/ (length (entities st) <= u < length (entities st')
              /\ Ent.isJunction (entities st' !!! u) = true)).

#[local] Instance settled_preorder keep : PreOrder (settled keep).
Proof.
  split.
  - intros st. repeat split; try reflexivity; auto.
  - intros a b c (F1 & D1 & J1 & R1 & S1 & G1) (F2 & D2 & J2 & R2 & S2 & G2).
    split; [etransitivity; eassumption|].
    split; [etransitivity; eassumption|].
    split; [etransitivity; eassumption|].
    destruct F1 as [L1 F1], F2 as [L2 F2].
    split; [|split].
    + intros e He. destruct (R2 e ltac:(lia)) as [E|E]; rewrite E.
      * apply R1, He.
      * right. apply derive_fixed, F1; [exact I | exact He].
    + intros u Hu. apply S2, S1, Hu.
    + intros u Hu. destruct (G2 u Hu) as [Hb|(Hb & Hj)].
      * destruct (G1 u Hb) as [Ha|(Ha & Hj)]; [left; exact Ha|].
        right. split; [lia|].
        specialize (F2 u I ltac:(lia)). unfold fixed in F2.
        injection F2 as _ _ E _ _ _ _ _. congruence.
      * right. split; [lia | exact Hj].
Qed.


Lemma mapA_defined_omap {A : Type} what (l : list (option A)) st r st' :
  mapA (defined what) l st = Ok (r, st') -> st' = st /\ r = omap id l.
Proof.
  revert r. induction l as [|[a|] l IH]; simpl; intros r H.
  - injection H as <- <-. split; reflexivity.
  - unfold bindM at 1 in H. simpl in H. invert_bind H as r' s H1. injection H as <- <-.
    destruct (IH _ H1) as [-> ->]. split; reflexivity.
  - discriminate.
Qed.





(** The computations that only create or change columns and arrays. *)
Definition only_columns : relation Store :=
  fun st st' =>
    entities st' = entities st /\ relations st' = relations st
    /\ entityMetadatas st' = entityMetadatas st.

#[local] Instance only_columns_preorder : PreOrder only_columns.
Proof.
  split; [intros st; repeat split|].
  intros a b c (E1 & R1 & M1) (E2 & R2 & M2). repeat split; congruence.
Qed.

Lemma only_columns_frame {A : Type} (m : M A) :
  (forall st a st', m st = Ok (a, st') ->
     entities st' = entities st /\ relations st' = relations st
     /\ entityMetadatas st' = entityMetadatas st) ->
  preserves only_columns m.
Proof. intros Hm st a st' H. exact (Hm _ _ _ H). Qed.

Ltac columns_step :=
  apply only_columns_frame; intros ? ? ? [= _ <-]; repeat split.

(** A synthesized entity metadata. *)
Definition synthesized (type : TableType) (x : Ent.t) : Prop :=
  Ent.tableType x = type /\ Ent.isJunction x = true
  /\ Ent.relations x = [] /\ derive x = [].

Lemma synthesize_run type table cols idx fks st j st' :
  synthesize type table cols idx fks st = Ok (j, st') ->
  exists x, synthesized type x
    /\ j = length (entities st)
    /\ entities st' = entities st ++ [x]
    /\ relations st' = relations st
    /\ entityMetadatas st' = entityMetadatas st.
Proof.
  unfold synthesize, bindM, newArray, newEntity. intros [= <- <-].
  eexists. split; [|repeat split]. repeat split.
Qed.

Lemma JunctionEntityMetadataBuilder_build_run connection e r joinTable st j st' :
  JunctionEntityMetadataBuilder_build connection e r joinTable st = Ok (j, st') ->
  exists x, synthesized junction x
    /\ j = length (entities st)
    /\ entities st' = entities st ++ [x]
    /\ relations st' = relations st
    /\ entityMetadatas st' = entityMetadatas st.
Proof.
  intros H. unfold JunctionEntityMetadataBuilder_build in H.
  invert_bind H as owner s0 H0. injection H0 as <- <-.
  invert_bind H as relation s0 H0. injection H0 as <- <-.
  invert_bind H as i s0 H0. invert_bind H as inverse s1 H1. injection H1 as <- <-.
  framed_as F0 only_columns H0 ltac:(frame columns_step).
  cbv zeta in H.
  invert_bind H as ownerColumns s2 H2. invert_bind H as inverseColumns s3 H3.
  framed_as F2 only_columns H2 ltac:(frame columns_step).
  framed_as F3 only_columns H3 ltac:(frame columns_step).
  apply synthesize_run in H as (x & Hx & -> & E & R & L).
  assert (F : only_columns st s3) by (etransitivity; [|etransitivity]; eassumption).
  destruct F as (E' & R' & L').
  exists x. rewrite E, R, L, E', R', L'. split; [exact Hx | repeat split].
Qed.

Lemma ClosureJunctionEntityMetadataBuilder_build_run connection e st j st' :
  ClosureJunctionEntityMetadataBuilder_build connection e st = Ok (j, st') ->
  exists x, synthesized closure_junction x
    /\ j = length (entities st)
    /\ entities st' = entities st ++ [x]
    /\ relations st' = relations st
    /\ entityMetadatas st' = entityMetadatas st.
Proof.
  intros H. unfold ClosureJunctionEntityMetadataBuilder_build in H.
  invert_bind H as owner s0 H0. injection H0 as <- <-.
  invert_bind H as ancestors s2 H2. invert_bind H as descendants s3 H3.
  framed_as F2 only_columns H2 ltac:(frame columns_step).
  framed_as F3 only_columns H3 ltac:(frame columns_step).
  apply synthesize_run in H as (x & Hx & -> & E & R & L).
  assert (F : only_columns st s3) by (etransitivity; eassumption).
  destruct F as (E' & R' & L').
  exists x. rewrite E, R, L, E', R', L'. split; [exact Hx | repeat split].
Qed.

(** Some entity metadata of the build that is not a junction has the
    table name. *)
Definition taken (st : Store) (name : string) : Prop :=
  exists u, u ∈ entityMetadatas st
            /\ Ent.isJunction (entities st !!! u) = false
            /\ Ent.tableName (entities st !!! u) = name.

Lemma hasUserDefinedTable_run j st :
  exists b, hasUserDefinedTable j st = Ok (b, st)
            /\ (b = true <-> taken st (Ent.tableName (entities st !!! j))).
Proof.
  unfold hasUserDefinedTable, bindM, getEntity, getEntityMetadatas.
  rewrite findEntity_find. eexists. split; [reflexivity|].
  rewrite bool_decide_eq_true. split.
  - intros [u E]. apply find_some in E as [Hin Hp].
    apply andb_prop in Hp as [Hn Hj]. exists u. split; [|split].
    + apply list_elem_of_In. exact Hin.
    + apply negb_true_iff. exact Hj.
    + apply String.eqb_eq. exact Hn.
  - intros (u & Hin & Hj & Hn).
    destruct (find _ (entityMetadatas st)) as [v|] eqn:E; [eexists; reflexivity|].
    exfalso. apply list_elem_of_In in Hin.
    pose proof (find_none _ _ E u Hin) as N. simpl in N.
    rewrite Hj, Hn, String.eqb_refl in N. discriminate.
Qed.



Section Run.

Context (connection : Connection) (storage : MetadataArgsStorage.t).


































Lemma buildOwnMembers_listing l :
  preserves same_listing (buildOwnMembers connection storage l).
Proof. frame own_step. Qed.

Lemma buildOwnMembers_entities l :
  preserves (entfixed (fun _ : Ent.t => tt) every) (buildOwnMembers connection storage l).
Proof. frame own_step. Qed.

(** No relation has a junction yet. *)
Definition unjoined (st : Store) : Prop :=
  forall r, Rel.junctionEntityMetadata (relations st !!! r) = None.

Definition stays_unjoined : relation Store := fun st st' => unjoined st -> unjoined st'.

#[local] Instance stays_unjoined_preorder : PreOrder stays_unjoined.
Proof. split; [intros st H; exact H | intros a b c H1 H2 H; exact (H2 (H1 H))]. Qed.








End Run.


End Junctions.

(* ===================================================================== *)
(** * Properties of the names, the defaults and the parameters *)

Section StringFacts.

Import JsString.

Lemma split_nonempty sep s : split sep s <> [].
Proof.
  destruct s as [|a s]; simpl; [discriminate|].
  destruct (Ascii.eqb a sep); [discriminate|].
  destruct (split sep s); discriminate.
Qed.

Lemma join_split sep s : join (String sep "") (split sep s) = s.
Proof.
  induction s as [|a s IH]; simpl; [reflexivity|].
  destruct (Ascii.eqb a sep) eqn:E.
  - apply Ascii.eqb_eq in E. subst a.
    pose proof (split_nonempty sep s) as N.
    destruct (split sep s) as [|x l]; [contradiction|].
    simpl in *. rewrite IH. reflexivity.
  - pose proof (split_nonempty sep s) as N.
    destruct (split sep s) as [|x l]; [contradiction|].
    destruct l as [|y l]; simpl in *; rewrite <- IH; reflexivity.
Qed.

Lemma split_free sep s : Forall (fun x => includes sep x = false) (split sep s).
Proof.
  induction s as [|a s IH]; simpl; [repeat constructor|].
  destruct (Ascii.eqb a sep) eqn:E; [constructor; [reflexivity | exact IH]|].
  destruct (split sep s) as [|x l]; [repeat constructor; simpl; rewrite E; reflexivity|].
  inversion IH as [|? ? Hx Hl]; subst. constructor; [|exact Hl].
  simpl. rewrite E, Hx. reflexivity.
Qed.

Lemma split_cons_free sep x y :
  includes sep x = false -> split sep (x +:+ String sep y) = x :: split sep y.
Proof.
  induction x as [|a x IH]; simpl; intros H.
  - rewrite Ascii.eqb_refl. reflexivity.
  - apply orb_false_iff in H as [E H]. rewrite E, (IH H). reflexivity.
Qed.

Lemma split_one sep x : includes sep x = false -> split sep x = [x].
Proof.
  induction x as [|a x IH]; simpl; intros H; [reflexivity|].
  apply orb_false_iff in H as [E H]. rewrite E, (IH H). reflexivity.
Qed.

Lemma split_join sep (l : list string) :
  l <> [] -> Forall (fun x => includes sep x = false) l ->
  split sep (join (String sep "") l) = l.
Proof.
  induction l as [|x l IH]; intros N H; [contradiction|].
  inversion H as [|? ? Hx Hl]; subst.
  destruct l as [|y l]; [simpl; apply split_one, Hx|].
  change (join (String sep "") (x :: y :: l))
    with (x +:+ String sep (join (String sep "") (y :: l))).
  rewrite (split_cons_free _ _ _ Hx), IH; [reflexivity | discriminate | exact Hl].
Qed.

End StringFacts.

Section SchemaFacts.

Import JsString PostgresDriverSchema.

Lemma normalizeType_other (n : string) :
  n ∉ ["int"; "int4"; "varchar"; "timestamp"; "timestamptz"; "time"; "timetz"; "bool";
       "simple-array"; "simple-json"; "simple-enum"; "int2"; "int8"; "decimal";
       "float8"; "float"; "float4"; "char"; "varbit"] ->
  normalizeType (Some (PostgresDriver.TName n)) = n.
Proof.
  intros H. unfold normalizeType, typeIs.
  repeat match goal with
  | |- context [bool_decide (Some (PostgresDriver.TName n) = Some ?t)] =>
      rewrite (bool_decide_eq_false_2 (Some (PostgresDriver.TName n) = Some t))
        by (intros [= E]; try (apply H; rewrite E; repeat first [left | right]))
  end.
  reflexivity.
Qed.

(** X1. Normalizing the type of a column a second time changes nothing:
    the name [normalizeType] returns is the name of a type it returns as
    it is. *)
Theorem normalizeType_idempotent (type : option PostgresDriver.ColumnType) :
  normalizeType (Some (PostgresDriver.TName (normalizeType type))) = normalizeType type.
Proof.
  destruct type as [[| | | |n]|]; try reflexivity.
  destruct (decide (n ∈ ["int"; "int4"; "varchar"; "timestamp"; "timestamptz"; "time";
                         "timetz"; "bool"; "simple-array"; "simple-json"; "simple-enum";
                         "int2"; "int8"; "decimal"; "float8"; "float"; "float4"; "char";
                         "varbit"])) as [Hin|Hout].
  - repeat (apply elem_of_cons in Hin as [->|Hin]; [reflexivity|]).
    apply elem_of_nil in Hin. contradiction.
  - rewrite (normalizeType_other n Hout). apply normalizeType_other, Hout.
Qed.

(** X2. A table name built from a table and a schema parses back into
    them, when neither contains a dot; built without a schema, it parses
    into the schema of the driver. *)
Theorem parseTableName_buildTableName driver (tableName : string) (schema : option string) :
  includes "." tableName = false ->
  (forall s, schema = Some s -> includes "." s = false) ->
  parseTableName driver (OfString (buildTableName tableName schema))
  = {| tn_database := database driver;
       tn_schema := or_else schema (PostgresDriverSchema.schema driver);
       tn_tableName := tableName |}.
Proof.
  intros Ht Hs. unfold parseTableName, parsePath, buildTableName.
  destruct schema as [[|a s]|].
  - simpl join. rewrite (split_one _ _ Ht). reflexivity.
  - change (join "." [String a s; tableName]) with (String a s +:+ String "." tableName).
    rewrite (split_cons_free _ _ _ (Hs _ eq_refl)), (split_one _ _ Ht). reflexivity.
  - simpl join. rewrite (split_one _ _ Ht). reflexivity.
Qed.

Lemma parseTableName_buildTableName_witness :
  parseTableName {| database := Some "app"; schema := Some "public";
                    parametersPrefix := "$" |}
                 (OfString (buildTableName "user" (Some "audit")))
  = {| tn_database := Some "app"; tn_schema := Some "audit"; tn_tableName := "user" |}.
Proof.
  apply (parseTableName_buildTableName
           {| database := Some "app"; schema := Some "public";
              parametersPrefix := "$" |} "user" (Some "audit")).
  - reflexivity.
  - intros s [= <-]. reflexivity.
Defined.

Lemma parsePath_free driver (target : string) :
  includes "." (tn_tableName (parsePath driver target)) = false.
Proof.
  unfold parsePath. simpl.
  pose proof (split_free "." target) as F. rewrite Forall_forall in F.
  destruct (1 <? length (split "." target)).
  - destruct (split "." target !! 1) as [x|] eqn:E; [|reflexivity].
    apply F. exact (list_elem_of_lookup_2 _ _ _ E).
  - destruct (split "." target !! 0) as [x|] eqn:E; [|reflexivity].
    apply F. exact (list_elem_of_lookup_2 _ _ _ E).
Qed.

(** X3. The table name [parseTableName] returns for a table, a view, a
    foreign key or a string is never a path: it contains no dot.  Of a
    path of three parts the second is the table, the third is lost. *)
Theorem parseTableName_never_a_path driver (target : TableTarget) :
  (forall database schema tableName,
     target <> OfEntityMetadata database schema tableName) ->
  includes "." (tn_tableName (parseTableName driver target)) = false.
Proof.
  intros H. destruct target as [name d s|name d s|d s t|target].
  - exact (parsePath_free driver name).
  - exact (parsePath_free driver name).
  - exfalso. exact (H d s t eq_refl).
  - exact (parsePath_free driver target).
Qed.

Lemma parseTableName_never_a_path_witness :
  includes "."
    (tn_tableName (parseTableName {| database := None; schema := None;
                                     parametersPrefix := "$" |}
                                  (OfString "db.audit.user"))) = false
  /\ tn_tableName (parseTableName {| database := None; schema := None;
                                     parametersPrefix := "$" |}
                                  (OfString "db.audit.user")) = "audit".
Proof.
  split; [|reflexivity].
  apply parseTableName_never_a_path. intros d s t. discriminate.
Defined.

End SchemaFacts.

Section DefaultFacts.

Import JsString PostgresDriverSchema.

Lemma lower_idempotent (a : ascii) : lower (lower a) = lower a.
Proof. destruct a as [[] [] [] [] [] [] [] []]; reflexivity. Qed.

Lemma lower_quote (a : ascii) : Ascii.eqb (lower a) "'" = Ascii.eqb a "'".
Proof. destruct a as [[] [] [] [] [] [] [] []]; reflexivity. Qed.

Lemma toLowerCase_idempotent (s : string) : toLowerCase (toLowerCase s) = toLowerCase s.
Proof.
  induction s as [|a s IH]; simpl; [reflexivity|].
  rewrite lower_idempotent, IH. reflexivity.
Qed.

Lemma toLowerCase_quote (s : string) : includes "'" (toLowerCase s) = includes "'" s.
Proof.
  induction s as [|a s IH]; simpl; [reflexivity|].
  rewrite lower_quote, IH. reflexivity.
Qed.

(** The [map] of [lowerDefaultValueIfNecessary]: the parts at the odd
    places, which stand between quotes, are kept. *)
Definition outside (i : nat) (v : string) : string :=
  if Nat.odd i then v else toLowerCase v.

Lemma imap_idempotent {A : Type} (l : list A) :
  forall f : nat -> A -> A,
    (forall i v, f i (f i v) = f i v) -> imap f (imap f l) = imap f l.
Proof.
  induction l as [|x l IH]; intros f H; simpl; [reflexivity|].
  rewrite H. f_equal. apply IH. intros i v. apply H.
Qed.

Lemma imap_Forall {A : Type} (P : A -> Prop) (l : list A) :
  forall f : nat -> A -> A,
    (forall i v, P v -> P (f i v)) -> Forall P l -> Forall P (imap f l).
Proof.
  induction l as [|x l IH]; intros f H F; simpl; [constructor|].
  inversion F; subst. constructor; [apply H; assumption|].
  apply IH; [intros i v; apply H | assumption].
Qed.

Lemma outside_idempotent i v : outside i (outside i v) = outside i v.
Proof. unfold outside. destruct (Nat.odd i); [reflexivity | apply toLowerCase_idempotent]. Qed.

Lemma outside_free i v : includes "'" v = false -> includes "'" (outside i v) = false.
Proof. unfold outside. destruct (Nat.odd i); [tauto | now rewrite toLowerCase_quote]. Qed.

Lemma lowerDefaultValueIfNecessary_parts (value : string) :
  lowerDefaultValueIfNecessary (Some value)
  = Some (join "'" (imap outside (split "'" value))).
Proof. destruct value; reflexivity. Qed.

Lemma lowerDefaultValueIfNecessary_join (parts : list string) :
  parts <> [] -> Forall (fun x => includes "'" x = false) parts ->
  lowerDefaultValueIfNecessary (Some (join "'" parts))
  = Some (join "'" (imap outside parts)).
Proof.
  intros N F. rewrite lowerDefaultValueIfNecessary_parts, split_join by assumption.
  reflexivity.
Qed.

(** X4. Lowering a default value a second time changes nothing. *)
Theorem lowerDefaultValueIfNecessary_idempotent (value : option string) :
  lowerDefaultValueIfNecessary (lowerDefaultValueIfNecessary value)
  = lowerDefaultValueIfNecessary value.
Proof.
  destruct value as [value|]; [|reflexivity].
  rewrite lowerDefaultValueIfNecessary_parts, lowerDefaultValueIfNecessary_join.
  - rewrite imap_idempotent by apply outside_idempotent. reflexivity.
  - pose proof (split_nonempty "'" value) as N.
    destruct (split "'" value); [contradiction | discriminate].
  - apply imap_Forall; [intros i v; apply outside_free | apply split_free].
Qed.

(** X5. In a default value the text between two single quotes is kept
    as it is written, the text before and after it is put into lower
    case. *)
Theorem lowerDefaultValueIfNecessary_keeps_literal (before literal after : string) :
  includes "'" before = false ->
  includes "'" literal = false ->
  includes "'" after = false ->
  lowerDefaultValueIfNecessary
    (Some (before +:+ "'" +:+ literal +:+ "'" +:+ after))
  = Some (toLowerCase before +:+ "'" +:+ literal +:+ "'" +:+ toLowerCase after).
Proof.
  intros Hb Hl Ha.
  exact (lowerDefaultValueIfNecessary_join [before; literal; after]
           ltac:(discriminate) ltac:(repeat constructor; assumption)).
Qed.

Lemma lowerDefaultValueIfNecessary_keeps_literal_witness :
  lowerDefaultValueIfNecessary (Some "NEXTVAL('Seq_A'::regclass)")
  = Some "nextval('Seq_A'::regclass)".
Proof.
  apply (lowerDefaultValueIfNecessary_keeps_literal "NEXTVAL(" "Seq_A" "::regclass)");
    reflexivity.
Defined.

End DefaultFacts.

Section CommentFacts.

Import JsString PostgresDriverSchema.

(** The text without the characters that satisfy [p]. *)
Fixpoint without (p : ascii -> bool) (s : string) : string :=
  match s with
  | EmptyString => ""
  | String a s' => if p a then without p s' else String a (without p s')
  end.

Lemma scan_without (p : ascii -> bool) (s : string) :
  forall fuel, String.length s < fuel ->
    concat_pieces (fun _ => "") (scan fuel (RChar p) 0 s) = without p s.
Proof.
  induction s as [|a s IH]; intros [|fuel] H; simpl in *; try lia; [reflexivity|].
  destruct (p a); simpl.
  - replace (String.length s <? S (String.length s)) with true
      by (symmetry; apply Nat.ltb_lt; lia).
    apply IH. lia.
  - f_equal. apply IH. lia.
Qed.

Lemma without_free (a : ascii) (s : string) :
  includes a (without (Ascii.eqb a) s) = false.
Proof.
  induction s as [|b s IH]; simpl; [reflexivity|].
  destruct (Ascii.eqb a b) eqn:E; [exact IH|].
  simpl. rewrite Ascii.eqb_sym, E. exact IH.
Qed.

Lemma without_id (a : ascii) (s : string) :
  includes a s = false -> without (Ascii.eqb a) s = s.
Proof.
  induction s as [|b s IH]; simpl; intros H; [reflexivity|].
  apply orb_false_iff in H as [E H]. rewrite Ascii.eqb_sym, E, (IH H). reflexivity.
Qed.

(** X6. An escaped comment is the comment without its null characters,
    the other characters in their order; no null character is left. *)
Theorem escapeComment_removes_null (comment : string) :
  escapeComment (Some comment) = Some (without (Ascii.eqb zero) comment)
  /\ includes zero (without (Ascii.eqb zero) comment) = false.
Proof.
  split; [|apply without_free].
  destruct comment as [|a c]; [reflexivity|].
  unfold escapeComment, replace_g, matchAll. rewrite scan_without by lia. reflexivity.
Qed.

End CommentFacts.

Section LtreeFacts.

Import JsString PostgresDriverLtree.

(** The rest of a text after its longest prefix in the class [p]. *)
Fixpoint skip (p : ascii -> bool) (s : string) : string :=
  match s with
  | EmptyString => ""
  | String a s' => if p a then skip p s' else s
  end.

Lemma skip_length p s : String.length (skip p s) <= String.length s.
Proof.
  induction s as [|a s IH]; simpl; [lia|]. destruct (p a); simpl; lia.
Qed.

(** A greedy star over a class takes the longest prefix, when what
    follows the star accepts every rest. *)
Lemma rmatch_star_char (R : Type) (p : ascii -> bool) (k : string -> caps -> option R) :
  (forall s c, k s c <> None) ->
  forall s c, rmatch R (RStar (RChar p)) s c k = k (skip p s) c.
Proof.
  intros Hk s. induction s as [|a s IH]; intros c; rewrite rmatch_star.
  - reflexivity.
  - rewrite rmatch_char. simpl skip. destruct (p a); [|reflexivity].
    replace (String.length s <? String.length (String a s)) with true
      by (symmetry; apply Nat.ltb_lt; simpl; lia).
    rewrite IH. destruct (k (skip p s) c) eqn:E; [reflexivity|].
    exfalso. exact (Hk _ _ E).
Qed.

(** Every run of characters of the class [p] replaced by one underscore:
    a character of the class gives the underscore when it is the last of
    its run. *)
Fixpoint squeeze (p : ascii -> bool) (s : string) : string :=
  match s with
  | EmptyString => ""
  | String a s' =>
      if p a then
        match s' with
        | String b _ => if p b then squeeze p s' else String "_" (squeeze p s')
        | EmptyString => "_"
        end
      else String a (squeeze p s')
  end.

Lemma squeeze_run p a s :
  p a = true -> squeeze p (String a s) = String "_" (squeeze p (skip p s)).
Proof.
  intros Ha. revert a Ha. induction s as [|b s IH]; intros a Ha.
  - simpl. rewrite Ha. reflexivity.
  - destruct (p b) eqn:Hb.
    + transitivity (squeeze p (String b s)); [simpl; rewrite Ha, Hb; reflexivity|].
      rewrite (IH b Hb). simpl. rewrite Hb. reflexivity.
    + cbn [skip]. rewrite Hb. cbn [squeeze]. rewrite Ha, Hb. reflexivity.
Qed.

Lemma scan_squeeze (p : ascii -> bool) :
  forall fuel s, String.length s < fuel ->
    concat_pieces (fun _ => "_") (scan fuel (RSeq (RChar p) (RStar (RChar p))) 0 s)
    = squeeze p s.
Proof.
  induction fuel as [|fuel IH]; intros s H; [lia|].
  rewrite scan_S, rmatch_seq. destruct s as [|a s]; [reflexivity|].
  rewrite rmatch_char. destruct (p a) eqn:Ha.
  - rewrite rmatch_star_char by discriminate.
    pose proof (skip_length p s) as L.
    replace (String.length (skip p s) <? String.length (String a s)) with true
      by (symmetry; apply Nat.ltb_lt; simpl; lia).
    cbn [concat_pieces]. rewrite IH by (simpl in H; lia).
    rewrite (squeeze_run p a s Ha). reflexivity.
  - cbn [concat_pieces]. rewrite IH by (simpl in H; lia).
    simpl. rewrite Ha. reflexivity.
Qed.

(** [any_in p s]: a character of [s] is in the class [p]. *)
Fixpoint any_in (p : ascii -> bool) (s : string) : bool :=
  match s with
  | EmptyString => false
  | String a s' => p a || any_in p s'
  end.

Section Squeeze.

Variable p : ascii -> bool.
Hypothesis underscore : p "_" = false.

Lemma squeeze_free (s : string) : any_in p (squeeze p s) = false.
Proof.
  induction s as [|a s IH]; [reflexivity|].
  cbn [squeeze]. destruct (p a) eqn:Ha.
  - destruct s as [|b s]; [simpl; rewrite underscore; reflexivity|].
    destruct (p b); [exact IH|].
    cbn [any_in]. rewrite underscore. exact IH.
  - cbn [any_in]. rewrite Ha. exact IH.
Qed.

Lemma squeeze_id (s : string) : any_in p s = false -> squeeze p s = s.
Proof.
  induction s as [|a s IH]; [reflexivity|].
  cbn [any_in squeeze]. intros H. apply orb_false_iff in H as [Ha H].
  rewrite Ha, (IH H). reflexivity.
Qed.

Lemma squeeze_empty (s : string) : squeeze p s = "" -> s = "".
Proof.
  induction s as [|a s IH]; [reflexivity|].
  cbn [squeeze]. destruct (p a); [|discriminate].
  destruct s as [|b s]; [discriminate|].
  destruct (p b); [|discriminate]. intros H. discriminate (IH H).
Qed.

Variable sep : ascii.
Hypothesis separator : p sep = false.
Hypothesis distinct : Ascii.eqb "_" sep = false.

Lemma split_squeeze (s : string) :
  split sep (squeeze p s) = map (squeeze p) (split sep s).
Proof.
  induction s as [|a s IH]; [reflexivity|].
  pose proof (split_nonempty sep s) as N.
  destruct (Ascii.eqb a sep) eqn:E.
  - apply Ascii.eqb_eq in E. subst a.
    cbn [squeeze split]. rewrite separator. cbn [split].
    rewrite Ascii.eqb_refl, IH. reflexivity.
  - destruct (p a) eqn:Ha.
    + destruct s as [|b s].
      * simpl. rewrite Ha, E. simpl. rewrite distinct, Ha. reflexivity.
      * change (squeeze p (String a (String b s)))
          with (if p a then if p b then squeeze p (String b s)
                            else String "_" (squeeze p (String b s))
                else String a (squeeze p (String b s))).
        rewrite Ha. cbn [split] in *. rewrite E.
        destruct (Ascii.eqb b sep) eqn:Eb.
        -- apply Ascii.eqb_eq in Eb. subst b. rewrite separator.
           cbn [split]. rewrite distinct, IH. cbn [map squeeze]. rewrite Ha. reflexivity.
        -- destruct (split sep s) as [|x l] eqn:S; [destruct (split_nonempty _ _ S)|].
           destruct (p b) eqn:Hb.
           ++ rewrite IH. cbn [map squeeze]. rewrite Ha, Hb. reflexivity.
           ++ cbn [split]. rewrite distinct, IH. cbn [map squeeze].
              rewrite Ha, Hb. reflexivity.
    + cbn [squeeze split]. rewrite Ha, E. cbn [split]. rewrite E, IH.
      destruct (split sep s) as [|x l]; [contradiction|].
      cbn [map squeeze]. rewrite Ha. reflexivity.
Qed.

End Squeeze.

(** The labels of a path: its parts between dots that are not empty. *)
Definition labels (s : string) : list string :=
  filter (fun label => label <> "") (split "." s).

Lemma ltreeToString_squeeze (s : string) :
  ltreeToString (VStr s) = Ok (VStr (squeeze whitespace (join "." (labels s)))).
Proof.
  unfold ltreeToString, replace_g, matchAll. rewrite scan_squeeze by lia. reflexivity.
Qed.

Lemma filter_all {A : Type} (P : A -> Prop) `{forall x, Decision (P x)} (l : list A) :
  Forall P l -> filter P l = l.
Proof.
  induction 1 as [|x l Hx _ IH]; [reflexivity|].
  rewrite filter_cons_True by exact Hx. rewrite IH. reflexivity.
Qed.

Lemma labels_free (s : string) : Forall (fun x => includes "." x = false) (labels s).
Proof.
  apply Forall_forall. intros x Hx. apply list_elem_of_filter in Hx as [_ Hx].
  pose proof (split_free "." s) as F. rewrite Forall_forall in F. exact (F x Hx).
Qed.

Lemma labels_filled (s : string) : Forall (fun x => x <> "") (labels s).
Proof.
  apply Forall_forall. intros x Hx. apply list_elem_of_filter in Hx as [Hx _]. exact Hx.
Qed.

(** The labels of a written path are those of the value, each with its
    runs of white space replaced. *)
Lemma labels_squeeze (s : string) :
  labels (squeeze whitespace (join "." (labels s))) = map (squeeze whitespace) (labels s)
  /\ (labels s <> [] ->
      split "." (squeeze whitespace (join "." (labels s)))
      = map (squeeze whitespace) (labels s)).
Proof.
  assert (F : Forall (fun x => x <> "") (map (squeeze whitespace) (labels s))).
  { apply Forall_map. eapply Forall_impl; [apply labels_filled|].
    intros x Hx E. exact (Hx (squeeze_empty _ _ E)). }
  destruct (labels s) as [|x l] eqn:L.
  - split; [reflexivity | contradiction].
  - assert (E : split "." (squeeze whitespace (join "." (x :: l)))
                = map (squeeze whitespace) (x :: l)).
    { rewrite split_squeeze by reflexivity. rewrite split_join; [reflexivity | discriminate|].
      rewrite <- L. apply labels_free. }
    split; [|intros _; exact E].
    unfold labels at 1. rewrite E. apply filter_all. exact F.
Qed.

(** What is written: the labels of the value put together, their runs
    of white space replaced. *)
Definition ltreePath (s : string) : string :=
  squeeze whitespace (join "." (labels s)).

Lemma written_labels (s : string) : join "." (labels (ltreePath s)) = ltreePath s.
Proof.
  unfold ltreePath. destruct (labels_squeeze s) as [E1 E2]. rewrite E1.
  destruct (labels s) as [|x l] eqn:L; [reflexivity|].
  rewrite <- E2 by discriminate. apply join_split.
Qed.

(** X7. A text written to an ltree column has no white space and no
    empty label: it neither begins nor ends with a dot and has no two
    dots in a row, so that putting its labels together gives it again. *)
Theorem ltreeToString_labels (s : string) :
  exists written,
    ltreeToString (VStr s) = Ok (VStr written)
    /\ any_in whitespace written = false
    /\ join "." (labels written) = written.
Proof.
  exists (ltreePath s). split; [apply ltreeToString_squeeze|]. split.
  - apply squeeze_free. reflexivity.
  - apply written_labels.
Qed.

(** X8. Writing to an ltree column what was written to it gives the same
    text. *)
Theorem ltreeToString_idempotent (s : string) :
  (let* written := ltreeToString (VStr s) in ltreeToString written)
  = ltreeToString (VStr s).
Proof.
  rewrite (ltreeToString_squeeze s). cbn [bind].
  rewrite ltreeToString_squeeze. fold (ltreePath s). rewrite written_labels.
  unfold ltreePath at 1. rewrite squeeze_id; [reflexivity|].
  apply squeeze_free. reflexivity.
Qed.

End LtreeFacts.

Section ScanFacts.

(** A matcher calls its continuation on a later position of the subject,
    with as many captures as it was given. *)
Definition forward {R : Type} (m : Matcher R) : Prop :=
  forall s c k x,
    m s c k = Some x ->
    exists t s' c', s = t +:+ s' /\ length c' = length c /\ k s' c' = Some x.

Lemma star_loop_forward {R : Type} (m : Matcher R) (Hm : forward m) fuel :
  forward (fun s c k => star_loop m k fuel s c).
Proof.
  induction fuel as [|fuel IH]; intros s c k x H; simpl in H.
  - exists "", s, c. auto.
  - destruct (m s c _) as [y|] eqn:E.
    + injection H as ->. apply Hm in E as (t & s1 & c1 & -> & L1 & E).
      destruct (_ <? _); [|discriminate].
      apply IH in E as (t' & s' & c' & -> & L' & E).
      exists (t +:+ t'), s', c'. rewrite append_assoc. split; [reflexivity|].
      split; [congruence | exact E].
    + exists "", s, c. auto.
Qed.

Lemma rmatch_forward (r : regex) : forall R : Type, forward (rmatch R r).
Proof.
  induction r as [p| |r1 IH1 r2 IH2|r1 IH1 r2 IH2|r1 IH1|i r1 IH1|r1 IH1|];
    intros R s c k x H; [simpl in H .. | | simpl in H | simpl in H | simpl in H].
  - destruct s as [|a s]; [discriminate|]. destruct (p a); [|discriminate].
    exists (String a ""), s, c. auto.
  - exists "", s, c. auto.
  - apply IH1 in H as (t1 & s1 & c1 & -> & L1 & H).
    apply IH2 in H as (t2 & s2 & c2 & -> & L2 & H).
    exists (t1 +:+ t2), s2, c2. rewrite append_assoc.
    split; [reflexivity|]. split; [congruence | exact H].
  - destruct (rmatch R r1 s c k) as [y|] eqn:E.
    + injection H as ->. exact (IH1 _ _ _ _ _ E).
    + exact (IH2 _ _ _ _ _ H).
  - exact (star_loop_forward _ (IH1 R) (S (String.length s)) s c k x H).
  - apply IH1 in H as (t1 & s1 & c1 & -> & L1 & H).
    exists t1, s1, (<[i := Some (matched (t1 +:+ s1) s1)]> c1).
    rewrite length_insert. auto.
  - destruct (rmatch caps r1 s c _) as [c1|] eqn:E; [|discriminate].
    apply IH1 in E as (t1 & s1 & c1' & _ & L1 & [= ->]).
    exists "", s, c1. auto.
  - destruct s; [|discriminate]. exists "", "", c. auto.
Qed.

(** What one search finds at a position: nothing, or the match, its
    captures and the rest of the subject. *)
Lemma search_outcome (r : regex) (groups : nat) (s : string) :
  rmatch (caps * string) r s (replicate (S groups) None) (fun s' c => Some (c, s')) = None
  \/ exists t s' c,
       rmatch (caps * string) r s (replicate (S groups) None) (fun s' c => Some (c, s'))
       = Some (c, s')
       /\ s = t +:+ s' /\ group 0 (<[0 := Some (matched s s')]> c) = Some t.
Proof.
  destruct (rmatch _ r s _ _) as [[c s']|] eqn:E; [right | left; reflexivity].
  apply rmatch_forward in E as (t & s1 & c1 & -> & L & [= -> ->]).
  exists t, s', c. split; [reflexivity|]. split; [reflexivity|].
  rewrite matched_append. rewrite length_replicate in L.
  destruct c as [|g c]; [discriminate L | reflexivity].
Qed.

Lemma append_length_le (t s : string) :
  String.length s <= String.length (t +:+ s).
Proof. rewrite length_append. lia. Qed.

Lemma append_same_length (t s : string) :
  ~ String.length s < String.length (t +:+ s) -> t = "".
Proof.
  rewrite length_append. destruct t; [reflexivity | simpl; lia].
Qed.

(** The search does not depend on the fuel, once there is enough. *)
Lemma scan_fuel (r : regex) (groups : nat) :
  forall n1 n2 s, String.length s < n1 -> String.length s < n2 ->
    scan n1 r groups s = scan n2 r groups s.
Proof.
  induction n1 as [|n1 IH]; intros n2 s H1 H2; [lia|].
  destruct n2 as [|n2]; [lia|]. rewrite !scan_S.
  destruct (search_outcome r groups s) as [E|(t & s' & c & E & -> & _)]; rewrite E.
  - destruct s as [|a s]; [reflexivity|]. simpl in *. f_equal. apply IH; lia.
  - f_equal. destruct (_ <? _) eqn:L.
    + apply Nat.ltb_lt in L. apply IH; lia.
    + destruct (t +:+ s') as [|a s]; [reflexivity|]. simpl in *. f_equal. apply IH; lia.
Qed.

Lemma matchAll_cons_skip (r : regex) (groups : nat) (a : ascii) (s : string) :
  rmatch (caps * string) r (String a s) (replicate (S groups) None)
         (fun s' c => Some (c, s')) = None ->
  matchAll r groups (String a s) = Skip a :: matchAll r groups s.
Proof.
  intros E. unfold matchAll. rewrite scan_S, E. reflexivity.
Qed.

Lemma matchAll_cons_match (r : regex) (groups : nat) (t s : string) (c : caps) :
  t <> "" ->
  rmatch (caps * string) r (t +:+ s) (replicate (S groups) None)
         (fun s' c => Some (c, s')) = Some (c, s) ->
  matchAll r groups (t +:+ s) = Match (<[0 := Some t]> c) :: matchAll r groups s.
Proof.
  intros N E. unfold matchAll. rewrite scan_S, E, matched_append. f_equal.
  assert (L : String.length s < String.length (t +:+ s)).
  { rewrite length_append. destruct t; [contradiction | simpl; lia]. }
  replace (String.length s <? String.length (t +:+ s)) with true
    by (symmetry; apply Nat.ltb_lt; exact L).
  apply scan_fuel; lia.
Qed.

(** The pieces of a search put the subject together again. *)
Lemma scan_whole (r : regex) (groups : nat) :
  forall fuel s, String.length s < fuel ->
    concat_pieces (fun c => default "undefined" (group 0 c)) (scan fuel r groups s) = s.
Proof.
  induction fuel as [|fuel IH]; intros s H; [lia|].
  rewrite scan_S.
  destruct (search_outcome r groups s) as [E|(t & s' & c & E & -> & G)]; rewrite E.
  - destruct s as [|a s]; [reflexivity|]. simpl in *. f_equal. apply IH; lia.
  - cbn [concat_pieces]. rewrite G. cbn [default]. destruct (_ <? _) eqn:L.
    + apply Nat.ltb_lt in L. rewrite IH by lia. reflexivity.
    + apply Nat.ltb_nlt in L. apply append_same_length in L. subst t.
      simpl in *. destruct s' as [|a s]; [reflexivity|].
      simpl in *. f_equal. apply IH; lia.
Qed.

End ScanFacts.

Section QueryFacts.

Import JsString PostgresDriverSchema PostgresDriverQuery.

(** [all_in p s]: all the characters of [s] are in the class [p]. *)
Fixpoint all_in (p : ascii -> bool) (s : string) : bool :=
  match s with
  | EmptyString => true
  | String a s' => p a && all_in p s'
  end.

(** A text in which the key of a placeholder ends: it does not go on
    with a character of a key. *)
Definition ends_key (rest : string) : bool :=
  match rest with
  | String a _ => negb (keyChar a)
  | EmptyString => true
  end.

(** A key that does not begin with a dot. *)
Definition plain_key (key : string) : bool :=
  match key with
  | String a _ => negb (Ascii.eqb a ".") && all_in keyChar key
  | EmptyString => false
  end.

Lemma skip_key (key rest : string) :
  all_in keyChar key = true -> ends_key rest = true ->
  skip keyChar (key +:+ rest) = rest.
Proof.
  intros K E. induction key as [|a key IH]; simpl in *.
  - destruct rest as [|b rest]; [reflexivity|]. simpl in *.
    apply negb_true_iff in E. rewrite E. reflexivity.
  - apply andb_true_iff in K as [Ka K]. rewrite Ka. exact (IH K).
Qed.

Lemma placeholder_none (a : ascii) (s : string) (c : caps) :
  Ascii.eqb a ":" = false ->
  rmatch (caps * string) placeholder (String a s) c (fun s' c => Some (c, s')) = None.
Proof.
  intros E. unfold placeholder. rewrite rmatch_seq, rmatch_char, Ascii.eqb_sym, E.
  reflexivity.
Qed.

Lemma matchAll_text (text rest : string) :
  includes ":" text = false ->
  matchAll placeholder 2 (text +:+ rest)
  = map Skip (list_ascii_of_string text) ++ matchAll placeholder 2 rest.
Proof.
  induction text as [|a text IH]; intros H; [reflexivity|].
  simpl in H. apply orb_false_iff in H as [E H].
  change (String a text +:+ rest) with (String a (text +:+ rest)).
  rewrite matchAll_cons_skip by (apply placeholder_none; exact E).
  rewrite (IH H). reflexivity.
Qed.

Lemma rmatch_key (key rest : string) (c : caps) :
  key <> "" -> all_in keyChar key = true -> ends_key rest = true ->
  rmatch (caps * string)
         (RGroup 2 (RSeq (RChar keyChar) (RStar (RChar keyChar))))
         (key +:+ rest) c (fun s' c => Some (c, s'))
  = Some (<[2 := Some key]> c, rest).
Proof.
  intros N K E. destruct key as [|a key]; [contradiction|].
  simpl in K. apply andb_true_iff in K as [Ka K].
  rewrite rmatch_group, rmatch_seq.
  change (String a key +:+ rest) with (String a (key +:+ rest)).
  rewrite rmatch_char, Ka, rmatch_star_char by discriminate.
  rewrite (skip_key _ _ K E).
  change (String a (key +:+ rest)) with (String a key +:+ rest).
  rewrite matched_append. reflexivity.
Qed.

Lemma matchAll_named (key rest : string) :
  plain_key key = true -> ends_key rest = true ->
  matchAll placeholder 2 (":" +:+ key +:+ rest)
  = Match [Some (":" +:+ key); None; Some key] :: matchAll placeholder 2 rest.
Proof.
  intros N E.
  assert (F : rmatch (caps * string) (RGroup 1 (RLit "...")) (key +:+ rest)
                     (replicate 3 None)
                     (fun s1 c1 =>
                        rmatch (caps * string)
                               (RGroup 2 (RSeq (RChar keyChar) (RStar (RChar keyChar))))
                               s1 c1 (fun s' c => Some (c, s'))) = None).
  { destruct key as [|a key]; [discriminate|].
    unfold plain_key in N. apply andb_true_iff in N as [D _].
    apply negb_true_iff in D.
    rewrite rmatch_group. simpl RLit.
    change (String a key +:+ rest) with (String a (key +:+ rest)).
    rewrite rmatch_seq, rmatch_char, Ascii.eqb_sym, D. reflexivity. }
  assert (K : key <> "" /\ all_in keyChar key = true).
  { destruct key as [|a key]; [discriminate|]. split; [discriminate|].
    unfold plain_key in N. apply andb_true_iff in N as [_ N]. exact N. }
  destruct K as [K Ke].
  rewrite <- (append_assoc ":" key rest).
  rewrite (matchAll_cons_match placeholder 2 (":" +:+ key) rest [None; None; Some key]);
    [reflexivity | discriminate|].
  rewrite append_assoc. unfold placeholder.
  change (":" +:+ key +:+ rest) with (String ":" (key +:+ rest)).
  rewrite rmatch_seq, rmatch_char, Ascii.eqb_refl, rmatch_seq, rmatch_alt, F.
  change (rmatch (caps * string) REps (key +:+ rest) (replicate 3 None) ?k)
    with (k (key +:+ rest) (replicate 3 None)).
  cbv beta. rewrite rmatch_key by assumption. reflexivity.
Qed.

Lemma matchAll_spread (key rest : string) :
  key <> "" -> all_in keyChar key = true -> ends_key rest = true ->
  matchAll placeholder 2 (":..." +:+ key +:+ rest)
  = Match [Some (":..." +:+ key); Some "..."; Some key] :: matchAll placeholder 2 rest.
Proof.
  intros N K E.
  rewrite <- (append_assoc ":..." key rest).
  rewrite (matchAll_cons_match placeholder 2 (":..." +:+ key) rest
             [None; Some "..."; Some key]); [reflexivity | discriminate|].
  rewrite append_assoc. unfold placeholder.
  change (":..." +:+ key +:+ rest) with (String ":" ("..." +:+ key +:+ rest)).
  rewrite rmatch_seq, rmatch_char, Ascii.eqb_refl, rmatch_seq, rmatch_alt.
  rewrite rmatch_group, rmatch_lit, matched_append.
  rewrite rmatch_key by assumption. reflexivity.
Qed.

Lemma matchAll_end (text : string) :
  includes ":" text = false ->
  matchAll placeholder 2 text = map Skip (list_ascii_of_string text).
Proof.
  intros H. rewrite <- (append_empty_r text) at 1.
  rewrite (matchAll_text _ _ H). apply app_nil_r.
Qed.

Lemma replaceEach_text f (text : string) (l : list piece) (b : Bindings) :
  replaceEach f (map Skip (list_ascii_of_string text) ++ l) b
  = let* (s, b') := replaceEach f l b in Ok (text +:+ s, b').
Proof.
  induction text as [|a text IH]; simpl.
  - destruct (replaceEach f l b) as [[s b']|]; reflexivity.
  - rewrite IH. destruct (replaceEach f l b) as [[s b']|]; reflexivity.
Qed.

Lemma replaceEach_end f (text : string) (b : Bindings) :
  replaceEach f (map Skip (list_ascii_of_string text)) b = Ok (text, b).
Proof.
  rewrite <- (app_nil_r (map _ _)), replaceEach_text. simpl.
  rewrite append_empty_r. reflexivity.
Qed.

Lemma spread_names driver key (value : list JsValue) :
  forall escaped,
    spread driver key value escaped
    = (imap (fun i _ => createParameter driver key (length escaped + i)) value,
       escaped ++ value).
Proof.
  induction value as [|v value IH]; intros escaped; simpl.
  - rewrite app_nil_r. reflexivity.
  - rewrite IH, length_app, <- app_assoc. simpl.
    replace (length escaped + 1 - 1) with (length escaped + 0) by lia.
    f_equal. f_equal. apply imap_ext. intros i x _. simpl. f_equal. lia.
Qed.

Lemma own_filled (parameters : ObjectLiteral) key value :
  own parameters key = Some value -> parameters <> [].
Proof. intros H ->. discriminate H. Qed.

Lemma escapeQueryWithParameters_filled driver sql (parameters : ObjectLiteral)
    nativeParameters :
  parameters <> [] ->
  escapeQueryWithParameters driver sql (Some parameters) nativeParameters
  = let* (sql, b) :=
      replaceEach (replacement driver parameters) (matchAll placeholder 2 sql)
                  {| escapedParameters := map snd (ownProperties nativeParameters);
                     parameterIndexMap := ∅ |} in
    Ok (sql, escapedParameters b).
Proof. destruct parameters; [contradiction | reflexivity]. Qed.

Section Shapes.

Variable driver : Driver.
Variable parameters : ObjectLiteral.
Variable nativeParameters : list (string * JsValue).

Let natives : list JsValue := map snd (ownProperties nativeParameters).

(** X9. A named parameter that is used twice is bound once: its value
    is put behind the native parameters, and both uses are replaced by
    the number of its place. *)
Theorem escapeQueryWithParameters_binds_once
    (before key between after : string) (value : JsValue) :
  own parameters key = Some (Plain value) ->
  plain_key key = true ->
  includes ":" before = false ->
  includes ":" between = false -> ends_key between = true ->
  includes ":" after = false -> ends_key after = true ->
  escapeQueryWithParameters driver
    (before +:+ ":" +:+ key +:+ between +:+ ":" +:+ key +:+ after)
    (Some parameters) nativeParameters
  = Ok (before +:+ createParameter driver key (length natives) +:+ between
        +:+ createParameter driver key (length natives) +:+ after,
        natives ++ [value]).
Proof.
  intros Hv Hk Hb Hm Em Ha Ea.
  rewrite escapeQueryWithParameters_filled by exact (own_filled _ _ _ Hv).
  rewrite (matchAll_text _ _ Hb).
  rewrite matchAll_named; [|exact Hk|].
  2:{ destruct between; [|exact Em]. reflexivity. }
  rewrite (matchAll_text _ _ Hm), (matchAll_named _ _ Hk Ea), (matchAll_end _ Ha).
  rewrite replaceEach_text. cbn [replaceEach].
  unfold replacement at 1. cbn [group lookup list_lookup default from_option id]. rewrite Hv.
  cbn [parameterIndexMap escapedParameters]. rewrite lookup_empty.
  cbn [bind]. rewrite replaceEach_text. cbn [replaceEach].
  unfold replacement at 1. cbn [group lookup list_lookup default from_option id]. rewrite Hv.
  cbn [parameterIndexMap escapedParameters]. rewrite lookup_insert_eq.
  cbn [bind]. rewrite replaceEach_end. cbn [bind escapedParameters].
  fold natives. unfold createParameter. rewrite length_app. simpl length.
  replace (length natives + 1 - 1 + 1) with (length natives + 1) by lia.
  reflexivity.
Qed.

(** X10. A spread parameter binds the elements of its array one by one,
    behind the native parameters, and is replaced by their numbers, with
    a comma and a space between two of them; of an empty array nothing is
    left in the query. *)
Theorem escapeQueryWithParameters_spreads_array
    (before key after : string) (value : list JsValue) :
  own parameters key = Some (Plain (VArr value)) ->
  key <> "" -> all_in keyChar key = true ->
  includes ":" before = false ->
  includes ":" after = false -> ends_key after = true ->
  escapeQueryWithParameters driver (before +:+ ":..." +:+ key +:+ after)
    (Some parameters) nativeParameters
  = Ok (before
        +:+ join ", " (imap (fun i _ => createParameter driver key (length natives + i))
                            value)
        +:+ after,
        natives ++ value).
Proof.
  intros Hv Hn Hk Hb Ha Ea.
  rewrite escapeQueryWithParameters_filled by exact (own_filled _ _ _ Hv).
  rewrite (matchAll_text _ _ Hb), (matchAll_spread _ _ Hn Hk Ea), (matchAll_end _ Ha).
  rewrite replaceEach_text. cbn [replaceEach].
  unfold replacement at 1. cbn [group lookup list_lookup default from_option id].
  rewrite Hv. cbn [parameterIndexMap escapedParameters]. rewrite lookup_empty.
  rewrite spread_names. cbn [bind]. rewrite replaceEach_end. reflexivity.
Qed.

(** X11. A spread parameter whose value is not an array makes the call
    throw a type error. *)
Theorem escapeQueryWithParameters_spread_of_no_array
    (before key after : string) (value : Any) :
  own parameters key = Some value ->
  (forall elems, value <> Plain (VArr elems)) ->
  key <> "" -> all_in keyChar key = true ->
  includes ":" before = false ->
  includes ":" after = false -> ends_key after = true ->
  escapeQueryWithParameters driver (before +:+ ":..." +:+ key +:+ after)
    (Some parameters) nativeParameters
  = Throw (TypeError "value.map is not a function").
Proof.
  intros Hv Hno Hn Hk Hb Ha Ea.
  rewrite escapeQueryWithParameters_filled by exact (own_filled _ _ _ Hv).
  rewrite (matchAll_text _ _ Hb), (matchAll_spread _ _ Hn Hk Ea), (matchAll_end _ Ha).
  rewrite replaceEach_text. cbn [replaceEach].
  unfold replacement at 1. cbn [group lookup list_lookup default from_option id].
  rewrite Hv. cbn [parameterIndexMap escapedParameters]. rewrite lookup_empty.
  destruct value as [[]|]; try reflexivity. destruct (Hno _ eq_refl).
Qed.

(** X12. A parameter whose value is a function is not bound: the
    function is called and the text of what it returns is put into the
    query; what it throws is thrown. *)
Theorem escapeQueryWithParameters_calls_function
    (before key after : string) (call : result JsValue) :
  own parameters key = Some (Function call) ->
  plain_key key = true ->
  includes ":" before = false ->
  includes ":" after = false -> ends_key after = true ->
  escapeQueryWithParameters driver (before +:+ ":" +:+ key +:+ after)
    (Some parameters) nativeParameters
  = let* returned := call in
    Ok (before +:+ toString returned +:+ after, natives).
Proof.
  intros Hv Hk Hb Ha Ea.
  rewrite escapeQueryWithParameters_filled by exact (own_filled _ _ _ Hv).
  rewrite (matchAll_text _ _ Hb), (matchAll_named _ _ Hk Ea), (matchAll_end _ Ha).
  rewrite replaceEach_text. cbn [replaceEach].
  unfold replacement at 1. cbn [group lookup list_lookup default from_option id].
  rewrite Hv. cbn [parameterIndexMap escapedParameters]. rewrite lookup_empty.
  destruct call as [returned|e]; [|reflexivity].
  cbn [bind]. rewrite replaceEach_end. reflexivity.
Qed.

End Shapes.

(** The keys of the placeholders of a query. *)
Definition placeholders (sql : string) : list string :=
  map (fun c => default "undefined" (group 2 c))
      (PostgresDriver.matches (matchAll placeholder 2 sql)).

Lemma replaceEach_unknown driver (parameters : ObjectLiteral) (l : list piece) :
  forall b,
    Forall (fun key => own parameters key = None)
           (map (fun c => default "undefined" (group 2 c)) (PostgresDriver.matches l)) ->
    replaceEach (replacement driver parameters) l b
    = Ok (concat_pieces (fun c => default "undefined" (group 0 c)) l, b).
Proof.
  induction l as [|[a|c] l IH]; intros b F; simpl in *.
  - reflexivity.
  - rewrite (IH b F). reflexivity.
  - inversion F as [|? ? Hc Hl]; subst.
    unfold replacement at 1. rewrite Hc. cbn [bind].
    rewrite (IH b Hl). reflexivity.
Qed.

(** X13. A query none of whose placeholders names a parameter is
    returned as it is, with the values of the native parameters. *)
Theorem escapeQueryWithParameters_unknown_keys driver (sql : string)
    (parameters : ObjectLiteral) (nativeParameters : list (string * JsValue)) :
  Forall (fun key => own parameters key = None) (placeholders sql) ->
  escapeQueryWithParameters driver sql (Some parameters) nativeParameters
  = Ok (sql, map snd (ownProperties nativeParameters)).
Proof.
  intros F. destruct parameters as [|kv ps] eqn:P; [reflexivity|]. rewrite <- P in *.
  rewrite escapeQueryWithParameters_filled by (rewrite P; discriminate).
  rewrite (replaceEach_unknown _ _ _ _ F). cbn [bind escapedParameters].
  unfold matchAll. rewrite scan_whole by lia. reflexivity.
Qed.

Lemma replacement_grows driver parameters c b r b' :
  replacement driver parameters c b = Ok (r, b') ->
  escapedParameters b `prefix_of` escapedParameters b'.
Proof.
  unfold replacement. intros H.
  destruct (own parameters _) as [value|]; [|injection H as _ <-; reflexivity].
  destruct (parameterIndexMap b !! _); [injection H as _ <-; reflexivity|].
  destruct (group 1 c) as [[|a i]|].
  - destruct value as [v|[returned|e]]; simpl in H; try discriminate;
      injection H as _ <-; [apply prefix_app_r|]; reflexivity.
  - destruct value as [[]|]; try discriminate.
    rewrite spread_names in H. injection H as _ <-. apply prefix_app_r. reflexivity.
  - destruct value as [v|[returned|e]]; simpl in H; try discriminate;
      injection H as _ <-; [apply prefix_app_r|]; reflexivity.
Qed.

Lemma replaceEach_grows driver parameters (l : list piece) :
  forall b s b',
    replaceEach (replacement driver parameters) l b = Ok (s, b') ->
    escapedParameters b `prefix_of` escapedParameters b'.
Proof.
  induction l as [|[a|c] l IH]; intros b s b' H; simpl in H.
  - injection H as _ <-. reflexivity.
  - destruct (replaceEach _ l b) as [[s1 b1]|] eqn:E; [|discriminate].
    injection H as _ <-. exact (IH _ _ _ E).
  - destruct (replacement _ _ c b) as [[r b1]|] eqn:R; [|discriminate]. simpl in H.
    destruct (replaceEach _ l b1) as [[s2 b2]|] eqn:E; [|discriminate].
    injection H as _ <-.
    etransitivity; [exact (replacement_grows _ _ _ _ _ _ R) | exact (IH _ _ _ E)].
Qed.

(** X14. The values of the native parameters come first in the array
    that is returned, in the order of the keys; the parameters the query
    names are put behind them. *)
Theorem escapeQueryWithParameters_native_first driver (sql : string)
    (parameters : option ObjectLiteral) (nativeParameters : list (string * JsValue))
    (escaped : string) (escapedParameters : list JsValue) :
  escapeQueryWithParameters driver sql parameters nativeParameters
  = Ok (escaped, escapedParameters) ->
  map snd (ownProperties nativeParameters) `prefix_of` escapedParameters.
Proof.
  intros H. destruct parameters as [[|kv ps]|];
    try (injection H as _ <-; reflexivity).
  rewrite escapeQueryWithParameters_filled in H by discriminate.
  destruct (replaceEach _ _ _) as [[s b]|] eqn:E; [|discriminate].
  injection H as _ <-. exact (replaceEach_grows _ _ _ _ _ _ E).
Qed.

(** A driver as it is constructed: the parameters are numbered after a
    dollar sign. *)
Definition sampleDriver : Driver :=
  {| database := None; schema := None; parametersPrefix := "$" |}.

Lemma escapeQueryWithParameters_binds_once_witness :
  escapeQueryWithParameters sampleDriver
    "SELECT * FROM post WHERE author = :id OR editor = :id"
    (Some [("id", Plain (VNum 7))]) [("limit", VNum 10)]
  = Ok ("SELECT * FROM post WHERE author = $2 OR editor = $2", [VNum 10; VNum 7]).
Proof.
  apply (escapeQueryWithParameters_binds_once sampleDriver
           [("id", Plain (VNum 7))] [("limit", VNum 10)]
           "SELECT * FROM post WHERE author = " "id" " OR editor = " "" (VNum 7));
    reflexivity.
Defined.

Lemma escapeQueryWithParameters_spreads_array_witness :
  escapeQueryWithParameters sampleDriver "id IN (:...ids)"
    (Some [("ids", Plain (VArr [VNum 4; VNum 5; VNum 6]))]) []
  = Ok ("id IN ($1, $2, $3)", [VNum 4; VNum 5; VNum 6]).
Proof.
  apply (escapeQueryWithParameters_spreads_array sampleDriver
           [("ids", Plain (VArr [VNum 4; VNum 5; VNum 6]))] []
           "id IN (" "ids" ")" [VNum 4; VNum 5; VNum 6]);
    first [reflexivity | discriminate].
Defined.

Lemma escapeQueryWithParameters_spread_of_no_array_witness :
  escapeQueryWithParameters sampleDriver "id IN (:...ids)"
    (Some [("ids", Plain (VStr "4,5,6"))]) []
  = Throw (TypeError "value.map is not a function").
Proof.
  apply (escapeQueryWithParameters_spread_of_no_array sampleDriver
           [("ids", Plain (VStr "4,5,6"))] []
           "id IN (" "ids" ")" (Plain (VStr "4,5,6")));
    first [reflexivity | discriminate].
Defined.

Lemma escapeQueryWithParameters_calls_function_witness :
  escapeQueryWithParameters sampleDriver "created < :now"
    (Some [("now", Function (Ok (VStr "NOW()")))]) [("limit", VNum 10)]
  = Ok ("created < NOW()", [VNum 10]).
Proof.
  apply (escapeQueryWithParameters_calls_function sampleDriver
           [("now", Function (Ok (VStr "NOW()")))] [("limit", VNum 10)]
           "created < " "now" "" (Ok (VStr "NOW()")));
    reflexivity.
Defined.

Lemma escapeQueryWithParameters_unknown_keys_witness :
  escapeQueryWithParameters sampleDriver "SELECT '10:30'::time, :name"
    (Some [("id", Plain (VNum 7))]) []
  = Ok ("SELECT '10:30'::time, :name", []).
Proof.
  apply (escapeQueryWithParameters_unknown_keys sampleDriver
           "SELECT '10:30'::time, :name" [("id", Plain (VNum 7))] []).
  vm_compute. repeat constructor.
Defined.

Lemma escapeQueryWithParameters_native_first_witness :
  [VNum 10; VNum 20] `prefix_of` [VNum 10; VNum 20; VNum 7].
Proof.
  apply (escapeQueryWithParameters_native_first sampleDriver "author = :id"
           (Some [("id", Plain (VNum 7))]) [("limit", VNum 10); ("offset", VNum 20)]
           "author = $3" [VNum 10; VNum 20; VNum 7]).
  vm_compute. reflexivity.
Defined.

End QueryFacts.

(* ===================================================================== *)
(** * More of the hstore codec *)

Section HstoreRoundTrip.

Import PostgresDriver.

Lemma assign_fresh k v (props : list (string * JsValue)) :
  k ∉ map fst props -> assign k v props = props ++ [(k, v)].
Proof.
  induction props as [|[k' v'] props IH]; intros H; simpl; [reflexivity|].
  simpl in H. apply not_elem_of_cons in H as [Hne H].
  destruct (String.eqb k' k) eqn:E; [apply String.eqb_eq in E; congruence|].
  rewrite (IH H). reflexivity.
Qed.

Lemma foldl_setProperty_fresh (l : list (string * JsValue)) :
  forall acc,
    NoDup (map fst (acc ++ l)) ->
    Forall (fun kv => kv.1 <> "__proto__") l ->
    foldl setProperty acc l = acc ++ l.
Proof.
  induction l as [|[k v] l IH]; intros acc N F; simpl.
  - rewrite app_nil_r. reflexivity.
  - inversion F as [|? ? Hk Hl]; subst. simpl in Hk.
    unfold setProperty at 2. simpl.
    destruct (String.eqb k "__proto__") eqn:E; [apply String.eqb_eq in E; contradiction|].
    rewrite assign_fresh.
    + rewrite IH; [rewrite <- app_assoc; reflexivity | | exact Hl].
      rewrite <- app_assoc. exact N.
    + rewrite map_app in N. apply NoDup_app in N as (_ & N & _).
      intros Hin. apply (N k Hin). simpl. left.
Qed.

Lemma ownProperties_plain (props : list (string * JsValue)) :
  Forall (fun kv => array_index kv.1 = None) props -> ownProperties props = props.
Proof.
  intros F. unfold ownProperties.
  replace (foldr _ [] props) with (@nil (N * (string * JsValue))).
  - simpl. induction F as [|kv l Hkv _ IH]; [reflexivity|].
    rewrite filter_cons_True by exact Hkv. rewrite IH. reflexivity.
  - induction F as [|kv l Hkv _ IH]; [reflexivity|]. simpl. rewrite Hkv. exact IH.
Qed.

(** The values an hstore stores and gives back: a text, or [null]. *)
Definition hstore_value (v : JsValue) : Prop :=
  match v with
  | VNull | VStr _ => True
  | _ => False
  end.

(** X15. An object of texts and nulls that is written to an hstore
    column and read back as an object is the same object, when its keys
    differ from each other, none is an array index and none is
    [__proto__]. *)
Theorem hstore_round_trip (ext : Externals) (col : ColumnMetadata)
    (props : list (string * JsValue)) :
  type col = TName "hstore" ->
  transformer col = None ->
  hstoreType col = Some "object" ->
  NoDup (map fst props) ->
  Forall (fun kv => array_index kv.1 = None /\ kv.1 <> "__proto__" /\ hstore_value kv.2)
         props ->
  (let* stored := preparePersistentValue ext (VObj props) col in
   prepareHydratedValue ext stored col) = Ok (VObj props).
Proof.
  intros Hty Htr Hhs N F.
  assert (Hw : preparePersistentValue ext (VObj props) col
               = Ok (VStr (join "," (map pair_text props)))).
  { unfold preparePersistentValue. rewrite Htr. simpl.
    unfold persist_by_type, is_datetime, is_enum, is_ctor, is_type. rewrite Hty. simpl.
    rewrite hstoreToString_text. simpl Object_entries.
    rewrite ownProperties_plain; [reflexivity|].
    eapply Forall_impl; [exact F | intros kv H; apply H]. }
  rewrite Hw. cbn [bind].
  unfold prepareHydratedValue. rewrite Htr. simpl isAbsent. cbv iota.
  unfold hydrate_by_type, is_datetime, is_enum, is_ctor, is_type. rewrite Hty. simpl.
  rewrite Hhs, stringToHstore_text. simpl.
  replace (map pair_read props) with props.
  - rewrite foldl_setProperty_fresh; [reflexivity | exact N|].
    eapply Forall_impl; [exact F | intros kv H; apply H].
  - clear -F. induction F as [|[k v] l (_ & _ & Hv) _ IH]; [reflexivity|].
    simpl. rewrite <- IH. f_equal. unfold pair_read. simpl.
    destruct v; try contradiction; reflexivity.
Qed.

Lemma hstore_round_trip_witness :
  (let* stored := preparePersistentValue no_externals
                    (VObj [("path", VStr "a,b=>c"); ("note", VNull)])
                    (column (TName "hstore") None false) in
   prepareHydratedValue no_externals stored (column (TName "hstore") None false))
  = Ok (VObj [("path", VStr "a,b=>c"); ("note", VNull)]).
Proof.
  apply hstore_round_trip; try reflexivity.
  - repeat constructor; simpl; intros H;
      repeat (apply elem_of_cons in H as [H|H]; [discriminate H|]);
      inversion H.
  - repeat constructor; simpl; discriminate.
Defined.

End HstoreRoundTrip.

(** ** Reading any text as an hstore *)

Section Patterns.

(** Any number of steps of [R], one after the other. *)
Inductive iter (R : string -> caps -> string -> caps -> Prop)
  : string -> caps -> string -> caps -> Prop :=
| iter_stop s c : iter R s c s c
| iter_step s c s1 c1 s' c' : R s c s1 c1 -> iter R s1 c1 s' c' -> iter R s c s' c'.

(** [runs r s c s' c']: the pattern [r] matches the subject from the
    position [s] to the position [s'], and takes the captures [c] to
    [c']. *)
Fixpoint runs (r : regex) : string -> caps -> string -> caps -> Prop :=
  match r with
  | RChar p => fun s c s' c' => exists a, s = String a s' /\ p a = true /\ c' = c
  | REps => fun s c s' c' => s' = s /\ c' = c
  | RSeq r1 r2 => fun s c s' c' => exists s1 c1, runs r1 s c s1 c1 /\ runs r2 s1 c1 s' c'
  | RAlt r1 r2 => fun s c s' c' => runs r1 s c s' c' \/ runs r2 s c s' c'
  | RStar r1 => iter (runs r1)
  | RGroup i r1 =>
      fun s c s' c' => exists c1, runs r1 s c s' c1 /\ c' = <[i := Some (matched s s')]> c1
  | RLook r1 => fun s c s' c' => s' = s /\ exists s1, runs r1 s c s1 c'
  | REnd => fun s c s' c' => s = "" /\ s' = "" /\ c' = c
  end.

(** What a matcher hands to its continuation is a match. *)
Definition sound {R : Type} (m : Matcher R) (P : string -> caps -> string -> caps -> Prop)
  : Prop :=
  forall s c k x, m s c k = Some x -> exists s' c', P s c s' c' /\ k s' c' = Some x.

Lemma star_loop_sound {R : Type} (m : Matcher R) P (Hm : sound m P) fuel :
  sound (fun s c k => star_loop m k fuel s c) (iter P).
Proof.
  induction fuel as [|fuel IH]; intros s c k x H; simpl in H.
  - exists s, c. split; [constructor | exact H].
  - destruct (m s c _) as [y|] eqn:E.
    + injection H as ->. apply Hm in E as (s1 & c1 & P1 & E).
      destruct (_ <? _); [|discriminate].
      apply IH in E as (s' & c' & P' & E).
      exists s', c'. split; [econstructor; eassumption | exact E].
    + exists s, c. split; [constructor | exact H].
Qed.

Lemma rmatch_sound (r : regex) : forall R : Type, sound (rmatch R r) (runs r).
Proof.
  induction r as [p| |r1 IH1 r2 IH2|r1 IH1 r2 IH2|r1 IH1|i r1 IH1|r1 IH1|];
    intros R s c k x H; [simpl in H .. | | simpl in H | simpl in H | simpl in H].
  - destruct s as [|a s]; [discriminate|]. destruct (p a) eqn:Ha; [|discriminate].
    exists s, c. split; [exists a; auto | exact H].
  - exists s, c. split; [split; reflexivity | exact H].
  - apply IH1 in H as (s1 & c1 & P1 & H). apply IH2 in H as (s2 & c2 & P2 & H).
    exists s2, c2. split; [exists s1, c1; auto | exact H].
  - destruct (rmatch R r1 s c k) as [y|] eqn:E.
    + injection H as ->. apply IH1 in E as (s' & c' & P' & E).
      exists s', c'. split; [left; exact P' | exact E].
    + apply IH2 in H as (s' & c' & P' & H).
      exists s', c'. split; [right; exact P' | exact H].
  - exact (star_loop_sound _ _ (IH1 R) (S (String.length s)) s c k x H).
  - apply IH1 in H as (s1 & c1 & P1 & H).
    exists s1, (<[i := Some (matched s s1)]> c1). split; [exists c1; auto | exact H].
  - destruct (rmatch caps r1 s c _) as [c1|] eqn:E; [|discriminate].
    apply IH1 in E as (s1 & c1' & P1 & [= ->]).
    exists s, c1. split; [split; [reflexivity | exists s1; exact P1] | exact H].
  - destruct s; [|discriminate]. exists "", c. split; [repeat split | exact H].
Qed.

(** A pattern without groups. *)
Fixpoint groupless (r : regex) : bool :=
  match r with
  | RChar _ | REps | REnd => true
  | RSeq r1 r2 | RAlt r1 r2 => groupless r1 && groupless r2
  | RStar r1 | RLook r1 => groupless r1
  | RGroup _ _ => false
  end.

Lemma groupless_runs (r : regex) :
  groupless r = true -> forall s c s' c', runs r s c s' c' -> c' = c.
Proof.
  induction r as [p| |r1 IH1 r2 IH2|r1 IH1 r2 IH2|r1 IH1|i r1 IH1|r1 IH1|];
    simpl; intros G s c s' c' H.
  - destruct H as (a & _ & _ & ->). reflexivity.
  - destruct H as [_ ->]. reflexivity.
  - apply andb_true_iff in G as [G1 G2]. destruct H as (s1 & c1 & H1 & H2).
    rewrite (IH2 G2 _ _ _ _ H2). exact (IH1 G1 _ _ _ _ H1).
  - apply andb_true_iff in G as [G1 G2]. destruct H as [H|H]; eauto.
  - induction H as [|s c s1 c1 s' c' H1 _ IH]; [reflexivity|].
    rewrite IH. exact (IH1 G _ _ _ _ H1).
  - discriminate.
  - destruct H as [_ [s1 H]]. exact (IH1 G _ _ _ _ H).
  - destruct H as (_ & _ & ->). reflexivity.
Qed.

Lemma runs_lit (l : string) s c s' c' : runs (RLit l) s c s' c' -> s = l +:+ s' /\ c' = c.
Proof.
  revert s c. induction l as [|a l IH]; simpl; intros s c H.
  - destruct H as [-> ->]. split; reflexivity.
  - destruct H as (s1 & c1 & (b & -> & Hb & ->) & H2).
    apply Ascii.eqb_eq in Hb. subst b.
    destruct (IH _ _ H2) as [-> ->]. split; reflexivity.
Qed.

End Patterns.

Section HstoreReading.

Import PostgresDriver.

(** The captures of a match of the pattern of a pair: the key and either
    the word NULL or a value. *)
Lemma hstore_regexp_caps s s' c' :
  runs hstore_regexp s (replicate 4 None) s' c' ->
  exists key,
    c' = [None; Some key; Some "NULL"; None]
    \/ exists value, c' = [None; Some key; None; Some value].
Proof.
  unfold hstore_regexp. cbn [runs].
  intros (s1 & c1 & (a1 & -> & _ & ->) &
          s2 & c2 & (c2' & B1 & ->) &
          s3 & c3 & (a3 & -> & _ & ->) &
          s4 & c4 & L4 &
          s5 & c5 & V & E).
  assert (Ec : c' = c5) by (destruct E as [(a & _ & _ & ->)|(_ & _ & ->)]; reflexivity).
  subst c'. clear E.
  apply (groupless_runs hstore_body eq_refl) in B1. subst c2'.
  apply runs_lit in L4 as [-> ->].
  exists (matched s1 (String a3 ("=>" +:+ s4))).
  destruct V as [(c6 & N & ->)|(s6 & c6 & (a6 & -> & _ & ->) &
                                 s7 & c7 & (c7' & B3 & ->) & (a7 & -> & _ & ->))].
  - apply runs_lit in N as [-> ->]. left.
    rewrite (matched_append "NULL" s5). reflexivity.
  - apply (groupless_runs hstore_body eq_refl) in B3. subst c7'.
    right. eexists. reflexivity.
Qed.

Lemma hstore_entry_total (c : caps) (g0 : option string) :
  (exists key,
     c = [None; Some key; Some "NULL"; None]
     \/ exists value, c = [None; Some key; None; Some value]) ->
  exists entry, hstore_entry (<[0 := g0]> c) = Ok entry.
Proof.
  intros (key & [->|(value & ->)]); eexists; reflexivity.
Qed.

Lemma scan_hstore_total :
  forall fuel s,
    exists entries,
      mapM hstore_entry (matches (scan fuel hstore_regexp 3 s)) = Ok entries.
Proof.
  induction fuel as [|fuel IH]; intros s; [exists []; reflexivity|].
  rewrite scan_S.
  destruct (rmatch _ hstore_regexp s _ _) as [[c s']|] eqn:E.
  - apply rmatch_sound in E as (s1 & c1 & R & [= -> ->]).
    destruct (hstore_entry_total c (Some (matched s s')) (hstore_regexp_caps _ _ _ R))
      as [entry He].
    assert (T : exists entries,
              mapM hstore_entry
                   (matches (if String.length s' <? String.length s
                             then scan fuel hstore_regexp 3 s'
                             else match s with
                                  | EmptyString => []
                                  | String a s1 => Skip a :: scan fuel hstore_regexp 3 s1
                                  end)) = Ok entries).
    { destruct (_ <? _); [apply IH|].
      destruct s as [|a s0]; [exists []; reflexivity | apply IH]. }
    destruct T as [entries Ht].
    exists (entry :: entries). cbn [matches mapM]. rewrite He. cbn [bind].
    rewrite Ht. reflexivity.
  - destruct s as [|a s0]; [exists []; reflexivity | apply IH].
Qed.

(** X16. Reading never fails on an hstore column whose values are read
    as objects: whatever the stored value is, its text is read as an
    object, which has the pairs the text holds. *)
Theorem hstore_read_total (ext : Externals) (col : ColumnMetadata) (value : JsValue) :
  type col = TName "hstore" ->
  transformer col = None ->
  hstoreType col = Some "object" ->
  isAbsent value = false ->
  exists props, prepareHydratedValue ext value col = Ok (VObj props).
Proof.
  intros Hty Htr Hhs Hv.
  unfold prepareHydratedValue. rewrite Htr, Hv.
  unfold hydrate_by_type, is_datetime, is_enum, is_ctor, is_type. rewrite Hty. simpl.
  rewrite Hhs. unfold stringToHstore, matchAll.
  destruct (scan_hstore_total (S (String.length (toString value))) (toString value))
    as [entries He].
  rewrite He. eexists. reflexivity.
Qed.

Lemma hstore_read_total_witness :
  exists props,
    prepareHydratedValue no_externals (VStr "not an hstore, =>NULL")
                         (column (TName "hstore") None false) = Ok (VObj props).
Proof.
  apply hstore_read_total; reflexivity.
Defined.

End HstoreReading.

(* ===================================================================== *)
(** * What the build returns *)

Section BuildResult.

Import EntityMetadataBuilder.

#[local] Existing Instance settled_preorder.

(** The list of entity metadatas of the build grows at its end, by entity
    metadatas that were not in the store. *)
Definition extended : relation Store :=
  fun st st' =>
    length (entities st) <= length (entities st')
    /\ exists added,
         entityMetadatas st' = entityMetadatas st ++ added
         /\ Forall (fun j => length (entities st) <= j) added.

#[local] Instance extended_preorder : PreOrder extended.
Proof.
  split.
  - intros st. split; [lia|]. exists []. rewrite app_nil_r. split; [reflexivity | constructor].
  - intros a b c (L1 & l1 & E1 & F1) (L2 & l2 & E2 & F2). split; [lia|].
    exists (l1 ++ l2). rewrite E2, E1, <- app_assoc. split; [reflexivity|].
    apply Forall_app. split; [exact F1|].
    eapply Forall_impl; [exact F2 | intros j Hj; simpl in *; lia].
Qed.



Section Run.

Context (connection : Connection) (storage : MetadataArgsStorage.t).










(** The tables an entity metadata is created for. *)
Definition realTables (entityClasses : option (list Target)) : list TableArgs.t :=
  filter (fun table => TableArgs.type table = regular
                       \/ TableArgs.type table = closure
                       \/ TableArgs.type table = entity_child
                       \/ TableArgs.type table = view)
         match entityClasses with
         | Some classes => MetadataArgsStorage.filterTables storage classes
         | None => MetadataArgsStorage.tables storage
         end.











End Run.

End BuildResult.


(* ===================================================================== *)
(** * The generated columns *)

Section GeneratedColumns.

Import EntityMetadataBuilder.

(** ** The columns of an entity metadata *)

(** What the columns of an entity metadata are computed from. *)
Definition members (x : Ent.t) :=
  (Ent.ownColumns x, flat_map Emb.columnsFromTree (Ent.embeddeds x)).

(** The columns as the computed properties have them: the own columns,
    then those of the embeddeds. *)
Definition columnsOf (x : Ent.t) : list nat :=
  omap id (Ent.ownColumns x) ++ flat_map Emb.columnsFromTree (Ent.embeddeds x).

Lemma columnsOf_members x y : members x = members y -> columnsOf x = columnsOf y.
Proof. unfold members, columnsOf. intros [= -> ->]. reflexivity. Qed.

Lemma alter_indices_columns (f : list Idx.t -> list Idx.t) i (l : list Emb.t) :
  flat_map Emb.columnsFromTree
    (alter (fun emb => Emb.set_indicesFromTree (f (Emb.indicesFromTree emb)) emb) i l)
  = flat_map Emb.columnsFromTree l.
Proof.
  revert i. induction l as [|x l IH]; intros [|i]; simpl; try reflexivity.
  f_equal. exact (IH i).
Qed.

Lemma pushRelationIndex_members e relation index :
  preserves (kept members every) (pushRelationIndex e relation index).
Proof.
  unfold pushRelationIndex. destruct (Rel.embeddedMetadata relation) as [i|].
  - apply kept_updateEntity. intros _ x. unfold members.
    replace (Ent.embeddeds (Ent.set_embeddeds _ x)) with
      (alter (fun emb => Emb.set_indicesFromTree (Emb.indicesFromTree emb ++ [index]) emb)
             i (Ent.embeddeds x)) by (destruct x; reflexivity).
    rewrite (alter_indices_columns (fun l => l ++ [index])).
    destruct x; reflexivity.
  - frame stable_step.
Qed.

Lemma step2_members e : preserves (kept members every) (computeEntityMetadataStep2 e).
Proof. frame stable_step. Qed.

Lemma step2_columns e st st' :
  computeEntityMetadataStep2 e st = Ok (tt, st') ->
  forall e',
    Ent.columns (entities st' !!! e')
    = if decide (e' = e /\ e < length (entities st))
      then columnsOf (entities st !!! e)
      else Ent.columns (entities st !!! e').
Proof.
  intros H. unfold computeEntityMetadataStep2 in H.
  invert_bind H as x s0 H0. injection H0 as <- <-.
  invert_bind H as ownColumns s1 H1. apply mapA_defined_omap in H1 as [-> ->].
  invert_bind H as ownRelations s2 H2. apply mapA_defined_omap in H2 as [-> ->].
  cbv zeta in H.
  invert_bind H as indices s3 H3.
  invert_bind H as primaryColumns s4 H4. invert_bind H as discriminatorColumn s5 H5.
  framed_as E3 (entfixed (fun x : Ent.t => x) every) H3 ltac:(frame stable_step).
  framed_as E4 (entfixed (fun x : Ent.t => x) every) H4 ltac:(frame stable_step).
  framed_as E5 (entfixed (fun x : Ent.t => x) every) H5 ltac:(frame stable_step).
  assert (E : forall e', entities s5 !!! e' = entities st !!! e').
  { intros e'. destruct E3 as [_ E3], E4 as [_ E4], E5 as [_ E5].
    rewrite E5, E4, E3 by exact I. reflexivity. }
  assert (L : length (entities s5) = length (entities st)).
  { destruct E3 as [E3 _], E4 as [E4 _], E5 as [E5 _]. congruence. }
  injection H as H. subst st'. cbn [entities set_entities]. intros e'.
  destruct (decide (e' = e /\ e < length (entities st))) as [[-> Hv]|Hn].
  - rewrite list_lookup_total_insert_eq by (rewrite L; exact Hv).
    rewrite E. destruct (entities st !!! e); reflexivity.
  - destruct (decide (e' = e)) as [->|Hne].
    + rewrite list_insert_ge by (rewrite L; lia). rewrite E. reflexivity.
    + rewrite list_lookup_total_insert_ne by congruence. rewrite E. reflexivity.
Qed.

(** From the computed properties on: the entity metadatas keep the
    members their columns come from, their columns are assigned anew only
    to what they are computed from, and the entity metadatas the build
    lists later are new ones, their columns computed. *)
Definition built : relation Store :=
  fun st st' =>
    kept members every st st'
    /\ (forall e, e < length (entities st) ->
          Ent.columns (entities st' !!! e) = Ent.columns (entities st !!! e)
          \/ Ent.columns (entities st' !!! e) = columnsOf (entities st !!! e))
    /\ (forall u, u ∈ entityMetadatas st' ->
          u ∈ entityMetadatas st
          \/ (length (entities st) <= u < length (entities st')
              /\ Ent.columns (entities st' !!! u) = columnsOf (entities st' !!! u))).

Lemma computed_built st st' e :
  built st st' -> e < length (entities st) ->
  Ent.columns (entities st !!! e) = columnsOf (entities st !!! e) ->
  Ent.columns (entities st' !!! e) = Ent.columns (entities st !!! e)
  /\ Ent.columns (entities st' !!! e) = columnsOf (entities st' !!! e).
Proof.
  intros ([_ F] & R & _) He C.
  assert (E : Ent.columns (entities st' !!! e) = Ent.columns (entities st !!! e)).
  { destruct (R e He) as [E|E]; [exact E | congruence]. }
  split; [exact E|]. rewrite E, C. symmetry. apply columnsOf_members, F; [exact I | exact He].
Qed.

#[local] Instance built_preorder : PreOrder built.
Proof.
  split.
  - intros st. split; [reflexivity|]. split; auto.
  - intros a b c (F1 & R1 & G1) (F2 & R2 & G2).
    split; [etransitivity; eassumption|].
    destruct F1 as [L1 F1], F2 as [L2 F2].
    split.
    + intros e He. destruct (R2 e ltac:(lia)) as [E|E]; rewrite E.
      * apply R1, He.
      * right. apply columnsOf_members, F1; [exact I | exact He].
    + intros u Hu. destruct (G2 u Hu) as [Hb|(Hb & Hc)].
      * destruct (G1 u Hb) as [Ha|(Ha & Hc)]; [left; exact Ha|].
        right. split; [lia|].
        destruct (R2 u ltac:(lia)) as [E|E]; rewrite E.
        -- rewrite Hc. symmetry. apply columnsOf_members, F2; [exact I | lia].
        -- symmetry. apply columnsOf_members, F2; [exact I | lia].
      * right. split; [lia | exact Hc].
Qed.

Lemma built_quiet {A : Type} (m : M A) :
  preserves (kept members every) m ->
  preserves (kept Ent.columns every) m ->
  preserves same_listing m ->
  preserves built m.
Proof.
  intros H1 H2 H3 st a st' H.
  split; [exact (H1 _ _ _ H)|].
  destruct (H2 _ _ _ H) as [_ R]. pose proof (H3 _ _ _ H) as L. unfold same_listing in L.
  split.
  - intros e He. left. apply R; [exact I | exact He].
  - intros u. rewrite L. auto.
Qed.

Lemma step2_built e : preserves built (computeEntityMetadataStep2 e).
Proof.
  intros st [] st' H.
  pose proof (step2_members e _ _ _ H) as F.
  framed_as L same_listing H ltac:(frame stable_step).
  split; [exact F|]. unfold same_listing in L.
  split; [|intros u; rewrite L; auto].
  intros e' He'. rewrite (step2_columns _ _ _ H).
  destruct (decide _) as [[-> _]|_]; [right | left]; reflexivity.
Qed.

Lemma pushRelationIndex_built e relation index :
  preserves built (pushRelationIndex e relation index).
Proof.
  apply built_quiet.
  - apply pushRelationIndex_members.
  - unfold pushRelationIndex. frame stable_step.
  - unfold pushRelationIndex. frame stable_step.
Qed.

Ltac build_step :=
  first [ apply step2_built | apply pushRelationIndex_built
        | apply built_quiet; [solve [stable_step] ..] ].

Lemma allocation_built st st' x :
  entities st' = entities st ++ [x] -> entityMetadatas st' = entityMetadatas st ->
  built st st'.
Proof.
  intros E L. unfold built, kept. rewrite E, L, length_app. simpl.
  split; [split; [lia|]|].
  { intros e _ He. rewrite lookup_total_app_l by exact He. reflexivity. }
  split; [|auto].
  intros e He. left. rewrite lookup_total_app_l by exact He. reflexivity.
Qed.

Lemma listing_built st sp j :
  built st sp ->
  length (entities st) <= j < length (entities sp) ->
  Ent.columns (entities sp !!! j) = columnsOf (entities sp !!! j) ->
  built st (set_entityMetadatas (entityMetadatas sp ++ [j]) sp).
Proof.
  intros (F & R & G) Hj Hc.
  split; [exact F|]. split; [exact R|]. simpl.
  intros u Hu. apply elem_of_app in Hu as [Hu|Hu]; [apply G, Hu|].
  apply list_elem_of_singleton in Hu as ->. right. split; assumption.
Qed.

Section Run.

Context (connection : Connection) (storage : MetadataArgsStorage.t).

(** A new entity metadata whose properties are computed at once keeps
    its columns through steps that compute nothing. *)
Lemma fresh_computed st s1 s2 s3 x :
  entities s1 = entities st ++ [x] ->
  built s1 s2 ->
  computeEntityMetadataStep2 (length (entities st)) s2 = Ok (tt, s3) ->
  length (entities st) < length (entities s3)
  /\ Ent.columns (entities s3 !!! length (entities st))
     = columnsOf (entities s3 !!! length (entities st)).
Proof.
  intros E1 ([L2 _] & _) H.
  assert (V : length (entities st) < length (entities s2)).
  { rewrite E1, length_app in L2. simpl in L2. lia. }
  destruct (step2_members _ _ _ _ H) as [L3 F3].
  split; [lia|].
  rewrite (step2_columns _ _ _ H), decide_True by (split; [reflexivity | exact V]).
  symmetry. apply columnsOf_members, F3; [exact I | exact V].
Qed.

Lemma createJunction_built e r :
  preserves built (createJunction connection storage e r).
Proof.
  intros st [] st' H. unfold createJunction in H.
  invert_bind H as relation s0 H0. injection H0 as <- <-.
  destruct (MetadataArgsStorage.findJoinTable _ _ _) as [joinTable|];
    [|injection H as <-; reflexivity].
  invert_bind H as j s1 H1.
  apply JunctionEntityMetadataBuilder_build_run in H1
    as (x & _ & -> & E1 & R1 & L1).
  set (j := length (entities st)) in *.
  invert_bind H as xj s2 H2. invert_bind H as ownIndices s3 H3.
  invert_bind H as i0 s4 H4. invert_bind H as i1 s5 H5.
  invert_bind H as [] s6 H6. invert_bind H as [] s7 H7.
  invert_bind H as all s8 H8. invert_bind H as [] s9 H9.
  invert_bind H as user sp Hu.
  destruct (hasUserDefinedTable_run j s9) as (b & Hb & _).
  rewrite Hb in Hu. injection Hu as <- <-.
  framed_as B2 built H2 ltac:(frame build_step).
  framed_as B3 built H3 ltac:(frame build_step).
  framed_as B4 built H4 ltac:(frame build_step).
  framed_as B5 built H5 ltac:(frame build_step).
  framed_as B6 built H6 ltac:(frame build_step).
  framed_as B7 built H7 ltac:(frame build_step).
  framed_as B8 built H8 ltac:(frame build_step).
  framed_as B9 built H9 ltac:(frame build_step).
  assert (B16 : built s1 s6).
  { etransitivity; [exact B2|]. etransitivity; [exact B3|].
    etransitivity; [exact B4|]. etransitivity; [exact B5 | exact B6]. }
  destruct (fresh_computed _ _ _ _ _ E1 B16 H7) as [V7 C7].
  assert (B79 : built s7 s9) by (etransitivity; eassumption).
  destruct (computed_built _ _ _ B79 V7 C7) as [_ C9].
  assert (B : built st s9).
  { etransitivity; [exact (allocation_built _ _ _ E1 L1)|].
    etransitivity; [exact B16|]. etransitivity; [exact B7 | exact B79]. }
  destruct b; simpl in H; injection H as <-; [exact B|].
  apply listing_built; [exact B | | exact C9].
  destruct B79 as ([L _] & _). fold j in V7. lia.
Qed.

Lemma createClosureJunction_built e :
  preserves built (createClosureJunction connection e).
Proof.
  intros st [] st' H. unfold createClosureJunction in H.
  invert_bind H as j s1 H1.
  apply ClosureJunctionEntityMetadataBuilder_build_run in H1
    as (x & _ & -> & E1 & R1 & L1).
  set (j := length (entities st)) in *.
  invert_bind H as [] s2 H2. invert_bind H as [] s3 H3.
  invert_bind H as all s4 H4. invert_bind H as [] s5 H5.
  framed_as B2 built H2 ltac:(frame build_step).
  framed_as B3 built H3 ltac:(frame build_step).
  framed_as B4 built H4 ltac:(frame build_step).
  framed_as B5 built H5 ltac:(frame build_step).
  destruct (fresh_computed _ _ _ _ _ E1 B2 H3) as [V3 C3].
  assert (B35 : built s3 s5) by (etransitivity; eassumption).
  destruct (computed_built _ _ _ B35 V3 C3) as [_ C5].
  injection H as <-. apply listing_built; [| | exact C5].
  - etransitivity; [exact (allocation_built _ _ _ E1 L1)|].
    etransitivity; [exact B2|]. etransitivity; [exact B3 | exact B35].
  - destruct B35 as ([L _] & _). fold j in V3. lia.
Qed.

Ltac build_all :=
  first [ apply createJunction_built | apply createClosureJunction_built | build_step ].

Lemma afterOwnMembers_built l :
  preserves built (afterOwnMembers connection storage l).
Proof. frame build_all. Qed.

(** After the computed properties, the columns of the entity metadatas
    are computed. *)
Lemma computeProperties_columns (l : list nat) :
  forall st st',
  computeProperties l st = Ok (tt, st') ->
  built st st'
  /\ forall e, e ∈ l -> e < length (entities st) ->
       Ent.columns (entities st' !!! e) = columnsOf (entities st' !!! e).
Proof.
  unfold computeProperties.
  induction l as [|a rest IH]; intros st st' H.
  - injection H as <-. split; [reflexivity|].
    intros e He. apply elem_of_nil in He. contradiction.
  - simpl in H. invert_bind H as [] s1 H1.
    pose proof (step2_built a _ _ _ H1) as S1.
    destruct (IH _ _ H) as [S2 C2].
    split; [etransitivity; eassumption|].
    intros e He Hv. destruct (decide (e ∈ rest)) as [Hin|Hnin].
    + apply C2; [exact Hin|]. destruct S1 as ([L _] & _). lia.
    + apply elem_of_cons in He as [->|He]; [|contradiction].
      assert (Hv1 : a < length (entities s1)) by (destruct S1 as ([L _] & _); lia).
      apply (computed_built _ _ _ S2 Hv1).
      rewrite (step2_columns _ _ _ H1).
      rewrite decide_True by (split; [reflexivity | exact Hv]).
      destruct S1 as ([_ F] & _). symmetry. apply columnsOf_members, F; [exact I | exact Hv].
Qed.

(** ** Marking the columns *)

Definition generation (column : Col.t) :=
  (Col.isGenerated column, Col.generationStrategy column).

(** What the declarations say of the generation of a column. *)
Definition declaredGeneration (column : Col.t) : bool * option string :=
  match MetadataArgsStorage.findGenerated storage
          (Col.target column) (Col.propertyName column) with
  | Some strategy => (true, Some strategy)
  | None => (false, None)
  end.

Definition clean (st : Store) (c : nat) : Prop :=
  generation (columns st !!! c) = (false, None).

Definition marked (st : Store) (c : nat) : Prop :=
  generation (columns st !!! c) = declaredGeneration (columns st !!! c).

(** Up to the last pass no column is generated. *)
Definition stays_clean : relation Store :=
  fun st st' => (forall c, clean st c) -> forall c, clean st' c.

#[local] Instance stays_clean_preorder : PreOrder stays_clean.
Proof. split; [intros st H; exact H | intros a b c H1 H2 H; exact (H2 (H1 H))]. Qed.

Lemma stays_clean_newColumn x :
  generation x = (false, None) -> preserves stays_clean (newColumn x).
Proof.
  intros Hx st a st' [= _ <-] U c. unfold clean. simpl.
  destruct (decide (c < length (columns st))) as [Hc|Hc].
  - rewrite lookup_total_app_l by exact Hc. apply U.
  - rewrite lookup_total_app_r by lia.
    destruct (c - length (columns st)) as [|[|k]]; [exact Hx | reflexivity | reflexivity].
Qed.

Lemma stays_clean_updateColumn c f :
  (forall x, generation (f x) = generation x) -> preserves stays_clean (updateColumn c f).
Proof.
  intros Hf st a st' [= _ <-] U c'. unfold clean. simpl.
  destruct (decide (c' = c)) as [->|Hne].
  - destruct (decide (c < length (columns st))) as [Hc|Hc].
    + rewrite list_lookup_total_insert_eq by exact Hc. rewrite Hf. apply U.
    + rewrite list_insert_ge by lia. apply U.
  - rewrite list_lookup_total_insert_ne by congruence. apply U.
Qed.

Lemma stays_clean_frame {A : Type} (m : M A) :
  (forall st a st', m st = Ok (a, st') -> columns st' = columns st) ->
  preserves stays_clean m.
Proof. intros Hm st a st' H U c. unfold clean. rewrite (Hm _ _ _ H). apply U. Qed.

Ltac clean_step :=
  first
    [ apply stays_clean_newColumn; reflexivity
    | apply stays_clean_updateColumn; intros []; reflexivity
    | apply stays_clean_frame; untouched ].

Lemma pushRelationIndex_clean e relation index :
  preserves stays_clean (pushRelationIndex e relation index).
Proof. unfold pushRelationIndex. frame clean_step. Qed.

Lemma createEmbeddeds_clean l :
  forall position, preserves stays_clean (createEmbeddeds connection position l).
Proof.
  induction l as [|args l IH]; intros position; simpl.
  - apply preserves_ret; typeclasses eauto.
  - unfold createEmbedded. frame ltac:(first [apply IH | clean_step]).
Qed.

Ltac clean_all :=
  first [ apply pushRelationIndex_clean | apply createEmbeddeds_clean | clean_step ].

(** The passes between the own members and the generated columns. *)
Definition untilGenerated (created : list nat) : M unit :=
  computeProperties created ;;
  resolveInverseSides created ;;
  materializeRelations connection storage created ;;
  expandClosures connection ;;
  indexInheritance ;;
  materializeForeignKeys storage.

Lemma afterOwnMembers_stages created st result st' :
  afterOwnMembers connection storage created st = Ok (result, st') ->
  exists s6,
    untilGenerated created st = Ok (tt, s6)
    /\ generateColumns storage s6 = Ok (tt, st')
    /\ result = entityMetadatas st'.
Proof.
  intros H. unfold afterOwnMembers in H.
  invert_bind H as [] sa Ha. invert_bind H as [] sb Hb.
  invert_bind H as [] sc Hc. invert_bind H as [] sd Hd.
  invert_bind H as [] se He. invert_bind H as [] sf Hf.
  invert_bind H as [] sg Hg. injection H as <- <-.
  exists sf. split; [|split; [exact Hg | reflexivity]].
  unfold untilGenerated.
  rewrite (bindM_ok _ _ _ _ _ Ha), (bindM_ok _ _ _ _ _ Hb), (bindM_ok _ _ _ _ _ Hc),
    (bindM_ok _ _ _ _ _ Hd), (bindM_ok _ _ _ _ _ He).
  exact Hf.
Qed.

Lemma instantiate_clean classes :
  preserves stays_clean (instantiate connection storage classes).
Proof. frame clean_all. Qed.

Lemma buildOwnMembers_clean l :
  preserves stays_clean (buildOwnMembers connection storage l).
Proof. frame clean_all. Qed.

Lemma untilGenerated_clean l : preserves stays_clean (untilGenerated l).
Proof. frame clean_all. Qed.

Lemma untilGenerated_built l : preserves built (untilGenerated l).
Proof. frame build_all. Qed.

Definition key (column : Col.t) := (Col.target column, Col.propertyName column).

Lemma declaredGeneration_key x y :
  key x = key y -> declaredGeneration x = declaredGeneration y.
Proof. unfold key, declaredGeneration. intros [= -> ->]. reflexivity. Qed.

(** The last pass: the columns keep their target and property, a column
    that is marked stays so, and one that is not is marked or left. *)
Definition marking : relation Store :=
  fun st st' =>
    length (columns st') = length (columns st)
    /\ forall c,
         key (columns st' !!! c) = key (columns st !!! c)
         /\ (marked st c -> marked st' c)
         /\ (clean st c -> clean st' c \/ marked st' c).

#[local] Instance marking_preorder : PreOrder marking.
Proof.
  split.
  - intros st. split; [reflexivity|]. intros c. auto.
  - intros a b c [L1 H1] [L2 H2]. split; [congruence|]. intros i.
    destruct (H1 i) as (K1 & M1 & C1), (H2 i) as (K2 & M2 & C2).
    split; [congruence|]. split; [auto|].
    intros Ha. destruct (C1 Ha) as [Hb|Hb]; [exact (C2 Hb) | right; exact (M2 Hb)].
Qed.

Lemma marking_frame {A : Type} (m : M A) :
  (forall st a st', m st = Ok (a, st') -> columns st' = columns st) ->
  preserves marking m.
Proof.
  intros Hm st a st' H. unfold marking, marked, clean.
  rewrite (Hm _ _ _ H). split; [reflexivity|]. intros c. auto.
Qed.

Ltac marking_step := apply marking_frame; untouched.

(** The change [markGenerated] makes to a column. *)
Definition mark (strategy : string) (column : Col.t) : Col.t :=
  Col.set_generationStrategy (Some strategy) (Col.set_isGenerated true column).

Lemma mark_marking c strategy st :
  MetadataArgsStorage.findGenerated storage
    (Col.target (columns st !!! c)) (Col.propertyName (columns st !!! c)) = Some strategy ->
  marking st (set_columns (<[c := mark strategy (columns st !!! c)]> (columns st)) st)
  /\ (c < length (columns st) ->
      marked (set_columns (<[c := mark strategy (columns st !!! c)]> (columns st)) st) c).
Proof.
  intros Hf.
  assert (Hm : generation (mark strategy (columns st !!! c))
               = declaredGeneration (mark strategy (columns st !!! c))).
  { unfold declaredGeneration.
    replace (Col.target (mark strategy (columns st !!! c)))
      with (Col.target (columns st !!! c)) by (destruct (columns st !!! c); reflexivity).
    replace (Col.propertyName (mark strategy (columns st !!! c)))
      with (Col.propertyName (columns st !!! c)) by (destruct (columns st !!! c); reflexivity).
    rewrite Hf. destruct (columns st !!! c); reflexivity. }
  split.
  - split; [simpl; apply length_insert|]. intros c'. unfold marked, clean. simpl.
    destruct (decide (c' = c)) as [->|Hne].
    + destruct (decide (c < length (columns st))) as [Hc|Hc].
      * rewrite list_lookup_total_insert_eq by exact Hc.
        split; [destruct (columns st !!! c); reflexivity|]. auto.
      * rewrite list_insert_ge by lia. auto.
    + rewrite list_lookup_total_insert_ne by congruence. auto.
  - intros Hc. unfold marked. simpl.
    rewrite list_lookup_total_insert_eq by exact Hc. exact Hm.
Qed.

(** The body of the loop of [markGenerated]: one column. *)
Definition markColumn (e : nat) (c : nat) : M unit :=
  column <- getColumn c ;;
  match MetadataArgsStorage.findGenerated storage
          (Col.target column) (Col.propertyName column) with
  | Some strategy =>
      updateColumn c (fun column =>
        Col.set_generationStrategy (Some strategy) (Col.set_isGenerated true column)) ;;
      computeEntityMetadataStep2 e
  | None => ret tt
  end.

Lemma markColumn_run e c st st' :
  markColumn e c st = Ok (tt, st') ->
  marking st st' /\ built st st'
  /\ (c < length (columns st) -> clean st c \/ marked st c -> marked st' c).
Proof.
  intros H. unfold markColumn in H.
  invert_bind H as column s0 H0. injection H0 as <- <-.
  destruct (MetadataArgsStorage.findGenerated _ _ _) as [strategy|] eqn:Hf.
  - invert_bind H as [] s1 H1.
    framed_as B1 built H1 ltac:(frame build_step).
    framed_as B2 built H ltac:(frame build_step).
    framed_as M2 marking H ltac:(frame marking_step).
    injection H1 as <-.
    destruct (mark_marking c strategy st Hf) as [M1 P1].
    split; [etransitivity; [exact M1 | exact M2]|].
    split; [etransitivity; [exact B1 | exact B2]|].
    intros Hc _. destruct M2 as [_ M2]. apply (M2 c), P1, Hc.
  - injection H as <-. split; [reflexivity|]. split; [reflexivity|].
    intros _ [Hc|Hm]; [|exact Hm].
    unfold marked, declaredGeneration. rewrite Hf. exact Hc.
Qed.

Lemma markColumns_run e (cs : list nat) :
  forall st st',
  forEach cs (markColumn e) st = Ok (tt, st') ->
  marking st st' /\ built st st'
  /\ forall c, c ∈ cs -> c < length (columns st) ->
       clean st c \/ marked st c -> marked st' c.
Proof.
  induction cs as [|a rest IH]; intros st st' H.
  - injection H as <-. split; [reflexivity|]. split; [reflexivity|].
    intros c Hc. apply elem_of_nil in Hc. contradiction.
  - simpl in H. invert_bind H as [] s1 H1.
    destruct (markColumn_run _ _ _ _ H1) as (M1 & B1 & P1).
    destruct (IH _ _ H) as (M2 & B2 & P2).
    split; [etransitivity; eassumption|]. split; [etransitivity; eassumption|].
    intros c Hc Hv Hs. destruct M1 as [L1 M1]. destruct (M1 c) as (_ & Km & Kc).
    apply elem_of_cons in Hc as [->|Hc].
    + destruct M2 as [_ M2]. apply (M2 a), P1; assumption.
    + apply P2; [exact Hc | rewrite L1; exact Hv|].
      destruct Hs as [Hs|Hs]; [destruct (Kc Hs); auto | right; exact (Km Hs)].
Qed.

Lemma markGenerated_run e st st' :
  markGenerated storage e st = Ok (tt, st') ->
  marking st st' /\ built st st'
  /\ forall c, c ∈ Ent.columns (entities st !!! e) -> c < length (columns st) ->
       clean st c \/ marked st c -> marked st' c.
Proof.
  intros H. unfold markGenerated in H.
  invert_bind H as x s0 H0. injection H0 as <- <-.
  exact (markColumns_run e _ _ _ H).
Qed.

Lemma generateColumns_loop (es : list nat) :
  forall st st',
  forEach es (markGenerated storage) st = Ok (tt, st') ->
  (forall e, e ∈ es ->
     e < length (entities st)
     /\ Ent.columns (entities st !!! e) = columnsOf (entities st !!! e)) ->
  marking st st' /\ built st st'
  /\ forall e c, e ∈ es -> c ∈ Ent.columns (entities st !!! e) ->
       c < length (columns st) -> clean st c \/ marked st c -> marked st' c.
Proof.
  induction es as [|a rest IH]; intros st st' H V.
  - injection H as <-. split; [reflexivity|]. split; [reflexivity|].
    intros e c He. apply elem_of_nil in He. contradiction.
  - simpl in H. invert_bind H as [] s1 H1.
    destruct (markGenerated_run _ _ _ H1) as (M1 & B1 & P1).
    assert (V1 : forall e, e ∈ rest ->
              e < length (entities s1)
              /\ Ent.columns (entities s1 !!! e) = columnsOf (entities s1 !!! e)).
    { intros e He. destruct (V e ltac:(right; exact He)) as [Hv Hc].
      split; [destruct B1 as ([L _] & _); lia|].
      exact (proj2 (computed_built _ _ _ B1 Hv Hc)). }
    destruct (IH _ _ H V1) as (M2 & B2 & P2).
    split; [etransitivity; eassumption|]. split; [etransitivity; eassumption|].
    intros e c He Hc Hv Hs. destruct M1 as [L1 M1]. destruct (M1 c) as (_ & Km & Kc).
    destruct (decide (e ∈ rest)) as [Hin|Hnin].
    + apply (P2 e c Hin).
      * destruct (V e He) as [Hve Hce].
        rewrite (proj1 (computed_built _ _ _ B1 Hve Hce)). exact Hc.
      * rewrite L1. exact Hv.
      * destruct Hs as [Hs|Hs]; [destruct (Kc Hs); auto | right; exact (Km Hs)].
    + apply elem_of_cons in He as [->|He]; [|contradiction].
      destruct M2 as [_ M2]. apply (M2 c), P1; assumption.
Qed.

Lemma clean_empty c : clean empty_store c.
Proof. destruct c; reflexivity. Qed.

(** The build up to its last pass, and what the last pass finds. *)
Lemma build_until_generated classes result st :
  build connection storage classes empty_store = Ok (result, st) ->
  exists s6,
    generateColumns storage s6 = Ok (tt, st)
    /\ result = entityMetadatas st
    /\ (forall c, clean s6 c)
    /\ forall u, u ∈ entityMetadatas s6 ->
         u < length (entities s6)
         /\ Ent.columns (entities s6 !!! u) = columnsOf (entities s6 !!! u).
Proof.
  intros Hb.
  apply build_stages in Hb as (created & s1 & s2 & Hi & Hown & Hrest).
  apply afterOwnMembers_stages in Hrest as (s6 & H6 & Hg & ->).
  exists s6. split; [exact Hg|]. split; [reflexivity|]. split.
  - apply (untilGenerated_clean _ _ _ _ H6), (buildOwnMembers_clean _ _ _ _ Hown),
      (instantiate_clean _ _ _ _ Hi). exact clean_empty.
  - destruct (instantiate_run _ _ _ _ _ _ Hi blank_empty) as (_ & V & L1).
    rewrite Forall_forall in V.
    pose proof (buildOwnMembers_listing _ _ _ _ _ _ Hown) as L2. unfold same_listing in L2.
    destruct (buildOwnMembers_entities _ _ _ _ _ _ Hown) as [N2 _].
    unfold untilGenerated in H6. invert_bind H6 as [] s3 H3.
    destruct (computeProperties_columns _ _ _ H3) as [B3 C3].
    framed_as L3 same_listing H3 ltac:(frame stable_step). unfold same_listing in L3.
    framed_as B6 built H6 ltac:(frame build_all).
    intros u Hu. destruct B6 as (F6 & R6 & G6).
    destruct (G6 u Hu) as [Hold|[Hlt Hc]]; [|split; [lia | exact Hc]].
    rewrite L3, L2, L1 in Hold.
    assert (V2 : u < length (entities s2)) by (rewrite N2; exact (V u Hold)).
    assert (V3 : u < length (entities s3)) by (destruct B3 as ([L _] & _); lia).
    split; [destruct F6 as [L _]; lia|].
    apply (computed_built s3); [split; [exact F6 | split; [exact R6 | exact G6]] | exact V3|].
    apply C3; assumption.
Qed.

Lemma generateColumns_run s6 st :
  generateColumns storage s6 = Ok (tt, st) ->
  (forall u, u ∈ entityMetadatas s6 ->
     u < length (entities s6)
     /\ Ent.columns (entities s6 !!! u) = columnsOf (entities s6 !!! u)) ->
  marking s6 st
  /\ entityMetadatas st = entityMetadatas s6
  /\ forall e c, e ∈ entityMetadatas st -> c ∈ Ent.columns (entities st !!! e) ->
       c < length (columns st) -> clean s6 c \/ marked s6 c -> marked st c.
Proof.
  intros H V.
  framed_as L same_listing H ltac:(frame stable_step).
  unfold generateColumns in H. invert_bind H as l s0 H0. injection H0 as <- <-.
  destruct (generateColumns_loop _ _ _ H V) as (M & B & P).
  split; [exact M|]. split; [exact L|].
  intros e c He Hc Hv Hs. rewrite L in He. destruct (V e He) as [Hve Hce].
  apply (P e c He); [|destruct M as [<- _]; exact Hv | exact Hs].
  rewrite <- (proj1 (computed_built _ _ _ B Hve Hce)). exact Hc.
Qed.

(** X18. After a successful build every column of an entity metadata the
    build returns is generated exactly when a generation is declared for
    its target and property, and has the declared strategy. *)
Theorem generated_columns_are_the_declared classes result st e c :
  build connection storage classes empty_store = Ok (result, st) ->
  e ∈ result ->
  c ∈ Ent.columns (entities st !!! e) ->
  c < length (columns st) ->
  Col.generationStrategy (columns st !!! c)
  = MetadataArgsStorage.findGenerated storage
      (Col.target (columns st !!! c)) (Col.propertyName (columns st !!! c))
  /\ Col.isGenerated (columns st !!! c)
     = bool_decide (is_Some (MetadataArgsStorage.findGenerated storage
                               (Col.target (columns st !!! c))
                               (Col.propertyName (columns st !!! c)))).
Proof.
  intros Hb He Hc Hv.
  apply build_until_generated in Hb as (s6 & Hg & -> & C6 & V6).
  destruct (generateColumns_run _ _ Hg V6) as (_ & _ & P).
  specialize (P e c He Hc Hv (or_introl (C6 c))).
  unfold marked, generation, declaredGeneration in P.
  destruct (MetadataArgsStorage.findGenerated _ _ _); injection P as -> ->;
    split; reflexivity.
Qed.


(** X20. After a successful build no column of the store is generated
    unless a generation is declared for its target and property. *)
Theorem undeclared_columns_are_not_generated classes result st c :
  build connection storage classes empty_store = Ok (result, st) ->
  MetadataArgsStorage.findGenerated storage
    (Col.target (columns st !!! c)) (Col.propertyName (columns st !!! c)) = None ->
  Col.isGenerated (columns st !!! c) = false
  /\ Col.generationStrategy (columns st !!! c) = None.
Proof.
  intros Hb Hn.
  apply build_until_generated in Hb as (s6 & Hg & -> & C6 & V6).
  destruct (generateColumns_run _ _ Hg V6) as ([_ M] & _ & _).
  destruct (M c) as (_ & _ & K). destruct (K (C6 c)) as [H|H].
  - unfold clean, generation in H. injection H as -> ->. split; reflexivity.
  - unfold marked, generation, declaredGeneration in H. rewrite Hn in H.
    injection H as -> ->. split; reflexivity.
Qed.

End Run.

End GeneratedColumns.

Lemma generated_columns_are_the_declared_witness :
  exists st,
    Samples.run (Samples.inheritance false) = Ok ([0; 1], st)
    /\ EntityMetadataBuilder.Col.generationStrategy
         (EntityMetadataBuilder.columns st !!! 0) = Some "increment"
    /\ EntityMetadataBuilder.Col.isGenerated
         (EntityMetadataBuilder.columns st !!! 0) = true.
Proof.
  pose (d := Samples.inheritance false).
  let r := eval vm_compute in (Samples.run d) in
  match r with Ok (_, ?s) => pose (st := s) end.
  assert (Hb : EntityMetadataBuilder.build (Samples.postgres d) (Samples.storage d) None
                 EntityMetadataBuilder.empty_store
               = Ok ([0; 1], st)) by (vm_compute; reflexivity).
  destruct (generated_columns_are_the_declared
              (Samples.postgres d) (Samples.storage d) None [0; 1] st 1 0 Hb
              ltac:(right; left)
              ltac:(vm_compute; left)
              ltac:(vm_compute; lia)) as [H1 H2].
  exists st. split; [exact Hb|]. split.
  - rewrite H1. vm_compute. reflexivity.
  - rewrite H2. vm_compute. reflexivity.
Defined.

Lemma undeclared_columns_are_not_generated_witness :
  exists st,
    Samples.run (Samples.inheritance false) = Ok ([0; 1], st)
    /\ EntityMetadataBuilder.Col.propertyName
         (EntityMetadataBuilder.columns st !!! 1) = "title"
    /\ EntityMetadataBuilder.Col.isGenerated
         (EntityMetadataBuilder.columns st !!! 1) = false.
Proof.
  pose (d := Samples.inheritance false).
  let r := eval vm_compute in (Samples.run d) in
  match r with Ok (_, ?s) => pose (st := s) end.
  assert (Hb : EntityMetadataBuilder.build (Samples.postgres d) (Samples.storage d) None
                 EntityMetadataBuilder.empty_store
               = Ok ([0; 1], st)) by (vm_compute; reflexivity).
  destruct (undeclared_columns_are_not_generated
              (Samples.postgres d) (Samples.storage d) None [0; 1] st 1 Hb
              ltac:(vm_compute; reflexivity)) as [H1 _].
  exists st. split; [exact Hb|]. split; [vm_compute; reflexivity | exact H1].
Defined.

